(** * Causal-graph traversal and topology validation

    A shallow embedding of [converters/whyzen_graph_utils.py] and
    [converters/topology_validator.py], with the properties of the
    traversal engine, the topology comparator and the consistency checker.

    Node identifiers are Python [str] values.  A Python [dict] keeps its
    keys in insertion order and several functions below iterate over
    [items()], so dictionaries are ordered association lists with unique
    keys.  Python [set]s are only tested for membership and extended, so
    they are finite sets ([gset]). *)

From stdpp Require Import base option list sets gmap strings sorting.
From Stdlib Require Import ZArith Lia.

Set Warnings "-clear-no-such-hyp".

Open Scope string_scope.
Open Scope nat_scope.
Open Scope list_scope.

(** ** Ordered dictionaries *)

Module Dict.

Abbreviation t V := (list (string * V)).

(** [d.get(k)] *)
Fixpoint get {V} (k : string) (d : t V) : option V :=
  match d with
  | [] => None
  | (k', v) :: d' => if decide (k = k') then Some v else get k d'
  end.

(** [d.get(k, dflt)] *)
Definition get_or {V} (k : string) (dflt : V) (d : t V) : V :=
  default dflt (get k d).

(** [d[k] = v]: an existing key keeps its position, a new key goes last. *)
Fixpoint set {V} (k : string) (v : V) (d : t V) : t V :=
  match d with
  | [] => [(k, v)]
  | (k', v') :: d' =>
      if decide (k = k') then (k, v) :: d' else (k', v') :: set k v d'
  end.

Definition keys {V} (d : t V) : list string := d.*1.

(** The shape of every value a Python [dict] can take. *)
Definition wf {V} (d : t V) : Prop := NoDup (keys d).

End Dict.

Abbreviation EdgeMap := (Dict.t (list string)).

(** ** [whyzen_graph_utils]: the public API, on a pre-computed edge map *)

(** All functions below are called with [edges=...]; [_get_edges] then
    returns that dictionary and the model object is not consulted. *)

(** [_build_children_map] *)
Definition add_child (child_name : string)
    (children : Dict.t (list string)) (parent_name : string) :
    Dict.t (list string) :=
  match Dict.get parent_name children with
  | Some cs => Dict.set parent_name (cs ++ [child_name]) children
  | None => Dict.set parent_name [child_name] children
  end.

Definition _build_children_map (edges : EdgeMap) : Dict.t (list string) :=
  foldl (fun children '(child_name, parent_names) =>
           foldl (add_child child_name) children parent_names)
        ((fun name => (name, [])) <$> Dict.keys edges) edges.

(** [get_parents] and [get_children] *)
Definition get_parents (edges : EdgeMap) (node_name : string) : list string :=
  Dict.get_or node_name [] edges.

Definition get_children (edges : EdgeMap) (node_name : string) : list string :=
  Dict.get_or node_name [] (_build_children_map edges).

(** *** Depth-first traversal

    [get_ancestors] and [get_descendants] define the same local closure
    [traverse], over [edge_map] and over [children_map].  The closure
    updates the set [visited] and the list it appends to; the recursion
    is on the call depth (the interpreter's recursion limit is not part
    of the model). *)

Record dfs_state := DfsState {
  dfs_visited : gset string;
  dfs_found : list string
}.

Definition for_each {S A} (body : S -> A -> option S) :
    list A -> S -> option S :=
  fix go xs st :=
    match xs with
    | [] => Some st
    | x :: xs' => match body st x with
                  | Some st' => go xs' st'
                  | None => None
                  end
    end.

Fixpoint traverse (depth : nat) (adj : Dict.t (list string))
    (current : string) (st : dfs_state) : option dfs_state :=
  match depth with
  | O => None
  | S depth' =>
      for_each (fun st next =>
                  if decide (next ∈ dfs_visited st) then Some st
                  else traverse depth' adj next
                         (DfsState ({[next]} ∪ dfs_visited st)
                                   (dfs_found st ++ [next])))
               (Dict.get_or current [] adj) st
  end.

(** The call depth never exceeds the number of identifiers that occur in
    some adjacency list, plus one. *)
Definition depth_bound (adj : Dict.t (list string)) : nat :=
  S (length (mjoin adj.*2)).

Definition dfs (adj : Dict.t (list string)) (node_name : string) :
    option (list string) :=
  dfs_found <$> traverse (depth_bound adj) adj node_name (DfsState ∅ []).

Definition get_ancestors (edges : EdgeMap) (node_name : string) :
    option (list string) :=
  dfs edges node_name.

Definition get_descendants (edges : EdgeMap) (node_name : string) :
    option (list string) :=
  dfs (_build_children_map edges) node_name.

(** [is_ancestor] and [is_descendant] *)
Definition is_ancestor (edges : EdgeMap) (potential_ancestor node_name : string) :
    option bool :=
  if decide (potential_ancestor = node_name) then Some false
  else (fun ancestors => bool_decide (potential_ancestor ∈ ancestors))
         <$> get_ancestors edges node_name.

Definition is_descendant (edges : EdgeMap)
    (potential_descendant node_name : string) : option bool :=
  if decide (potential_descendant = node_name) then Some false
  else (fun descendants => bool_decide (potential_descendant ∈ descendants))
         <$> get_descendants edges node_name.

(** *** Breadth-first traversal with degrees

    [get_ancestors_with_degree] and [get_descendants_with_degree] run the
    same [while queue] loop, over [edge_map] and over [children_map].
    [visited] is a dictionary from names to degrees, read back in
    insertion order.  [nodes] stands for the dictionary that
    [_get_nodes_from_model] reads off the model object; the queries only
    look names up in it. *)

Record NodeWithDegree (N : Type) := MkNodeWithDegree {
  node : option N;
  name : string;
  degree : nat
}.
Arguments MkNodeWithDegree {N} _ _ _.
Arguments node {N} _.
Arguments name {N} _.
Arguments degree {N} _.

Definition bfs_visit (deg : nat) (st : Dict.t nat * list (string * nat))
    (next : string) : Dict.t nat * list (string * nat) :=
  match Dict.get next st.1 with
  | Some _ => st
  | None => (Dict.set next (S deg) st.1, st.2 ++ [(next, S deg)])
  end.

Fixpoint bfs (fuel : nat) (adj : Dict.t (list string))
    (visited : Dict.t nat) (queue : list (string * nat)) :
    option (Dict.t nat) :=
  match queue with
  | [] => Some visited
  | (current, deg) :: queue' =>
      match fuel with
      | O => None
      | S fuel' =>
          let st := foldl (bfs_visit deg) (visited, queue')
                          (Dict.get_or current [] adj) in
          bfs fuel' adj st.1 st.2
      end
  end.

(** [sorted(result, key=...)]: Python's sort is stable, and a stable sort
    has one possible output; insertion from the right is such a sort. *)
Fixpoint insert_by {A} (key : A -> nat) (x : A) (l : list A) : list A :=
  match l with
  | [] => [x]
  | y :: l' =>
      if decide (key x <= key y)%nat then x :: y :: l'
      else y :: insert_by key x l'
  end.

Definition sorted_by {A} (key : A -> nat) (l : list A) : list A :=
  foldr (insert_by key) [] l.

Definition with_degree {N} (nodes : Dict.t N) (adj : Dict.t (list string))
    (node_name : string) : option (list (NodeWithDegree N)) :=
  (fun visited =>
     sorted_by degree
       ((fun '(name, deg) => MkNodeWithDegree (Dict.get name nodes) name deg)
          <$> visited))
    <$> bfs (depth_bound adj) adj [] [(node_name, O)].

Definition get_ancestors_with_degree {N} (nodes : Dict.t N) (edges : EdgeMap)
    (node_name : string) : option (list (NodeWithDegree N)) :=
  with_degree nodes edges node_name.

Definition get_descendants_with_degree {N} (nodes : Dict.t N)
    (edges : EdgeMap) (node_name : string) :
    option (list (NodeWithDegree N)) :=
  with_degree nodes (_build_children_map edges) node_name.

(** *** [would_create_cycle] *)

Definition until_true {S A} (body : A -> S -> option (bool * S)) :
    list A -> S -> option (bool * S) :=
  fix go xs st :=
    match xs with
    | [] => Some (false, st)
    | x :: xs' => match body x st with
                  | Some (true, st') => Some (true, st')
                  | Some (false, st') => go xs' st'
                  | None => None
                  end
    end.

Fixpoint can_reach (depth : nat) (children_map : Dict.t (list string))
    (goal current : string) (visited : gset string) :
    option (bool * gset string) :=
  match depth with
  | O => None
  | S depth' =>
      if decide (current = goal) then Some (true, visited)
      else if decide (current ∈ visited) then Some (false, visited)
      else until_true (can_reach depth' children_map goal)
                      (Dict.get_or current [] children_map)
                      ({[current]} ∪ visited)
  end.

Definition would_create_cycle (edges : EdgeMap)
    (source_name target_name : string) : option bool :=
  if decide (source_name = target_name) then Some true
  else
    let children_map := _build_children_map edges in
    fst <$> can_reach (S (depth_bound children_map)) children_map
                      source_name target_name ∅.

(** *** [get_roots] *)

Definition get_roots (edges : EdgeMap) : list string :=
  (filter (fun item => item.2 = []) edges).*1.

(** *** [topological_sort] *)

Inductive exn :=
  | ValueError (msg : string)
  | KeyError (key : string).

Inductive outcome (A : Type) :=
  | Return (a : A)
  | Raise (e : exn).
Arguments Return {A} _.
Arguments Raise {A} _.

Definition try_each {S A} (body : S -> A -> outcome S) :
    list A -> S -> outcome S :=
  fix go xs st :=
    match xs with
    | [] => Return st
    | x :: xs' => match body st x with
                  | Return st' => go xs' st'
                  | Raise e => Raise e
                  end
    end.

Definition kahn_visit (st : Dict.t Z * list string) (child : string) :
    outcome (Dict.t Z * list string) :=
  match Dict.get child st.1 with
  | None => Raise (KeyError child)
  | Some d =>
      let in_degree := Dict.set child (d - 1)%Z st.1 in
      if decide (d - 1 = 0)%Z then Return (in_degree, st.2 ++ [child])
      else Return (in_degree, st.2)
  end.

Fixpoint kahn_loop (fuel : nat) (children_map : Dict.t (list string))
    (in_degree : Dict.t Z) (queue result : list string) :
    option (outcome (list string)) :=
  match queue with
  | [] => Some (Return result)
  | node :: queue' =>
      match fuel with
      | O => None
      | S fuel' =>
          match try_each kahn_visit (Dict.get_or node [] children_map)
                         (in_degree, queue') with
          | Raise e => Some (Raise e)
          | Return st =>
              kahn_loop fuel' children_map st.1 st.2 (result ++ [node])
          end
      end
  end.

Definition cycle_message : string :=
  "Graph contains a cycle - topological sort not possible".

Definition topological_sort (edges : EdgeMap) :
    option (outcome (list string)) :=
  let in_degree : Dict.t Z :=
    (fun item => (item.1, Z.of_nat (length item.2))) <$> edges in
  let children_map := _build_children_map edges in
  let queue := (filter (fun item => item.2 = 0%Z) in_degree).*1 in
  match kahn_loop (length edges) children_map in_degree queue [] with
  | Some (Return result) =>
      if decide (length result ≠ length edges)
      then Some (Raise (ValueError cycle_message))
      else Some (Return result)
  | other => other
  end.

(** ** [topology_validator] *)

Record TopologyReport := MkTopologyReport {
  is_valid : bool;
  node_count_match : bool;
  edge_count_match : bool;
  missing_nodes_in_a : gset string;
  missing_nodes_in_b : gset string;
  missing_edges_in_a : gset (string * string);
  missing_edges_in_b : gset (string * string)
}.

Definition compare_topologies
    (nodes_a : gset string) (edges_a : gset (string * string))
    (nodes_b : gset string) (edges_b : gset (string * string)) :
    TopologyReport :=
  let missing_nodes_in_a := nodes_b ∖ nodes_a in
  let missing_nodes_in_b := nodes_a ∖ nodes_b in
  let missing_edges_in_a := edges_b ∖ edges_a in
  let missing_edges_in_b := edges_a ∖ edges_b in
  let is_valid :=
    bool_decide (size missing_nodes_in_a = 0%nat) &&
    bool_decide (size missing_nodes_in_b = 0%nat) &&
    bool_decide (size missing_edges_in_a = 0%nat) &&
    bool_decide (size missing_edges_in_b = 0%nat) in
  MkTopologyReport is_valid
    (bool_decide (size nodes_a = size nodes_b))
    (bool_decide (size edges_a = size edges_b))
    missing_nodes_in_a missing_nodes_in_b
    missing_edges_in_a missing_edges_in_b.

(** The portable graph: the [id] of every entry of ["nodes"] and the
    [source] and [target] of every entry of ["edges"], in file order. *)
Record CausewayJson := MkCausewayJson {
  nodes : list string;
  edges : list (string * string)
}.

Definition source_message (source : string) : string :=
  ("Edge source '" +:+ source +:+ "' not in nodes")%string.
Definition target_message (target : string) : string :=
  ("Edge target '" +:+ target +:+ "' not in nodes")%string.
Definition self_loop_message (source : string) : string :=
  ("Self-loop detected: " +:+ source)%string.
Definition duplicate_message (source target : string) : string :=
  ("Duplicate edge: " +:+ source +:+ " -> " +:+ target)%string.

Fixpoint scan_edges (node_ids : gset string)
    (seen_edges : gset (string * string)) (edges : list (string * string)) :
    outcome bool :=
  match edges with
  | [] => Return true
  | (source, target) :: rest =>
      if decide (source ∉ node_ids) then
        Raise (ValueError (source_message source))
      else if decide (target ∉ node_ids) then
        Raise (ValueError (target_message target))
      else if decide (source = target) then
        Raise (ValueError (self_loop_message source))
      else if decide ((source, target) ∈ seen_edges) then
        Raise (ValueError (duplicate_message source target))
      else scan_edges node_ids ({[(source, target)]} ∪ seen_edges) rest
  end.

Definition quick_validate (causeway_json : CausewayJson) : outcome bool :=
  scan_edges (list_to_set (nodes causeway_json)) ∅ (edges causeway_json).

(** ** [whyzen_graph_utils]: the rest of the public API *)

(** [get_leaves] *)
Definition get_leaves (edges : EdgeMap) : list string :=
  (filter (fun item => item.2 = []) (_build_children_map edges)).*1.

(** [RelationshipType] and [get_relationship] *)
Module Relationship.
Inductive t := parent | ancestor | child | descendant | self | unconnected.
End Relationship.

Definition get_relationship (edges : EdgeMap) (node_a node_b : string) :
    option Relationship.t :=
  if decide (node_a = node_b) then Some Relationship.self
  else if decide (node_a ∈ Dict.get_or node_b [] edges)
  then Some Relationship.parent
  else if decide (node_b ∈ Dict.get_or node_a [] edges)
  then Some Relationship.child
  else
    match is_ancestor edges node_a node_b with
    | None => None
    | Some true => Some Relationship.ancestor
    | Some false =>
        match is_descendant edges node_a node_b with
        | None => None
        | Some true => Some Relationship.descendant
        | Some false => Some Relationship.unconnected
        end
    end.

(** [get_path]: [visited] is a set, [parent_map] a dictionary from a
    node to the node it was discovered from, [queue] the [deque].  The
    inner [while node in parent_map] loop walks back from the target. *)
Record path_state := PathState {
  path_visited : gset string;
  path_parent_map : Dict.t string;
  path_queue : list string
}.

Fixpoint walk_back (fuel : nat) (parent_map : Dict.t string)
    (node : string) (path : list string) : option (list string) :=
  match Dict.get node parent_map with
  | None => Some path
  | Some previous =>
      match fuel with
      | O => None
      | S fuel' => walk_back fuel' parent_map previous (path ++ [previous])
      end
  end.

(** The [for child in ...] loop: [inl] when it runs to its end, [inr]
    when it returns the path. *)
Fixpoint scan_children (target current : string) (children : list string)
    (st : path_state) : option (path_state + list string) :=
  match children with
  | [] => Some (inl st)
  | child :: rest =>
      if decide (child ∈ path_visited st)
      then scan_children target current rest st
      else
        let visited := {[child]} ∪ path_visited st in
        let parent_map := Dict.set child current (path_parent_map st) in
        if decide (child = target) then
          (fun path => inr (reverse path))
            <$> walk_back (length parent_map) parent_map target [target]
        else
          scan_children target current rest
            (PathState visited parent_map (path_queue st ++ [child]))
  end.

Fixpoint path_loop (fuel : nat) (children_map : Dict.t (list string))
    (target : string) (st : path_state) : option (option (list string)) :=
  match path_queue st with
  | [] => Some None
  | current :: queue' =>
      match fuel with
      | O => None
      | S fuel' =>
          match scan_children target current
                  (Dict.get_or current [] children_map)
                  (PathState (path_visited st) (path_parent_map st) queue')
          with
          | None => None
          | Some (inr path) => Some (Some path)
          | Some (inl st') => path_loop fuel' children_map target st'
          end
      end
  end.

(** The outer [option] is the step budget of the model, the inner one is
    Python's [Optional]. *)
Definition get_path (edges : EdgeMap) (source target : string) :
    option (option (list string)) :=
  if decide (source = target) then Some (Some [source])
  else
    let children_map := _build_children_map edges in
    path_loop (depth_bound children_map) children_map target
              (PathState {[source]} [] [source]).

(** [get_common_ancestors] and [get_common_descendants]: [list(a & b)]
    lists the members of a set once each; the order Python gives them
    depends on string hashing and is not modelled, [elements] gives some
    order. *)
Definition get_common_ancestors (edges : EdgeMap) (node_a node_b : string) :
    option (list string) :=
  match get_ancestors edges node_a, get_ancestors edges node_b with
  | Some ancestors_a, Some ancestors_b =>
      Some (elements (list_to_set ancestors_a ∩ list_to_set ancestors_b
                      : gset string))
  | _, _ => None
  end.

Definition get_common_descendants (edges : EdgeMap)
    (node_a node_b : string) : option (list string) :=
  match get_descendants edges node_a, get_descendants edges node_b with
  | Some descendants_a, Some descendants_b =>
      Some (elements (list_to_set descendants_a ∩ list_to_set descendants_b
                      : gset string))
  | _, _ => None
  end.

(** ** [topology_validator]: the validation wrappers *)

(** [extract_edges_from_causeway_json] *)
Definition extract_edges_from_causeway_json (causeway_json : CausewayJson) :
    gset string * gset (string * string) :=
  (list_to_set (nodes causeway_json), list_to_set (edges causeway_json)).

(** A wrapper returns the report or raises [TopologyMismatch]; the
    exception's message is [str(report)], so the report stands for it. *)
Inductive validation :=
  | Report (report : TopologyReport)
  | TopologyMismatch (report : TopologyReport).

Definition report_or_raise (report : TopologyReport)
    (raise_on_mismatch : bool) : validation :=
  if negb (is_valid report) && raise_on_mismatch
  then TopologyMismatch report else Report report.

(** [validate_parsed_edges] *)
Definition parsed_edge_tuples (parsed_edges : EdgeMap) :
    gset (string * string) :=
  foldl (fun tuples '(target, parents) =>
           foldl (fun tuples parent => {[(parent, target)]} ∪ tuples)
                 tuples parents)
        ∅ parsed_edges.

Definition validate_parsed_edges (parsed_edges : EdgeMap)
    (causeway_json : CausewayJson) (raise_on_mismatch : bool) : validation :=
  let parsed_node_names : gset string :=
    list_to_set (Dict.keys parsed_edges) in
  let '(causeway_nodes, causeway_edges) :=
    extract_edges_from_causeway_json causeway_json in
  report_or_raise
    (compare_topologies parsed_node_names (parsed_edge_tuples parsed_edges)
                        causeway_nodes causeway_edges)
    raise_on_mismatch.

(** [validate_topology_from_files], from the two loaded JSON values on. *)
Definition validate_topology_from_files (json_a json_b : CausewayJson)
    (raise_on_mismatch : bool) : validation :=
  let '(nodes_a, edges_a) := extract_edges_from_causeway_json json_a in
  let '(nodes_b, edges_b) := extract_edges_from_causeway_json json_b in
  report_or_raise (compare_topologies nodes_a edges_a nodes_b edges_b)
                  raise_on_mismatch.

(** ** [parse_rde_model]: the export of the parsed nodes *)

Module parse_rde_model.

Record NodeInfo := MkNodeInfo {
  name : string;
  display_name : string;
  node_type : string;
  mechanism_type : option string;
  kernel_type : option string;
  kernel_params : Dict.t string;
  parents : list string;
  level : string;
  description : string
}.

(** The dictionaries of the exported JSON value, one record per shape;
    the fields are the keys. *)
Record WhyzenEntry := MkWhyzenEntry {
  entry_node_type : string;
  entry_mechanism_type : option string;
  entry_kernel_type : option string;
  entry_kernel_params : Dict.t string;
  entry_level : string
}.

Record NodeEntry := MkNodeEntry {
  node_id : string;
  variableName : string;
  displayName : string;
  node_description : string;
  position : Z * Z;
  _whyzen : WhyzenEntry
}.

Record EdgeEntry := MkEdgeEntry {
  edge_id : string;
  source : string;
  target : string
}.

Record Document := MkDocument {
  document_nodes : list NodeEntry;
  document_edges : list EdgeEntry;
  experimentalContext : string
}.

Definition node_entry (node : NodeInfo) : NodeEntry :=
  MkNodeEntry (name node) (name node) (display_name node) (description node)
              (0, 0)%Z
              (MkWhyzenEntry (node_type node) (mechanism_type node)
                             (kernel_type node) (kernel_params node)
                             (level node)).

Definition edge_entry (node : NodeInfo) (parent_name : string) : EdgeEntry :=
  MkEdgeEntry (parent_name +:+ "->" +:+ name node)%string
              parent_name (name node).

(** [to_causeway_json]: both lists grow by [append] inside the loops. *)
Definition to_causeway_json (nodes : list NodeInfo) (context : string) :
    Document :=
  let '(causeway_nodes, causeway_edges) :=
    foldl (fun '(causeway_nodes, causeway_edges) node =>
             (causeway_nodes ++ [node_entry node],
              foldl (fun causeway_edges parent_name =>
                       causeway_edges ++ [edge_entry node parent_name])
                    causeway_edges (parents node)))
          ([], []) nodes in
  MkDocument causeway_nodes causeway_edges context.

(** What [extract_edges_from_causeway_json] and [quick_validate] read in
    an exported value: [n["id"]] of every node entry, [e["source"]] and
    [e["target"]] of every edge entry. *)
Definition read (document : Document) : CausewayJson :=
  MkCausewayJson (node_id <$> document_nodes document)
                 ((fun e => (source e, target e)) <$> document_edges document).

End parse_rde_model.

(** ** Example data *)

(** Example 1 of the specification. *)
Definition diamond : EdgeMap :=
  [("A", []); ("B", ["A"]); ("C", ["A"]); ("D", ["B"; "C"])].

(** The pre-computed [edges] of the module docstring: ['parent1'] and
    ['parent2'] are parents but not keys. *)
Definition docstring_edges : EdgeMap :=
  [("child", ["parent1"; "parent2"]); ("grandchild", ["child"])].

Definition two_cycle : EdgeMap := [("A", ["B"]); ("B", ["A"])].

Definition self_parent : EdgeMap := [("A", ["A"])].

Definition cycle_and_two : EdgeMap :=
  [("A", ["B"]); ("B", ["A"]); ("C", []); ("D", [])].

(** Example 4 and example 5 of the specification. *)
Definition self_loop_graph : CausewayJson :=
  MkCausewayJson ["P"; "Q"] [("P", "P")].

Definition nodes_12 : gset string := {["1"; "2"]}.
Definition nodes_123 : gset string := {["1"; "2"; "3"]}.
Definition edges_12 : gset (string * string) := {[("1", "2")]}.

(** Three parsed nodes: two roots and a node computed from both. *)
Definition parsed_node (name : string) (parents : list string) :
    parse_rde_model.NodeInfo :=
  parse_rde_model.MkNodeInfo name name "Node" None None [] parents
                             "global" "".
Definition parsed_nodes : list parse_rde_model.NodeInfo :=
  [parsed_node "mass" []; parsed_node "area" [];
   parsed_node "loading" ["mass"; "area"]].

(** ** Specification vocabulary *)

(** One edge of an adjacency dictionary: [y] is listed under [x]. *)
Definition edge (adj : Dict.t (list string)) (x y : string) : Prop :=
  y ∈ Dict.get_or x [] adj.

(** [y] is one of the neighbours of [x]. *)
Definition listed (nbrs : string → list string) (x y : string) : Prop :=
  y ∈ nbrs x.

(** [p] is a direct parent of [c]; [c] is a direct child of [p]. *)
Definition parent_step (edges : EdgeMap) (c p : string) : Prop :=
  p ∈ get_parents edges c.
Definition child_step (edges : EdgeMap) (p c : string) : Prop :=
  c ∈ get_children edges p.

(** The children index, as section 4.1 of the specification describes it: the
    keys that list [p], in key order, once per occurrence. *)
Definition children_of (edges : EdgeMap) (p : string) : list string :=
  item ← edges; (fun _ => item.1) <$> filter (p =.) item.2.

(** Every parent is a key; no node is its own transitive parent. *)
Definition closed (edges : EdgeMap) : Prop :=
  ∀ c p, parent_step edges c p → p ∈ Dict.keys edges.
Definition acyclic (edges : EdgeMap) : Prop :=
  ∀ x, ¬ tc (parent_step edges) x x.

(** First-visit order of a pre-order depth-first expansion of a work list:
    an element already seen is skipped; a new one is listed, then what its
    own neighbours newly reach, then what the rest of the work list does. *)
Inductive first_visit (nbrs : string → list string) :
    gset string → list string → list string → Prop :=
  | fv_done seen : first_visit nbrs seen [] []
  | fv_skip seen x work rest :
      x ∈ seen →
      first_visit nbrs seen work rest →
      first_visit nbrs seen (x :: work) rest
  | fv_visit seen x work below rest :
      x ∉ seen →
      first_visit nbrs ({[x]} ∪ seen) (nbrs x) below →
      first_visit nbrs (list_to_set below ∪ ({[x]} ∪ seen)) work rest →
      first_visit nbrs seen (x :: work) (x :: below ++ rest).

(** Occurrences of [x] in [l]. *)
Definition count (x : string) (l : list string) : nat :=
  length (filter (x =.) l).

(** The position of every parent in [order] is before the child's. *)
Definition parents_first (edges : EdgeMap) (order : list string) : Prop :=
  ∀ i x p, order !! i = Some x → parent_step edges x p →
           ∃ j, j < i ∧ order !! j = Some p.

(** The parent occurrences of [c] that are not processed yet. *)
Definition pending (edges : EdgeMap) (done : list string) (c : string) :
    list string :=
  filter (.∉ done) (get_parents edges c).

(** [d] is the least number of edges, at least one, of a walk from
    [start] to [x]. *)
Definition is_degree (R : relation string) (start x : string)
    (d : nat) : Prop :=
  1 ≤ d ∧ nsteps R d start x ∧
  ∀ k, 1 ≤ k → nsteps R k start x → d ≤ k.

(** The edge [source → target]: [source] is appended to the parent list
    of [target]. *)
Definition add_edge (edges : EdgeMap) (source target : string) : EdgeMap :=
  Dict.set target (get_parents edges target ++ [source]) edges.

(** The identifiers that occur in some adjacency list. *)
Definition universe (adj : Dict.t (list string)) : gset string :=
  list_to_set (mjoin adj.*2).

(** What holds each time the [while queue] loop of [topological_sort]
    tests its queue. *)
Record kahn_inv (edges : EdgeMap) (in_degree : Dict.t Z)
    (queue result : list string) : Prop := {
  inv_degree : ∀ c, c ∈ Dict.keys edges →
    Dict.get c in_degree
    = Some (Z.of_nat (length (pending edges result c)));
  inv_nodup : NoDup (result ++ queue);
  inv_ready : ∀ c, c ∈ result ++ queue ↔
    c ∈ Dict.keys edges ∧ pending edges result c = [];
  inv_order : parents_first edges result
}.

(** What holds each time the [while queue] loop of the breadth-first
    search tests its queue. *)
Record bfs_inv (adj : Dict.t (list string)) (start : string)
    (visited : Dict.t nat) (queue : list (string * nat)) : Prop := {
  bi_wf : Dict.wf visited;
  bi_sound : ∀ x d, (x, d) ∈ visited → 1 ≤ d ∧ nsteps (edge adj) d start x;
  bi_queue : ∀ x d, (x, d) ∈ queue →
    (x, d) = (start, 0) ∨ (x, d) ∈ visited;
  bi_visited : StronglySorted le visited.*2;
  bi_sorted : StronglySorted le queue.*2;
  bi_bound : ∃ b, Forall (fun k => b ≤ k ≤ S b) queue.*2 ∧
                  Forall (fun k => k ≤ S b) visited.*2;
  bi_expanded : ∀ y e,
    (y, e) = (start, 0) ∨ (y, e) ∈ visited → (y, e) ∉ queue →
    ∀ z, edge adj y z → ∃ d, Dict.get z visited = Some d ∧ d ≤ S e
}.

(** The three ways an edge of a portable graph can be wrong, given the
    edges before it. *)
Inductive reason := DanglingEdgeReference | SelfLoop | DuplicateEdge.

Definition violates (node_ids : list string)
    (earlier : list (string * string)) (e : string * string) (r : reason) :
    Prop :=
  match r with
  | DanglingEdgeReference => e.1 ∉ node_ids ∨ e.2 ∉ node_ids
  | SelfLoop => e.1 = e.2
  | DuplicateEdge => e ∈ earlier
  end.

(** The message that names a reason for an edge. *)
Definition reports (r : reason) (e : string * string) (msg : string) : Prop :=
  match r with
  | DanglingEdgeReference =>
      msg = source_message e.1 ∨ msg = target_message e.2
  | SelfLoop => msg = self_loop_message e.1
  | DuplicateEdge => msg = duplicate_message e.1 e.2
  end.

(** No edge is dangling, none is a self-loop, none occurs twice. *)
Definition consistent (node_ids : list string)
    (es : list (string * string)) : Prop :=
  (∀ e, e ∈ es → e.1 ∈ node_ids ∧ e.2 ∈ node_ids) ∧
  (∀ e, e ∈ es → e.1 ≠ e.2) ∧
  NoDup es.

(** The contract of the degree-ranked queries: the records are the
    discovery sequence, one per node, in ascending degree; the degree of a
    node is the least length of a walk of at least one edge to it, which
    for every node but the start is its distance. *)
Definition degree_ranked {N} (nodes : Dict.t N) (R : relation string)
    (start : string) (discovery : Dict.t nat)
    (result : list (NodeWithDegree N)) : Prop :=
  result = (fun item => MkNodeWithDegree (Dict.get item.1 nodes)
                                         item.1 item.2) <$> discovery ∧
  NoDup (name <$> result) ∧
  Sorted le (degree <$> result) ∧
  (∀ x d, (∃ e, e ∈ result ∧ name e = x ∧ degree e = d)
          ↔ is_degree R start x d) ∧
  ∀ e k, e ∈ result → name e ≠ start →
         nsteps R k start (name e) → degree e ≤ k.

(** ** Vocabulary for the rest of the API *)

(** What each answer of [get_relationship] says about [a] and [b]. *)
Definition relationship_holds (edges : EdgeMap) (a b : string)
    (r : Relationship.t) : Prop :=
  match r with
  | Relationship.self => a = b
  | Relationship.parent => a ≠ b ∧ parent_step edges b a
  | Relationship.child =>
      a ≠ b ∧ ¬ parent_step edges b a ∧ parent_step edges a b
  | Relationship.ancestor =>
      a ≠ b ∧ ¬ parent_step edges b a ∧ ¬ parent_step edges a b ∧
      tc (parent_step edges) b a
  | Relationship.descendant =>
      a ≠ b ∧ ¬ parent_step edges b a ∧ ¬ parent_step edges a b ∧
      ¬ tc (parent_step edges) b a ∧ tc (parent_step edges) a b
  | Relationship.unconnected =>
      a ≠ b ∧ ¬ tc (parent_step edges) b a ∧
      ¬ tc (parent_step edges) a b
  end.

(** The same relationship seen from the other node. *)
Definition converse (r : Relationship.t) : Relationship.t :=
  match r with
  | Relationship.parent => Relationship.child
  | Relationship.child => Relationship.parent
  | Relationship.ancestor => Relationship.descendant
  | Relationship.descendant => Relationship.ancestor
  | other => other
  end.

(** [l] lists the nodes of a walk from [x] to [z], both included. *)
Inductive is_path (R : relation string) :
    string → string → list string → Prop :=
  | path_here x : is_path R x x [x]
  | path_step x y z l : R x y → is_path R y z l → is_path R x z (x :: l).

(** [back] lists the nodes met when walking from [node] back to [source],
    each one listing the one before among its neighbours. *)
Inductive climbs (R : relation string) (source : string) :
    string → list string → Prop :=
  | climbs_done : climbs R source source []
  | climbs_step node previous back :
      R previous node → climbs R source previous back →
      climbs R source node (previous :: back).

(** What holds of the state of [get_path] each time the [while queue]
    loop tests its queue, and between two children. *)
Record path_inv (adj : Dict.t (list string)) (source target : string)
    (st : path_state) : Prop := {
  pi_wf : Dict.wf (path_parent_map st);
  pi_visited : ∀ x, x ∈ path_visited st ↔
    x = source ∨ x ∈ Dict.keys (path_parent_map st);
  pi_source : source ∉ Dict.keys (path_parent_map st);
  pi_tree : ∀ pre c p post,
    path_parent_map st = pre ++ (c, p) :: post →
    edge adj p c ∧ (p = source ∨ p ∈ Dict.keys pre);
  pi_queue : ∀ x, x ∈ path_queue st → x ∈ path_visited st;
  pi_target : target ∉ path_visited st
}.

(** The breadth-first levels behind [get_path]: [lev] gives every
    visited node the number of edges of its way back to the source;
    [busy] holds the node whose children are being scanned, at level
    [d]. *)
Record level_inv (adj : Dict.t (list string)) (source : string)
    (lev : string → nat) (st : path_state) (busy : list string) (d : nat) :
    Prop := {
  lv_source : lev source = 0;
  lv_parent : ∀ c p, (c, p) ∈ path_parent_map st → lev c = S (lev p);
  lv_sorted : StronglySorted le (lev <$> path_queue st);
  lv_queue : Forall (fun x => d ≤ lev x ≤ S d) (path_queue st);
  lv_busy : Forall (fun x => lev x = d) busy;
  lv_visited : ∀ x, x ∈ path_visited st → lev x ≤ S d;
  lv_expanded : ∀ x, x ∈ path_visited st → x ∉ path_queue st → x ∉ busy →
    ∀ y, edge adj x y → y ∈ path_visited st ∧ lev y ≤ S (lev x)
}.

(** The edge map that lists the parents of every parsed node under the
    node's name, and the edges the export writes: one per node and listed
    parent, in order. *)
Definition edge_map_of (nodes : list parse_rde_model.NodeInfo) : EdgeMap :=
  (fun node => (parse_rde_model.name node, parse_rde_model.parents node))
    <$> nodes.
Definition listed_edges (nodes : list parse_rde_model.NodeInfo) :
    list (string * string) :=
  node ← nodes;
  (fun parent_name => (parent_name, parse_rde_model.name node))
    <$> parse_rde_model.parents node.

(** ** Dictionaries *)

Section dict_facts.
Context {V : Type}.
Implicit Types (d : Dict.t V) (k : string) (v : V).

Lemma get_set_eq d k v : Dict.get k (Dict.set k v d) = Some v.
Proof.
  induction d as [|[k' v'] d IH]; simpl; repeat case_decide; simpl;
    repeat case_decide; congruence.
Qed.

Lemma get_set_ne d k k' v :
  k ≠ k' → Dict.get k (Dict.set k' v d) = Dict.get k d.
Proof.
  intros Hne. induction d as [|[k0 v0] d IH]; simpl; repeat case_decide;
    simpl; repeat case_decide; congruence.
Qed.

Lemma get_None d k : Dict.get k d = None ↔ k ∉ Dict.keys d.
Proof.
  unfold Dict.keys. induction d as [|[k' v'] d IH]; simpl.
  - split; [intros _; apply not_elem_of_nil | done].
  - rewrite not_elem_of_cons, <-IH. case_decide; [|tauto].
    split; [done | intros [? _]; done].
Qed.

Lemma get_Some_elem d k v : Dict.get k d = Some v → (k, v) ∈ d.
Proof.
  induction d as [|[k' v'] d IH]; simpl; [done|].
  case_decide; intros; simplify_eq; [left | right; auto].
Qed.

Lemma elem_get_Some d k v : Dict.wf d → (k, v) ∈ d → Dict.get k d = Some v.
Proof.
  unfold Dict.wf, Dict.keys.
  induction d as [|[k' v'] d IH]; simpl; [by intros _ ?%elem_of_nil|].
  rewrite NoDup_cons. intros [Hk Hd] [?|Hin]%elem_of_cons; simplify_eq.
  - by rewrite decide_True.
  - rewrite decide_False; [auto|]. intros ->. apply Hk.
    apply list_elem_of_fmap. by exists (k', v).
Qed.

Lemma keys_set_None d k v :
  Dict.get k d = None → Dict.set k v d = d ++ [(k, v)].
Proof.
  induction d as [|[k' v'] d IH]; simpl; [done|].
  case_decide; [done|]. intros ?. f_equal. auto.
Qed.

Lemma keys_set_Some d k v :
  is_Some (Dict.get k d) → Dict.keys (Dict.set k v d) = Dict.keys d.
Proof.
  unfold Dict.keys. induction d as [|[k' v'] d IH]; simpl.
  - by intros [? ?].
  - case_decide; simplify_eq; [done|]. intros ?. simpl. f_equal. auto.
Qed.
End dict_facts.

(** ** The children index *)

Lemma add_child_get c d q p :
  Dict.get_or p [] (add_child c d q)
  = Dict.get_or p [] d ++ (if decide (p = q) then [c] else []).
Proof.
  unfold add_child, Dict.get_or.
  destruct (Dict.get q d) as [cs|] eqn:Hq; case_decide; simplify_eq;
    rewrite ?get_set_eq, ?get_set_ne, ?Hq, ?app_nil_r by done; done.
Qed.

Lemma add_children_get c ps : ∀ d p,
  Dict.get_or p [] (foldl (add_child c) d ps)
  = Dict.get_or p [] d ++ ((fun _ => c) <$> filter (p =.) ps).
Proof.
  induction ps as [|q ps IH]; intros d p; simpl.
  - by rewrite app_nil_r.
  - rewrite IH, add_child_get, filter_cons.
    case_decide; simplify_eq; simpl.
    + by rewrite <-app_assoc.
    + by rewrite app_nil_r.
Qed.

Lemma build_fold_get (edges : EdgeMap) : ∀ d p,
  Dict.get_or p []
    (foldl (fun children '(child_name, parent_names) =>
              foldl (add_child child_name) children parent_names) d edges)
  = Dict.get_or p [] d ++ children_of edges p.
Proof.
  unfold children_of.
  induction edges as [|[c ps] edges IH]; intros d p; simpl.
  - by rewrite app_nil_r.
  - rewrite IH, add_children_get. by rewrite <-app_assoc.
Qed.

Lemma build_children_get (edges : EdgeMap) p :
  get_children edges p = children_of edges p.
Proof.
  unfold get_children, _build_children_map. rewrite build_fold_get.
  assert (Hinit : Dict.get_or p []
            ((fun name : string => (name, @nil string)) <$> Dict.keys edges)
          = []); [|by rewrite Hinit].
  unfold Dict.get_or. generalize (Dict.keys edges). intros ks.
  induction ks as [|k ks IH]; simpl; [done|]. by case_decide.
Qed.

Lemma elem_of_children_of (edges : EdgeMap) p c :
  c ∈ children_of edges p ↔ ∃ ps, (c, ps) ∈ edges ∧ p ∈ ps.
Proof.
  unfold children_of. rewrite list_elem_of_bind. split.
  - intros [[c' ps] [Hc Hin]]. simpl in Hc.
    apply list_elem_of_fmap in Hc as [q [-> Hq]].
    apply list_elem_of_filter in Hq as [<- Hq]. eauto.
  - intros [ps [Hin Hp]]. exists (c, ps). split; [|done]. simpl.
    apply list_elem_of_fmap. exists p. split; [done|].
    by apply list_elem_of_filter.
Qed.

Lemma child_parent_step (edges : EdgeMap) p c :
  Dict.wf edges → child_step edges p c ↔ parent_step edges c p.
Proof.
  intros Hwf. unfold child_step, parent_step.
  rewrite build_children_get, elem_of_children_of.
  unfold get_parents, Dict.get_or. split.
  - intros [ps [Hin Hp]]. by rewrite (elem_get_Some _ _ _ Hwf Hin).
  - destruct (Dict.get c edges) as [ps|] eqn:Hc; simpl.
    + intros Hp. exists ps. split; [by apply get_Some_elem|done].
    + by intros ?%elem_of_nil.
Qed.

(** ** First-visit order *)

Section first_visit_facts.
Context (nbrs : string → list string).
Local Abbreviation R := (listed nbrs).

Lemma fv_fresh seen work order :
  first_visit nbrs seen work order → ∀ x, x ∈ order → x ∉ seen.
Proof.
  induction 1 as [|seen x work rest Hx _ IH
                  |seen x work below rest Hx _ IHb _ IHr]; intros y.
  - by intros ?%elem_of_nil.
  - apply IH.
  - rewrite elem_of_cons, elem_of_app. intros [->|[Hy|Hy]]; [done| |].
    + apply IHb in Hy. set_solver.
    + apply IHr in Hy. set_solver.
Qed.

Lemma fv_NoDup seen work order :
  first_visit nbrs seen work order → NoDup order.
Proof.
  induction 1 as [|seen x work rest Hx _ IH
                  |seen x work below rest Hx Hb IHb Hr IHr].
  - constructor.
  - done.
  - constructor.
    + rewrite elem_of_app. intros [Hy|Hy].
      * apply (fv_fresh _ _ _ Hb) in Hy. set_solver.
      * apply (fv_fresh _ _ _ Hr) in Hy. set_solver.
    + apply NoDup_app. split_and!; [done| |done].
      intros y Hy Hy'. apply (fv_fresh _ _ _ Hr) in Hy'.
      apply Hy'. set_solver.
Qed.

Lemma fv_sound seen work order :
  first_visit nbrs seen work order →
  ∀ x, x ∈ order → ∃ w, w ∈ work ∧ rtc R w x.
Proof.
  induction 1 as [|seen x work rest Hx _ IH
                  |seen x work below rest Hx _ IHb _ IHr]; intros y.
  - by intros ?%elem_of_nil.
  - intros [w [Hw Hr]]%IH. exists w. split; [by right|done].
  - rewrite elem_of_cons, elem_of_app. intros [->|[Hy|Hy]].
    + exists x. split; [left|done].
    + apply IHb in Hy as [w [Hw Hr]]. exists x. split; [left|].
      by apply rtc_l with w.
    + apply IHr in Hy as [w [Hw Hr]]. exists w. split; [by right|done].
Qed.

Lemma fv_closed seen work order :
  first_visit nbrs seen work order →
  (∀ w, w ∈ work → w ∈ list_to_set order ∪ seen) ∧
  (∀ x y, x ∈ order → R x y → y ∈ list_to_set order ∪ seen).
Proof.
  induction 1 as [|seen x work rest Hx _ [IHw IHc]
                  |seen x work below rest Hx _ [IHbw IHbc] _ [IHrw IHrc]].
  - split; intros ?; [by intros ?%elem_of_nil|].
    by intros ? ?%elem_of_nil.
  - split; [|done]. intros w [->|Hw]%elem_of_cons; [|by auto].
    apply elem_of_union. by right.
  - set_unfold. split.
    + intros w [->|Hw]; [by auto|].
      destruct (IHrw _ Hw) as [?|[?|[?|?]]]; auto.
    + intros y z [->|[Hy|Hy]] Hyz.
      * destruct (IHbw _ Hyz) as [?|[?|?]]; auto.
      * destruct (IHbc _ _ Hy Hyz) as [?|[?|?]]; auto.
      * destruct (IHrc _ _ Hy Hyz) as [?|[?|[?|?]]]; auto.
Qed.

Lemma fv_functional seen work order :
  first_visit nbrs seen work order →
  ∀ order', first_visit nbrs seen work order' → order' = order.
Proof.
  induction 1 as [|seen x work rest Hx _ IH
                  |seen x work below rest Hx _ IHb _ IHr];
    intros order' Hfv; inversion Hfv; simplify_eq; try done.
  - by apply IH.
  - match goal with
    | Hb : first_visit _ ({[x]} ∪ seen) _ ?b |- _ =>
        apply IHb in Hb; subst b
    end.
    f_equal. f_equal. by apply IHr.
Qed.

(** From an empty [seen] set the order lists exactly what the work list
    reaches. *)
Lemma fv_reach work order :
  first_visit nbrs ∅ work order →
  ∀ x, x ∈ order ↔ ∃ w, w ∈ work ∧ rtc R w x.
Proof.
  intros Hfv x. split; [by apply fv_sound with ∅|].
  intros [w [Hw Hr]]. destruct (fv_closed _ _ _ Hfv) as [Hwork Hcl].
  assert (Hin : w ∈ order) by (apply Hwork in Hw; set_solver).
  clear Hw. induction Hr as [|w y z Hwy _ IH]; [done|].
  apply IH. specialize (Hcl _ _ Hin Hwy). set_solver.
Qed.
End first_visit_facts.

(** ** Depth-first traversal *)

Section depth_first.
Context (adj : Dict.t (list string)).
Local Abbreviation nbrs := (fun x => Dict.get_or x [] adj).

Lemma nbrs_universe x y : edge adj x y → y ∈ universe adj.
Proof.
  unfold edge, Dict.get_or, universe. rewrite elem_of_list_to_set.
  destruct (Dict.get x adj) as [l|] eqn:Hx; simpl;
    [|by intros ?%elem_of_nil].
  intros Hy. apply list_elem_of_join. exists l. split; [done|].
  apply list_elem_of_fmap. exists (x, l). split; [done|].
  by apply get_Some_elem.
Qed.

Lemma size_universe : size (universe adj) ≤ length (mjoin adj.*2).
Proof.
  unfold universe. generalize (mjoin adj.*2). intros l.
  induction l as [|x l IH].
  - by rewrite list_to_set_nil, size_empty.
  - rewrite list_to_set_cons, size_union_alt, size_singleton. simpl.
    assert (list_to_set l ∖ {[x]} ⊆@{gset string} list_to_set l)
      as Hle%subseteq_size by set_solver.
    lia.
Qed.

Lemma traverse_first_visit depth : ∀ current st st',
  traverse depth adj current st = Some st' →
  ∃ below,
    first_visit nbrs (dfs_visited st) (nbrs current) below ∧
    st' = DfsState (list_to_set below ∪ dfs_visited st)
                   (dfs_found st ++ below).
Proof.
  induction depth as [|depth IHd]; intros current st st'; [done|].
  simpl. generalize (Dict.get_or current [] adj). intros work.
  revert st. induction work as [|x work IHw]; intros st; simpl.
  - intros [= <-]. exists []. split; [constructor|].
    destruct st as [seen found]; simpl. rewrite app_nil_r. f_equal.
    set_solver.
  - case_decide as Hx.
    + intros [order [Hfv ->]]%IHw. exists order.
      split; [by constructor|done].
    + destruct (traverse depth adj x _) as [st1|] eqn:Hst1; [|done].
      apply IHd in Hst1 as [below [Hb ->]]. simpl in *.
      intros [rest [Hr ->]]%IHw. simpl in *.
      exists (x :: below ++ rest). split; [by constructor|].
      f_equal; [set_solver|].
      by rewrite <-!app_assoc.
Qed.

Lemma traverse_total depth : ∀ current st,
  size (universe adj ∖ dfs_visited st) < depth →
  is_Some (traverse depth adj current st).
Proof.
  induction depth as [|depth IHd]; intros current st Hsz; [lia|].
  simpl.
  assert (Hwork : ∀ y, y ∈ Dict.get_or current [] adj → y ∈ universe adj)
    by (intros y; apply nbrs_universe).
  revert Hwork. generalize (Dict.get_or current [] adj). intros work.
  revert st Hsz. induction work as [|x work IHw]; intros st Hsz Hwork;
    simpl; [done|].
  case_decide as Hx.
  - apply IHw; [done|]. intros y Hy. apply Hwork. by right.
  - destruct (IHd x (DfsState ({[x]} ∪ dfs_visited st)
                              (dfs_found st ++ [x]))) as [st1 Hst1].
    { simpl.
      assert (universe adj ∖ ({[x]} ∪ dfs_visited st)
                ⊂ universe adj ∖ dfs_visited st) as Hsub%subset_size; [|lia].
      assert (x ∈ universe adj) by (apply Hwork; left). set_solver. }
    rewrite Hst1. apply IHw; [|intros y Hy; apply Hwork; by right].
    apply traverse_first_visit in Hst1 as [below [_ ->]]. simpl.
    assert (universe adj ∖ (list_to_set below ∪ ({[x]} ∪ dfs_visited st))
              ⊆ universe adj ∖ dfs_visited st) as Hsub%subseteq_size; [|lia].
    set_solver.
Qed.

Lemma dfs_first_visit node_name :
  ∃ order, dfs adj node_name = Some order ∧
           first_visit nbrs ∅ (nbrs node_name) order.
Proof.
  unfold dfs.
  destruct (traverse_total (depth_bound adj) node_name (DfsState ∅ []))
    as [st Hst].
  { simpl. unfold depth_bound. pose proof size_universe.
    assert (universe adj ∖ ∅ ⊆ universe adj) as ?%subseteq_size by set_solver.
    lia. }
  rewrite Hst. apply traverse_first_visit in Hst as [order [Hfv ->]].
  simpl in *. by exists order.
Qed.

Lemma dfs_reach node_name order :
  dfs adj node_name = Some order →
  NoDup order ∧ ∀ x, x ∈ order ↔ tc (edge adj) node_name x.
Proof.
  destruct (dfs_first_visit node_name) as [order' [-> Hfv]].
  intros [= <-]. split; [by eapply fv_NoDup|].
  intros x. rewrite (fv_reach _ _ _ Hfv). split.
  - intros [w [Hw Hr]]. by apply tc_rtc_r with w; [apply tc_once|].
  - intros Htc. destruct Htc as [x y Hxy|x y z Hxy Hyz].
    + exists y. split; [done|constructor].
    + exists y. split; [done|by apply tc_rtc].
Qed.
End depth_first.

(** ** Reachability search of [would_create_cycle] *)

Section reachability.
Context (adj : Dict.t (list string)) (goal : string).

(** A search that answers [False] leaves a set of visited nodes that is
    closed under the edges and does not hold the goal. *)
Lemma can_reach_false depth : ∀ current visited visited',
  can_reach depth adj goal current visited = Some (false, visited') →
  visited ⊆ visited' ∧ current ∈ visited' ∧
  ∀ x, x ∈ visited' → x ∉ visited →
       x ≠ goal ∧ ∀ y, edge adj x y → y ∈ visited'.
Proof.
  induction depth as [|depth IHd]; intros current visited visited'; [done|].
  simpl. case_decide as Hgoal; [done|]. case_decide as Hseen.
  { intros [= <-]. split_and!; [done|done|]. by intros x ? ?. }
  intros Hloop.
  assert (Hinner : {[current]} ∪ visited ⊆ visited' ∧
            (∀ y, edge adj current y → y ∈ visited') ∧
            ∀ x, x ∈ visited' → x ∉ {[current]} ∪ visited →
                 x ≠ goal ∧ ∀ y, edge adj x y → y ∈ visited').
  { revert Hloop. unfold edge. generalize (Dict.get_or current [] adj).
    generalize ({[current]} ∪ visited). clear Hseen.
    intros seen work. revert seen.
    induction work as [|c work IHw]; intros seen; simpl.
    - intros [= <-]. split_and!; [done| |by intros x ? ?].
      by intros y ?%elem_of_nil.
    - destruct (can_reach depth adj goal c seen) as [[[] seen1]|] eqn:Hc;
        [done| |done].
      apply IHd in Hc as (Hsub1 & Hc1 & Hcl1).
      intros (Hsub2 & Hwork & Hcl2)%IHw. split_and!.
      + set_solver.
      + intros y [->|Hy]%elem_of_cons; [set_solver|auto].
      + intros x Hx Hnx. destruct (decide (x ∈ seen1)) as [Hx1|Hx1].
        * destruct (Hcl1 x Hx1 Hnx) as [? Hedge]. split; [done|].
          intros y Hy. apply Hsub2. by apply Hedge.
        * by apply Hcl2. }
  destruct Hinner as (Hsub & Hwork & Hcl). split_and!; [set_solver..|].
  intros x Hx Hnx. destruct (decide (x = current)) as [->|Hne]; [done|].
  apply Hcl; [done|]. set_solver.
Qed.

Lemma can_reach_true depth : ∀ current visited visited',
  can_reach depth adj goal current visited = Some (true, visited') →
  rtc (edge adj) current goal.
Proof.
  induction depth as [|depth IHd]; intros current visited visited'; [done|].
  simpl. case_decide as Hgoal; [by intros _; subst|].
  case_decide as Hseen; [done|].
  assert (∀ y, y ∈ Dict.get_or current [] adj → edge adj current y)
    as Hwork by done.
  revert Hwork. generalize (Dict.get_or current [] adj).
  generalize ({[current]} ∪ visited). intros seen work. revert seen.
  induction work as [|c work IHw]; intros seen Hwork; simpl; [done|].
  destruct (can_reach depth adj goal c seen) as [[[] seen1]|] eqn:Hc;
    [|by apply IHw; intros; apply Hwork; right|done].
  intros _. apply rtc_l with c; [apply Hwork; left|by eapply IHd].
Qed.

Lemma can_reach_total depth : ∀ current visited,
  size (universe adj ∖ visited)
    + (if decide (current ∈ universe adj) then 0 else 1) < depth →
  is_Some (can_reach depth adj goal current visited).
Proof.
  induction depth as [|depth IHd]; intros current visited Hsz; [lia|].
  simpl. destruct (decide (current = goal)) as [?|Hgoal]; [by eexists|].
  destruct (decide (current ∈ visited)) as [?|Hseen]; [by eexists|].
  assert (Hsz' : size (universe adj ∖ ({[current]} ∪ visited)) < depth).
  { case_decide as Hu.
    - assert (universe adj ∖ ({[current]} ∪ visited)
                ⊂ universe adj ∖ visited) as ?%subset_size by set_solver.
      lia.
    - assert (universe adj ∖ ({[current]} ∪ visited)
                ⊆ universe adj ∖ visited) as ?%subseteq_size
        by set_solver.
      lia. }
  assert (∀ y, y ∈ Dict.get_or current [] adj → y ∈ universe adj)
    as Hwork by (intros y; apply nbrs_universe).
  revert Hsz' Hwork. generalize (Dict.get_or current [] adj).
  generalize ({[current]} ∪ visited). clear Hsz Hseen.
  intros seen work. revert seen.
  induction work as [|c work IHw]; intros seen Hsz Hwork; simpl;
    [by eexists|].
  destruct (IHd c seen) as [[[] seen1] Hc].
  { rewrite decide_True by (apply Hwork; left). lia. }
  - rewrite Hc. by eexists.
  - rewrite Hc. apply IHw; [|intros; apply Hwork; by right].
    apply can_reach_false in Hc as (Hsub & _).
    assert (universe adj ∖ seen1 ⊆ universe adj ∖ seen) as ?%subseteq_size
      by set_solver.
    lia.
Qed.

Lemma can_reach_spec current :
  ∃ found visited,
    can_reach (S (depth_bound adj)) adj goal current ∅
      = Some (found, visited) ∧
    (found = true ↔ rtc (edge adj) current goal).
Proof.
  destruct (can_reach_total (S (depth_bound adj)) current ∅)
    as [[found visited] Hrun].
  { pose proof (size_universe adj). unfold depth_bound.
    assert (universe adj ∖ ∅ ⊆ universe adj) as ?%subseteq_size
      by set_solver.
    case_decide; lia. }
  exists found, visited. split; [done|]. destruct found.
  - split; [intros _|done]. by eapply can_reach_true.
  - split; [done|]. intros Hreach.
    apply can_reach_false in Hrun as (_ & Hcur & Hcl).
    assert (goal ∈ visited) as Hgoal.
    { induction Hreach as [|x y z Hxy _ IH]; [done|].
      apply IH; [|done]. apply (Hcl x); [done|set_solver|done]. }
    destruct (Hcl goal Hgoal); [set_solver|done].
Qed.
End reachability.

(** ** Counting occurrences *)

Lemma count_nil x : count x [] = 0.
Proof. done. Qed.

Lemma count_cons x y l :
  count x (y :: l) = (if decide (x = y) then 1 else 0) + count x l.
Proof. unfold count. rewrite filter_cons. by case_decide. Qed.

Lemma count_app x l k : count x (l ++ k) = count x l + count x k.
Proof. unfold count. by rewrite filter_app, length_app. Qed.

Lemma count_pos x l : 0 < count x l ↔ x ∈ l.
Proof.
  induction l as [|y l IH].
  - rewrite count_nil. split; [lia|by intros ?%elem_of_nil].
  - rewrite count_cons, elem_of_cons. case_decide; [|rewrite <-IH]; split;
      intros; try lia; auto.
    destruct_or!; [done|lia].
Qed.

Lemma count_fmap_const x c (l : list string) :
  count x ((fun _ => c) <$> l) = if decide (x = c) then length l else 0.
Proof.
  induction l as [|y l IH]; [by case_decide|].
  rewrite fmap_cons, count_cons, IH. simpl. by case_decide.
Qed.

Lemma children_of_cons k ps (es : EdgeMap) p :
  children_of ((k, ps) :: es) p
  = ((fun _ => k) <$> filter (p =.) ps) ++ children_of es p.
Proof. done. Qed.

Lemma count_children (edges : EdgeMap) c p :
  Dict.wf edges →
  count c (children_of edges p) = count p (get_parents edges c).
Proof.
  unfold get_parents, Dict.get_or, Dict.wf, Dict.keys.
  induction edges as [|[k ps] es IH]; [done|].
  rewrite children_of_cons, count_app, count_fmap_const.
  rewrite fmap_cons, NoDup_cons. cbn [Dict.get fst]. intros [Hk Hes].
  case_decide as Hck; [|by apply IH].
  subst k. cbn [default]. fold (count p ps). unfold id.
  destruct (count c (children_of es p)) eqn:Hcnt; [lia|].
  assert (0 < count c (children_of es p)) as Hpos%count_pos by lia.
  apply elem_of_children_of in Hpos as [qs [Hin _]].
  destruct Hk. apply list_elem_of_fmap. by exists (c, qs).
Qed.

(** ** Kahn's algorithm *)

Section kahn.
Context (edges : EdgeMap) (Hwf : Dict.wf edges).

Lemma children_are_keys p c :
  c ∈ children_of edges p → c ∈ Dict.keys edges.
Proof.
  intros [ps [Hin _]]%elem_of_children_of.
  apply list_elem_of_fmap. by exists (c, ps).
Qed.

Lemma parent_has_key c p : parent_step edges c p → c ∈ Dict.keys edges.
Proof.
  unfold parent_step, get_parents, Dict.get_or. intros Hp.
  destruct (Dict.get c edges) eqn:Hc; [|by apply elem_of_nil in Hp].
  apply dec_stable. by rewrite <-get_None, Hc.
Qed.

Lemma pending_snoc done node c :
  node ∉ done →
  length (pending edges (done ++ [node]) c)
    + count node (get_parents edges c)
  = length (pending edges done c).
Proof.
  intros Hnode. unfold pending.
  induction (get_parents edges c) as [|p ps IH]; [done|].
  rewrite count_cons, !filter_cons.
  destruct (decide (node = p)) as [<-|Hne].
  - rewrite decide_False by set_solver. rewrite decide_True by done.
    simpl. lia.
  - destruct (decide (p ∈ done)) as [Hp|Hp].
    + rewrite !decide_False by set_solver. lia.
    + rewrite !decide_True by set_solver. simpl. lia.
Qed.

Lemma pending_nil done c :
  pending edges done c = [] ↔ ∀ p, parent_step edges c p → p ∈ done.
Proof.
  unfold pending, parent_step.
  induction (get_parents edges c) as [|q ps IH].
  - split; [by intros _ p ?%elem_of_nil|done].
  - rewrite filter_cons. destruct (decide (q ∉ done)) as [Hq|Hq%dec_stable].
    + split; [done|]. intros Hall. destruct Hq. apply Hall. left.
    + rewrite IH. split.
      * intros Hall p [->|Hp]%elem_of_cons; auto.
      * intros Hall p Hp. apply Hall. by right.
Qed.

(** *** The [for child in children_map.get(node, [])] loop *)

Lemma kahn_inner (old : string → nat) : ∀ suf pre deg q,
  (∀ c, c ∈ Dict.keys edges →
        Dict.get c deg = Some (Z.of_nat (old c) - Z.of_nat (count c pre))%Z) →
  (∀ c, c ∈ suf → c ∈ Dict.keys edges) →
  (∀ c, count c (pre ++ suf) ≤ old c) →
  ∃ deg' new,
    try_each kahn_visit suf (deg, q) = Return (deg', q ++ new) ∧
    (∀ c, c ∈ Dict.keys edges →
          Dict.get c deg'
          = Some (Z.of_nat (old c) - Z.of_nat (count c (pre ++ suf)))%Z) ∧
    NoDup new ∧
    (∀ c, c ∈ new ↔ c ∈ suf ∧ old c = count c (pre ++ suf)).
Proof.
  induction suf as [|x suf IH]; intros pre deg q Hdeg Hkeys Hle; simpl.
  - exists deg, []. rewrite !app_nil_r. split_and!; [done|done|constructor|].
    intros c. split; [by intros ?%elem_of_nil|by intros [?%elem_of_nil _]].
  - unfold kahn_visit at 1. simpl.
    rewrite (Hdeg x) by (apply Hkeys; left).
    assert (Hdeg1 : ∀ c, c ∈ Dict.keys edges →
              Dict.get c (Dict.set x
                (Z.of_nat (old x) - Z.of_nat (count x pre) - 1)%Z deg)
              = Some (Z.of_nat (old c) - Z.of_nat (count c (pre ++ [x])))%Z).
    { intros c Hc. rewrite count_app, count_cons, count_nil.
      destruct (decide (c = x)) as [->|Hne].
      - rewrite get_set_eq. f_equal. lia.
      - rewrite get_set_ne, Hdeg by done. f_equal. lia. }
    assert (Hkeys1 : ∀ c, c ∈ suf → c ∈ Dict.keys edges)
      by (intros c ?; apply Hkeys; by right).
    assert (Hle1 : ∀ c, count c ((pre ++ [x]) ++ suf) ≤ old c)
      by (intros c; rewrite <-app_assoc; apply Hle).
    assert (Hcx : count x (pre ++ x :: suf) = count x pre + 1 + count x suf).
    { rewrite count_app, count_cons. rewrite decide_True by done. lia. }
    pose proof (Hle x) as Hlex.
    case_decide as Hzero.
    + destruct (IH (pre ++ [x]) _ (q ++ [x]) Hdeg1 Hkeys1 Hle1)
        as (deg' & new & -> & Hdeg' & Hnd & Hnew).
      exists deg', (x :: new). rewrite <-!app_assoc in *. simpl in *.
      split_and!; [done|done| |].
      * constructor; [|done]. rewrite Hnew.
        intros [Hx%count_pos Heq]. lia.
      * intros c. rewrite !elem_of_cons, Hnew. split.
        -- intros [->|[Hc Heq]]; [|by auto]. split; [by left|lia].
        -- intros [[->|Hc] Heq]; [by left|right; done].
    + destruct (IH (pre ++ [x]) _ q Hdeg1 Hkeys1 Hle1)
        as (deg' & new & -> & Hdeg' & Hnd & Hnew).
      exists deg', new. rewrite <-!app_assoc in *. simpl in *.
      split_and!; [done|done|done|].
      intros c. rewrite elem_of_cons, Hnew. split.
      * intros [Hc Heq]. auto.
      * intros [[->|Hc] Heq]; [|done]. split; [|done].
        apply count_pos. lia.
Qed.

(** *** The [while queue] loop *)

Lemma kahn_step in_degree node queue result :
  kahn_inv edges in_degree (node :: queue) result →
  ∃ st, try_each kahn_visit (get_children edges node) (in_degree, queue)
          = Return st ∧
        kahn_inv edges st.1 st.2 (result ++ [node]).
Proof.
  intros [Hdeg Hnd Hready Hord].
  assert (Hnode : node ∉ result).
  { apply NoDup_app in Hnd as (_ & Hdisj & _). intros Hin.
    apply (Hdisj _ Hin). left. }
  assert (Hcnt : ∀ c, count c (children_of edges node)
                      + length (pending edges (result ++ [node]) c)
                      = length (pending edges result c)).
  { intros c. rewrite count_children by done.
    pose proof (pending_snoc result node c Hnode). lia. }
  rewrite build_children_get.
  destruct (kahn_inner (fun c => length (pending edges result c))
              (children_of edges node) [] in_degree queue)
    as (deg' & new & Hrun & Hdeg' & Hnew_nd & Hnew).
  { intros c Hc. rewrite Hdeg, count_nil by done. f_equal. lia. }
  { intros c. apply children_are_keys. }
  { intros c. simpl. specialize (Hcnt c). lia. }
  simpl in *. exists (deg', queue ++ new). split; [done|]. simpl.
  assert (Hfresh : ∀ c, c ∈ new → c ∉ result ++ node :: queue).
  { intros c [Hc Heq]%Hnew. rewrite Hready. intros [_ Hnil].
    apply count_pos in Hc. rewrite Hnil in Heq. simpl in Heq. lia. }
  split.
  - intros c Hc. rewrite Hdeg' by done. f_equal. specialize (Hcnt c). lia.
  - rewrite <-app_assoc. simpl.
    apply NoDup_app in Hnd as (Hres & Hdisj & Hq).
    apply NoDup_cons in Hq as [Hnq Hq].
    apply NoDup_app. split_and!; [done| |].
    + intros c Hc [->|[Hcq|Hcn]%elem_of_app]%elem_of_cons; [done| |].
      * apply (Hdisj c Hc). by right.
      * apply (Hfresh c Hcn). apply elem_of_app. by left.
    + constructor.
      * intros [?|Hn]%elem_of_app; [done|].
        apply (Hfresh node Hn). apply elem_of_app. right. left.
      * apply NoDup_app. split_and!; [done| |done].
        intros c Hc Hcn. apply (Hfresh c Hcn).
        apply elem_of_app. right. by right.
  - intros c. specialize (Hcnt c). split.
    + intros Hin.
      assert (c ∈ result ++ node :: queue ∨ c ∈ new) as [Hold|Hc]
        by (set_unfold; tauto).
      * apply Hready in Hold as [Hk Hnil].
        split; [done|]. rewrite Hnil in Hcnt. simpl in Hcnt.
        apply length_zero_iff_nil. lia.
      * apply Hnew in Hc as [Hc Heq]. split; [by eapply children_are_keys|].
        apply length_zero_iff_nil. lia.
    + intros [Hk Hnil]. rewrite Hnil in Hcnt. simpl in Hcnt.
      destruct (pending edges result c) as [|p ps] eqn:Hpend.
      * assert (c ∈ result ++ node :: queue) by (by apply Hready).
        set_unfold; tauto.
      * assert (c ∈ new); [|set_unfold; tauto].
        apply Hnew. rewrite Hpend. simpl in *.
        split; [apply count_pos|]; lia.
  - intros i x p Hi Hp. apply lookup_app_Some in Hi as [Hi|[Hlen Hi]].
    + destruct (Hord i x p Hi Hp) as (j & Hj & Hpj).
      exists j. split; [done|]. by apply lookup_app_l_Some.
    + apply list_lookup_singleton_Some in Hi as [Hi <-].
      assert (node ∈ result ++ node :: queue) as [_ Hnil]%Hready
        by (set_unfold; tauto).
      rewrite pending_nil in Hnil.
      apply Hnil, list_elem_of_lookup in Hp as [j Hj].
      exists j. split; [|by apply lookup_app_l_Some].
      apply lookup_lt_Some in Hj. lia.
Qed.

Lemma kahn_loop_inv fuel : ∀ in_degree queue result,
  kahn_inv edges in_degree queue result →
  length edges ≤ fuel + length result →
  ∃ order in_degree',
    kahn_loop fuel (_build_children_map edges) in_degree queue result
      = Some (Return order) ∧
    kahn_inv edges in_degree' [] order.
Proof.
  induction fuel as [|fuel IH]; intros in_degree queue result Hinv Hlen;
    (destruct queue as [|node queue];
     [exists result, in_degree; by split|]).
  - exfalso. pose proof (inv_nodup _ _ _ _ Hinv) as Hnd.
    assert (result ++ node :: queue ⊆+ Dict.keys edges) as Hsub.
    { apply NoDup_submseteq; [done|]. intros c Hc.
      by apply (inv_ready _ _ _ _ Hinv) in Hc as [? _]. }
    apply submseteq_length in Hsub.
    unfold Dict.keys in Hsub.
    rewrite length_app, length_fmap in Hsub. simpl in *. lia.
  - simpl. fold (get_children edges node).
    destruct (kahn_step _ _ _ _ Hinv) as ([deg' q'] & -> & Hinv').
    simpl in *. apply (IH _ _ _ Hinv'). rewrite length_app. simpl. lia.
Qed.

Lemma kahn_init :
  kahn_inv edges ((fun item => (item.1, Z.of_nat (length item.2))) <$> edges)
    (filter (fun item => item.2 = 0%Z)
       ((fun item : string * list string =>
           (item.1, Z.of_nat (length item.2))) <$> edges)).*1 [].
Proof.
  assert (Hpend : ∀ c, pending edges [] c = get_parents edges c).
  { intros c. unfold pending.
    induction (get_parents edges c) as [|p ps IHp]; [done|].
    rewrite filter_cons, decide_True, IHp; [done|apply not_elem_of_nil]. }
  assert (Hq : ∀ c, c ∈ (filter (fun item => item.2 = 0%Z)
                 ((fun item : string * list string =>
                     (item.1, Z.of_nat (length item.2))) <$> edges)).*1
               ↔ c ∈ Dict.keys edges ∧ get_parents edges c = []).
  { intros c. rewrite list_elem_of_fmap. split.
    - intros [[c' d] [-> [Hd Hin]%list_elem_of_filter]]. simpl in *.
      apply list_elem_of_fmap in Hin as [[c ps] [[= -> ->] Hin]].
      simpl in *. split; [apply list_elem_of_fmap; by exists (c, ps)|].
      unfold get_parents, Dict.get_or.
      rewrite (elem_get_Some _ _ _ Hwf Hin). simpl.
      apply length_zero_iff_nil. lia.
    - intros [Hk Hnil]. unfold get_parents, Dict.get_or in Hnil.
      destruct (Dict.get c edges) as [ps|] eqn:Hc;
        [|by apply get_None in Hc].
      simpl in Hnil. subst ps. exists (c, 0%Z). split; [done|].
      apply list_elem_of_filter. split; [done|].
      apply list_elem_of_fmap. exists (c, []). split; [done|].
      by apply get_Some_elem. }
  split.
  - intros c Hc. rewrite Hpend. unfold get_parents, Dict.get_or.
    clear Hq Hpend. revert Hc. unfold Dict.keys. clear Hwf.
    induction edges as [|[k ps] es IH]; [by intros ?%elem_of_nil|].
    rewrite !fmap_cons. simpl. intros [->|Hc]%elem_of_cons.
    + by rewrite !decide_True.
    + case_decide; [done|auto].
  - simpl. apply NoDup_fmap_fst.
    + intros k d1 d2 [_ Hin1]%list_elem_of_filter
                     [_ Hin2]%list_elem_of_filter.
      apply list_elem_of_fmap in Hin1 as [[k1 ps1] [[= -> ->] Hin1]].
      apply list_elem_of_fmap in Hin2 as [[k2 ps2] [[= -> ->] Hin2]].
      simpl in *. apply (elem_get_Some _ _ _ Hwf) in Hin1, Hin2.
      congruence.
    + apply NoDup_filter, NoDup_fmap_2_strong.
      * intros [k1 ps1] [k2 ps2] Hin1 Hin2 [= -> Hlen]. simpl in *.
        apply (elem_get_Some _ _ _ Hwf) in Hin1, Hin2. congruence.
      * by apply NoDup_fmap_1 in Hwf.
  - intros c. simpl. by rewrite Hq, Hpend.
  - by intros i x p ?.
Qed.
End kahn.

(** ** Orders and cycles *)

(** In a finite set of nodes without cycles, following parents from any
    member ends in a member none of whose parents is in the set. *)
Lemma acyclic_sink (edges : EdgeMap) (Hacyc : acyclic edges) :
  ∀ (n : nat) (nodes : gset string) (x : string),
    size nodes ≤ n → x ∈ nodes →
    ∃ s, s ∈ nodes ∧ rtc (parent_step edges) x s ∧
         ∀ p, parent_step edges s p → p ∉ nodes.
Proof.
  induction n as [|n IH]; intros nodes x Hsz Hx.
  { assert (size nodes ≠ 0); [|lia]. apply size_non_empty_iff. set_solver. }
  destruct (filter (.∈ nodes) (get_parents edges x)) as [|p ps] eqn:Hps.
  - exists x. split_and!; [done|done|]. intros p Hp Hin.
    assert (p ∈ filter (.∈ nodes) (get_parents edges x)) as Hf
      by (by apply list_elem_of_filter).
    rewrite Hps in Hf. by apply elem_of_nil in Hf.
  - assert (p ∈ filter (.∈ nodes) (get_parents edges x)) as
      [Hpn Hxp]%list_elem_of_filter by (rewrite Hps; left).
    assert (Hne : p ≠ x).
    { intros ->. apply (Hacyc x). by apply tc_once. }
    destruct (IH (nodes ∖ {[x]}) p) as (s & Hs & Hreach & Hsink).
    { assert (size nodes = size ({[x]} : gset string) + size (nodes ∖ {[x]}))
        as Heq.
      { rewrite <-size_union by set_solver. f_equal.
        apply set_eq. intros y. destruct (decide (y = x)); set_solver. }
      rewrite size_singleton in Heq. lia. }
    { set_solver. }
    exists s. split_and!; [set_solver|by apply rtc_l with p|].
    intros q Hq Hqn. destruct (decide (q = x)) as [->|Hqx].
    + apply (Hacyc x). apply tc_rtc_r with s; [|by apply rtc_once].
      by apply tc_rtc_r with p; [apply tc_once|].
    + apply (Hsink q Hq). set_solver.
Qed.

(** A total order that lists parents first leaves no room for a cycle. *)
Lemma parents_first_acyclic (edges : EdgeMap) (order : list string) :
  NoDup order → (∀ x, x ∈ order ↔ x ∈ Dict.keys edges) →
  parents_first edges order → closed edges ∧ acyclic edges.
Proof.
  intros Hnd Hall Hord.
  assert (Hstep : ∀ x p, parent_step edges x p →
            ∃ i j, j < i ∧ order !! i = Some x ∧ order !! j = Some p).
  { intros x p Hp. pose proof (parent_has_key _ _ _ Hp) as Hx.
    apply Hall, list_elem_of_lookup in Hx as [i Hi].
    destruct (Hord i x p Hi Hp) as (j & ? & ?). eauto. }
  assert (Htc : ∀ x y, tc (parent_step edges) x y →
            ∃ i j, j < i ∧ order !! i = Some x ∧ order !! j = Some y).
  { induction 1 as [x y Hxy|x y z Hxy _ (i & j & Hlt & Hi & Hj)]; [auto|].
    destruct (Hstep _ _ Hxy) as (i' & j' & Hlt' & Hi' & Hj').
    assert (j' = i) as -> by (by eapply NoDup_lookup).
    exists i', j. split_and!; [lia|done|done]. }
  split.
  - intros c p Hp. destruct (Hstep _ _ Hp) as (i & j & _ & _ & Hj).
    apply Hall. by apply list_elem_of_lookup_2 in Hj.
  - intros x (i & j & Hlt & Hi & Hj)%Htc.
    assert (i = j) by (by eapply NoDup_lookup). lia.
Qed.

(** ** [topological_sort] *)

Section topological_sort_facts.
Context (edges : EdgeMap) (Hwf : Dict.wf edges).

Local Abbreviation in_degree0 :=
  ((fun item : string * list string =>
      (item.1, Z.of_nat (length item.2))) <$> edges).
Local Abbreviation queue0 :=
  ((filter (fun item : string * Z => item.2 = 0%Z) in_degree0).*1).

(** The loop never runs out of steps and never meets a missing key. *)
Lemma kahn_runs :
  ∃ order in_degree,
    kahn_loop (length edges) (_build_children_map edges)
              in_degree0 queue0 []
      = Some (Return order) ∧
    kahn_inv edges in_degree [] order.
Proof.
  apply kahn_loop_inv; [done|by apply kahn_init|simpl; lia].
Qed.

Lemma kahn_order_keys in_degree order :
  kahn_inv edges in_degree [] order → order ⊆+ Dict.keys edges.
Proof.
  intros Hinv. pose proof (inv_nodup _ _ _ _ Hinv) as Hnd.
  rewrite app_nil_r in Hnd. apply NoDup_submseteq; [done|].
  intros c Hc. apply (inv_ready _ _ _ _ Hinv). by rewrite app_nil_r.
Qed.

(** The result is never longer than the edge map, so the test
    [len(result) != len(edge_map)] is the test [<]. *)
Lemma kahn_order_length in_degree order :
  kahn_inv edges in_degree [] order → length order ≤ length edges.
Proof.
  intros Hsub%kahn_order_keys%submseteq_length.
  unfold Dict.keys in Hsub. by rewrite length_fmap in Hsub.
Qed.

Lemma kahn_full in_degree order :
  kahn_inv edges in_degree [] order →
  length order = length edges →
  order ≡ₚ Dict.keys edges ∧ parents_first edges order.
Proof.
  intros Hinv Hlen. split; [|by destruct Hinv].
  apply submseteq_length_Permutation; [by eapply kahn_order_keys|].
  unfold Dict.keys. rewrite length_fmap. lia.
Qed.

Lemma kahn_short in_degree order :
  kahn_inv edges in_degree [] order →
  closed edges → acyclic edges → length order = length edges.
Proof.
  intros Hinv Hclosed Hacyc.
  destruct (filter (.∉ order) (Dict.keys edges)) as [|x rest] eqn:Hleft.
  - pose proof (kahn_order_length _ _ Hinv).
    assert (Dict.keys edges ⊆+ order) as Hsub%submseteq_length.
    { apply NoDup_submseteq; [done|]. intros c Hc.
      destruct (decide (c ∈ order)) as [|Hn]; [done|].
      assert (c ∈ filter (.∉ order) (Dict.keys edges)) as Hf
        by (by apply list_elem_of_filter).
      rewrite Hleft in Hf. by apply elem_of_nil in Hf. }
    unfold Dict.keys in Hsub. rewrite length_fmap in Hsub. lia.
  - exfalso.
    set (todo := list_to_set (filter (.∉ order) (Dict.keys edges))
                 : gset string).
    assert (Hmem : ∀ y, y ∈ todo ↔ (y ∉ order) ∧ y ∈ Dict.keys edges).
    { intros y. unfold todo.
      by rewrite elem_of_list_to_set, list_elem_of_filter. }
    destruct (acyclic_sink edges Hacyc (size todo) todo x)
      as (s & Hs & _ & Hsink); [done| |].
    { unfold todo. rewrite elem_of_list_to_set, Hleft. left. }
    apply Hmem in Hs as [Hs Hsk].
    destruct (pending edges order s) as [|p ps] eqn:Hpend.
    + destruct Hs. rewrite <-(app_nil_r order).
      by apply (inv_ready _ _ _ _ Hinv).
    + assert (p ∈ pending edges order s) as [Hp Hsp]%list_elem_of_filter
        by (rewrite Hpend; left).
      apply (Hsink p Hsp). apply Hmem. split; [done|].
      by apply (Hclosed s).
Qed.

(** A returned order is a permutation of the keys with parents first,
    and only a closed edge map without cycles has one. *)
Theorem topological_sort_sound order :
  topological_sort edges = Some (Return order) →
  order ≡ₚ Dict.keys edges ∧ parents_first edges order ∧
  closed edges ∧ acyclic edges.
Proof.
  unfold topological_sort. cbv zeta.
  destruct kahn_runs as (order' & in_degree & -> & Hinv).
  case_decide as Hlen; [done|]. intros [= <-].
  destruct (kahn_full _ _ Hinv Hlen) as [Hperm Hord].
  split_and!; [done|done|..];
    apply (parents_first_acyclic edges order'); try done.
  - rewrite Hperm. done.
  - intros x. by rewrite Hperm.
  - rewrite Hperm. done.
  - intros x. by rewrite Hperm.
Qed.

Theorem topological_sort_complete :
  closed edges → acyclic edges →
  ∃ order, topological_sort edges = Some (Return order) ∧
           order ≡ₚ Dict.keys edges ∧ parents_first edges order.
Proof.
  intros Hclosed Hacyc. unfold topological_sort. cbv zeta.
  destruct kahn_runs as (order & in_degree & -> & Hinv).
  pose proof (kahn_short _ _ Hinv Hclosed Hacyc) as Hlen.
  rewrite decide_False by (intros ?; done).
  exists order. split; [done|]. by eapply kahn_full.
Qed.

(** The only outcomes are an order or the cycle error. *)
Theorem topological_sort_outcome :
  (∃ order, topological_sort edges = Some (Return order)) ∨
  topological_sort edges = Some (Raise (ValueError cycle_message)).
Proof.
  unfold topological_sort. cbv zeta.
  destruct kahn_runs as (order & in_degree & -> & Hinv).
  case_decide; [by right|left; by exists order].
Qed.

Theorem topological_sort_fails :
  topological_sort edges = Some (Raise (ValueError cycle_message)) ↔
  ¬ (closed edges ∧ acyclic edges).
Proof.
  split.
  - intros Hfail [Hclosed Hacyc].
    destruct (topological_sort_complete Hclosed Hacyc) as (? & Hok & _).
    congruence.
  - intros Hnot. destruct topological_sort_outcome as [[order Hok]|]; [|done].
    destruct Hnot. by apply topological_sort_sound in Hok as (_ & _ & ? & ?).
Qed.
End topological_sort_facts.

(** ** Breadth-first traversal *)

Lemma get_app {V} (d1 d2 : Dict.t V) k :
  Dict.get k (d1 ++ d2)
  = match Dict.get k d1 with Some v => Some v | None => Dict.get k d2 end.
Proof.
  induction d1 as [|[k' v'] d1 IH]; simpl; [done|]. by case_decide.
Qed.

Lemma get_fmap_const (new : list string) (v : nat) k :
  Dict.get k ((fun x => (x, v)) <$> new)
  = if decide (k ∈ new) then Some v else None.
Proof.
  induction new as [|x new IH]; [done|].
  rewrite fmap_cons. simpl. rewrite IH.
  destruct (decide (k = x)) as [->|Hne].
  - rewrite decide_True; [done|left].
  - destruct (decide (k ∈ new)).
    + rewrite decide_True; [done|by right].
    + rewrite decide_False; [done|]. by intros [?|?]%elem_of_cons.
Qed.

(** What one pass over a neighbour list adds: the neighbours not seen
    before, once each, one degree further. *)
Lemma bfs_visit_all (deg : nat) : ∀ work visited queue,
  ∃ new,
    foldl (bfs_visit deg) (visited, queue) work
    = (visited ++ ((fun x => (x, S deg)) <$> new),
       queue ++ ((fun x => (x, S deg)) <$> new)) ∧
    NoDup new ∧
    ∀ x, x ∈ new ↔ x ∈ work ∧ Dict.get x visited = None.
Proof.
  induction work as [|y work IH]; intros visited queue; simpl.
  - exists []. rewrite !app_nil_r. split_and!; [done|constructor|].
    intros x. split; [by intros ?%elem_of_nil|by intros [?%elem_of_nil _]].
  - unfold bfs_visit at 2. simpl.
    destruct (Dict.get y visited) as [d|] eqn:Hy.
    + destruct (IH visited queue) as (new & -> & Hnd & Hnew).
      exists new. split_and!; [done|done|]. intros x.
      rewrite Hnew, elem_of_cons. split; [by intros [? ?]; auto|].
      intros [[->|?] Hx]; [congruence|done].
    + rewrite (keys_set_None _ _ _ Hy).
      destruct (IH (visited ++ [(y, S deg)]) (queue ++ [(y, S deg)]))
        as (new & -> & Hnd & Hnew).
      assert (Hget : ∀ x, Dict.get x (visited ++ [(y, S deg)]) = None
                          ↔ x ≠ y ∧ Dict.get x visited = None).
      { intros x. rewrite get_app. destruct (Dict.get x visited); simpl.
        - split; [done|by intros [_ ?]].
        - case_decide; split; try done; by intros [? _]. }
      exists (y :: new). rewrite fmap_cons, <-!app_assoc. simpl.
      split_and!; [done| |].
      * constructor; [|done]. rewrite Hnew, Hget. by intros [_ [? _]].
      * intros x. rewrite !elem_of_cons, Hnew, Hget. split.
        -- intros [->|[? [? ?]]]; auto.
        -- intros [[->|?] ?]; [by left|].
           destruct (decide (x = y)); [by left|right; done].
Qed.

(** [sorted] leaves a list alone that is in key order already. *)
Lemma sorted_by_sorted {A} (key : A → nat) (l : list A) :
  Sorted le (key <$> l) → sorted_by key l = l.
Proof.
  induction l as [|x l IH]; [done|].
  rewrite fmap_cons. intros [Hl Hhd]%Sorted_inv. simpl.
  fold (sorted_by key l). rewrite IH by done.
  destruct l as [|y l]; [done|]. simpl.
  rewrite fmap_cons in Hhd. apply HdRel_inv in Hhd.
  by rewrite decide_True.
Qed.

(** [sorted] in general: ascending keys, same elements. *)
Lemma insert_by_perm {A} (key : A → nat) x (l : list A) :
  insert_by key x l ≡ₚ x :: l.
Proof.
  induction l as [|y l IH]; simpl; [done|]. case_decide; [done|].
  rewrite IH. apply Permutation_swap.
Qed.

Lemma sorted_by_perm {A} (key : A → nat) (l : list A) :
  sorted_by key l ≡ₚ l.
Proof.
  induction l as [|x l IH]; simpl; [done|].
  fold (sorted_by key l). by rewrite insert_by_perm, IH.
Qed.

Lemma insert_by_ascending {A} (key : A → nat) x (l : list A) :
  Sorted le (key <$> l) → Sorted le (key <$> insert_by key x l).
Proof.
  induction l as [|y l IH]; simpl; [by repeat constructor|].
  intros [Hl Hhd]%Sorted_inv. case_decide as Hxy.
  - rewrite !fmap_cons. repeat constructor; done.
  - rewrite fmap_cons. constructor; [by apply IH|].
    destruct l as [|z l]; simpl.
    + constructor. lia.
    + case_decide; rewrite fmap_cons; constructor; [lia|].
      rewrite fmap_cons in Hhd. by apply HdRel_inv in Hhd.
Qed.

Lemma sorted_by_ascending {A} (key : A → nat) (l : list A) :
  Sorted le (key <$> sorted_by key l).
Proof.
  induction l as [|x l IH]; simpl; [constructor|].
  by apply insert_by_ascending.
Qed.

Lemma ascending_app_const {A} (l : list nat) (v : nat) (new : list A) :
  StronglySorted le l → Forall (fun k => k ≤ v) l →
  StronglySorted le (l ++ ((fun _ => v) <$> new)).
Proof.
  intros Hl Hle. induction Hl as [|k l Hl IH Hk]; simpl.
  - induction new as [|x new IHn]; simpl; constructor; [done|].
    apply Forall_fmap, Forall_forall. intros ? _. simpl. lia.
  - apply Forall_cons in Hle as [Hkv Hle]. constructor; [by apply IH|].
    apply Forall_app. split; [done|].
    apply Forall_fmap, Forall_forall. by intros ? _.
Qed.

Section breadth_first.
Context (adj : Dict.t (list string)) (start : string).
Local Abbreviation R := (edge adj).
Local Abbreviation unseen visited :=
  (universe adj ∖ list_to_set (Dict.keys visited)).

Lemma bfs_inv_init : bfs_inv adj start [] [(start, 0)].
Proof.
  split.
  - constructor.
  - by intros x d ?%elem_of_nil.
  - intros x d ?%list_elem_of_singleton. by left.
  - constructor.
  - repeat constructor.
  - exists 0. split; [|constructor]. repeat constructor.
  - intros y e [->|?%elem_of_nil] Hq; [|done]. destruct Hq. left.
Qed.

Lemma bfs_step visited c d queue :
  bfs_inv adj start visited ((c, d) :: queue) →
  ∃ visited' queue',
    foldl (bfs_visit d) (visited, queue) (Dict.get_or c [] adj)
      = (visited', queue') ∧
    bfs_inv adj start visited' queue' ∧
    length queue' + size (unseen visited')
      ≤ length queue + size (unseen visited).
Proof.
  intros [Hwf Hsound Hqueue Hvis Hsorted [b [Hqb Hvb]] Hexp].
  destruct (bfs_visit_all d (Dict.get_or c [] adj) visited queue)
    as (new & -> & Hnd & Hnew).
  eexists _, _. split; [done|].
  assert (Hdeg2 : ((fun x : string => (x, S d)) <$> new).*2
                  = (fun _ => S d) <$> new).
  { rewrite <-list_fmap_compose. done. }
  assert (Hdeg1 : ((fun x : string => (x, S d)) <$> new).*1 = new).
  { rewrite <-list_fmap_compose. apply list_fmap_id. }
  rewrite fmap_cons in Hsorted, Hqb. simpl in Hsorted, Hqb.
  apply StronglySorted_inv in Hsorted as [Hsorted Hhd].
  apply Forall_cons in Hqb as [Hbd Hqb].
  assert (Hvd : Forall (fun k => k ≤ S d) visited.*2).
  { eapply Forall_impl; [done|]. simpl. lia. }
  assert (Hqd : Forall (fun k => d ≤ k ≤ S d) queue.*2).
  { rewrite Forall_forall in *. intros k Hk.
    specialize (Hhd k Hk). specialize (Hqb k Hk). simpl in *. lia. }
  assert (Hstart : nsteps R d start c).
  { destruct (Hqueue c d) as [[= -> ->]|Hin]; [left|constructor|].
    by apply Hsound. }
  assert (Hkeep : ∀ z k, Dict.get z visited = Some k →
            Dict.get z (visited ++ ((fun x => (x, S d)) <$> new))
            = Some k).
  { intros z k Hz. by rewrite get_app, Hz. }
  split; [split|].
  - unfold Dict.wf, Dict.keys. rewrite fmap_app, Hdeg1.
    apply NoDup_app. split_and!; [done| |done].
    intros x Hx [_ Hnone]%Hnew. by apply get_None in Hnone.
  - intros x k [Hin|Hin]%elem_of_app; [by apply Hsound|].
    apply list_elem_of_fmap in Hin as [y [[= -> ->] [Hy _]%Hnew]].
    split; [lia|]. by apply nsteps_r with c.
  - intros x k [Hin|Hin]%elem_of_app.
    + destruct (Hqueue x k) as [?|?]; [by right|by left|].
      right. apply elem_of_app. by left.
    + right. apply elem_of_app. by right.
  - rewrite fmap_app, Hdeg2. by apply ascending_app_const.
  - rewrite fmap_app, Hdeg2. apply ascending_app_const; [done|].
    eapply Forall_impl; [done|]. simpl. lia.
  - exists d. rewrite !fmap_app, Hdeg2, !Forall_app. split_and!; try done.
    + apply Forall_fmap, Forall_forall. intros ? _. simpl. lia.
    + apply Forall_fmap, Forall_forall. intros ? _. simpl. lia.
  - intros y e Hy Hnq z Hyz.
    assert (Hnq' : ((y, e) ∉ queue) ∧
                   ((y, e) ∉ (fun x : string => (x, S d)) <$> new)).
    { split; intros ?; apply Hnq, elem_of_app; auto. }
    destruct Hnq' as [Hnq1 Hnq2].
    assert (Hy' : (y, e) = (start, 0) ∨ (y, e) ∈ visited).
    { destruct Hy as [?|[?|?]%elem_of_app]; auto. done. }
    destruct (decide ((y, e) = (c, d))) as [[= -> ->]|Hne].
    + destruct (Dict.get z visited) as [k|] eqn:Hz.
      * exists k. split; [by apply Hkeep|].
        apply get_Some_elem in Hz. rewrite Forall_forall in Hvd.
        apply Hvd. apply list_elem_of_fmap. by exists (z, k).
      * exists (S d). split; [|done].
        rewrite get_app, Hz, get_fmap_const, decide_True; [done|].
        by apply Hnew.
    + destruct (Hexp y e Hy') with (z := z) as (k & Hz & Hk); [|done|].
      { by intros [?|?]%elem_of_cons. }
      exists k. split; [by apply Hkeep|done].
  - rewrite length_app, length_fmap.
    unfold Dict.keys. rewrite fmap_app, Hdeg1, list_to_set_app_L.
    assert (size (list_to_set new : gset string) = length new) as <-
      by (by apply size_list_to_set).
    rewrite <-Nat.add_assoc, <-size_union by set_solver.
    assert (list_to_set new
              ∪ universe adj ∖ (list_to_set visited.*1 ∪ list_to_set new)
            ⊆ universe adj ∖ list_to_set visited.*1) as ?%subseteq_size;
      [|lia].
    intros x. rewrite elem_of_union, !elem_of_difference, elem_of_union,
      !elem_of_list_to_set.
    intros [[Hx Hnone]%Hnew|[? ?]]; [|tauto].
    split; [by eapply nbrs_universe|]. by apply get_None in Hnone.
Qed.

Lemma bfs_loop fuel : ∀ visited queue,
  bfs_inv adj start visited queue →
  length queue + size (unseen visited) ≤ fuel →
  ∃ final, bfs fuel adj visited queue = Some final ∧ bfs_inv adj start final [].
Proof.
  induction fuel as [|fuel IH]; intros visited queue Hinv Hfuel;
    (destruct queue as [|[c d] queue]; [by exists visited|]);
    simpl in *; [lia|].
  destruct (bfs_step _ _ _ _ Hinv) as (visited' & queue' & -> & Hinv' & ?).
  simpl. apply IH; [done|lia].
Qed.

Lemma bfs_least final :
  bfs_inv adj start final [] →
  ∀ k x, 1 ≤ k → nsteps R k start x →
         ∃ d, Dict.get x final = Some d ∧ d ≤ k.
Proof.
  intros Hinv. induction k as [|k IH]; intros x Hk Hwalk; [lia|].
  apply nsteps_inv_r in Hwalk as (y & Hwalk & Hyx).
  destruct k as [|k].
  - assert (y = start) as -> by (by inversion Hwalk).
    destruct (bi_expanded _ _ _ _ Hinv start 0) with (z := x)
      as (d & ? & ?); [by left|by intros ?%elem_of_nil|done|].
    exists d. split; [done|lia].
  - destruct (IH y) as (e & Hy & He); [lia|done|].
    destruct (bi_expanded _ _ _ _ Hinv y e) with (z := x) as (d & ? & ?);
      [right; by apply get_Some_elem|by intros ?%elem_of_nil|done|].
    exists d. split; [done|lia].
Qed.

(** The search ends, and its dictionary holds every node that a walk of
    at least one edge reaches, once, at the least such number of edges,
    in ascending order of that number. *)
Theorem bfs_spec :
  ∃ visited,
    bfs (depth_bound adj) adj [] [(start, 0)] = Some visited ∧
    NoDup visited.*1 ∧
    Sorted le visited.*2 ∧
    ∀ x d, (x, d) ∈ visited ↔ is_degree (edge adj) start x d.
Proof.
  destruct (bfs_loop (depth_bound adj) [] [(start, 0)])
    as (final & Hrun & Hinv); [apply bfs_inv_init| |].
  { simpl. unfold depth_bound. pose proof (size_universe adj).
    assert (universe adj ∖ ∅ ⊆ universe adj) as ?%subseteq_size
      by set_solver.
    lia. }
  exists final. split_and!; [done|apply Hinv| |].
  { apply StronglySorted_Sorted, Hinv. }
  intros x d. split.
  - intros Hin. destruct (bi_sound _ _ _ _ Hinv x d Hin) as [Hd Hwalk].
    split_and!; [done|done|]. intros k Hk Hwalk'.
    destruct (bfs_least _ Hinv k x Hk Hwalk') as (d' & Hget & Hle).
    apply (elem_get_Some _ _ _ (bi_wf _ _ _ _ Hinv)) in Hin. congruence.
  - intros (Hd & Hwalk & Hmin).
    destruct (bfs_least _ Hinv d x Hd Hwalk) as (d' & Hget & Hle).
    apply get_Some_elem in Hget.
    destruct (bi_sound _ _ _ _ Hinv x d' Hget) as [Hd' Hwalk'].
    specialize (Hmin d' Hd' Hwalk').
    by replace d with d' by lia.
Qed.
End breadth_first.

(** [with_degree] returns the search dictionary as it is: the records are
    in discovery order, which is ascending in the degree already. *)
Lemma with_degree_spec {N} (nodes : Dict.t N) (adj : Dict.t (list string))
    (start : string) :
  ∃ visited,
    bfs (depth_bound adj) adj [] [(start, 0)] = Some visited ∧
    with_degree nodes adj start
    = Some ((fun item => MkNodeWithDegree (Dict.get item.1 nodes)
                                          item.1 item.2) <$> visited) ∧
    NoDup visited.*1 ∧ Sorted le visited.*2 ∧
    ∀ x d, (x, d) ∈ visited ↔ is_degree (edge adj) start x d.
Proof.
  destruct (bfs_spec adj start) as (visited & Hrun & Hnd & Hsorted & Hdeg).
  exists visited. split_and!; try done.
  unfold with_degree. rewrite Hrun. simpl. f_equal.
  assert ((fun '(name, deg) => MkNodeWithDegree (Dict.get name nodes) name deg)
            <$> visited
          = (fun item => MkNodeWithDegree (Dict.get item.1 nodes)
                                          item.1 item.2) <$> visited) as ->.
  { apply list_fmap_ext. by intros i [x d] _. }
  apply sorted_by_sorted. rewrite <-list_fmap_compose.
  erewrite list_fmap_ext; [apply Hsorted|]. by intros i [x d] _.
Qed.

(** ** Parents and children as relations *)

Lemma rtc_flip {A} (R R' : relation A) x y :
  (∀ a b, R a b → R' b a) → rtc R x y → rtc R' y x.
Proof.
  intros Hflip. induction 1 as [|x y z Hxy _ IH]; [done|].
  apply rtc_r with y; auto.
Qed.

Lemma tc_flip {A} (R R' : relation A) x y :
  (∀ a b, R a b → R' b a) → tc R x y → tc R' y x.
Proof.
  intros Hflip. induction 1 as [x y Hxy|x y z Hxy _ IH].
  - apply tc_once. auto.
  - apply tc_r with y; auto.
Qed.

Lemma tc_children_parents (edges : EdgeMap) x y :
  Dict.wf edges →
  tc (child_step edges) x y ↔ tc (parent_step edges) y x.
Proof.
  intros Hwf. split; apply tc_flip; intros a b; by apply child_parent_step.
Qed.

Lemma rtc_children_parents (edges : EdgeMap) x y :
  Dict.wf edges →
  rtc (child_step edges) x y ↔ rtc (parent_step edges) y x.
Proof.
  intros Hwf. split; apply rtc_flip; intros a b; by apply child_parent_step.
Qed.

(** A numbering that decreases along every parent edge rules cycles out. *)
Lemma acyclic_by_rank (edges : EdgeMap) (rank : string → nat) :
  (∀ c p, parent_step edges c p → rank p < rank c) → acyclic edges.
Proof.
  intros Hrank x Hcyc.
  assert (∀ a b, tc (parent_step edges) a b → rank b < rank a) as Hlt.
  { induction 1 as [a b Hab|a b c Hab _ IH]; [auto|].
    apply Hrank in Hab. lia. }
  apply Hlt in Hcyc. lia.
Qed.

(** ** [would_create_cycle] *)

Lemma would_create_cycle_spec (edges : EdgeMap) (source target : string) :
  Dict.wf edges →
  ∃ answer,
    would_create_cycle edges source target = Some answer ∧
    (answer = true ↔ rtc (parent_step edges) source target).
Proof.
  intros Hwf. unfold would_create_cycle.
  destruct (decide (source = target)) as [->|Hne]; [by exists true|].
  cbv zeta.
  destruct (can_reach_spec (_build_children_map edges) source target)
    as (found & visited & -> & Hfound).
  exists found. split; [done|].
  rewrite Hfound. by apply rtc_children_parents.
Qed.

(** ** Adding an edge *)

Section add_edge_facts.
Context (edges : EdgeMap) (source target : string).
Local Abbreviation edges' := (add_edge edges source target).

Lemma keys_add_edge x :
  x ∈ Dict.keys edges' ↔ x ∈ Dict.keys edges ∨ x = target.
Proof.
  unfold add_edge.
  destruct (Dict.get target edges) as [ps|] eqn:Ht.
  - rewrite keys_set_Some by (by rewrite Ht). split; [auto|].
    intros [?| ->]; [done|]. apply dec_stable. by rewrite <-get_None, Ht.
  - rewrite (keys_set_None _ _ _ Ht). unfold Dict.keys.
    rewrite fmap_app, elem_of_app. simpl.
    by rewrite list_elem_of_singleton.
Qed.

Lemma wf_add_edge : Dict.wf edges → Dict.wf edges'.
Proof.
  intros Hwf. unfold add_edge, Dict.wf.
  destruct (Dict.get target edges) as [ps|] eqn:Ht.
  - by rewrite keys_set_Some by (by rewrite Ht).
  - rewrite (keys_set_None _ _ _ Ht). unfold Dict.keys.
    rewrite fmap_app. apply NoDup_app. split_and!; [done| |].
    + intros x Hx ->%list_elem_of_singleton. by apply get_None in Ht.
    + apply NoDup_singleton.
Qed.

Lemma parent_step_add_edge c p :
  parent_step edges' c p ↔
  parent_step edges c p ∨ (c = target ∧ p = source).
Proof.
  unfold parent_step, add_edge, get_parents, Dict.get_or.
  destruct (decide (c = target)) as [->|Hne].
  - rewrite get_set_eq. simpl. rewrite elem_of_app, list_elem_of_singleton.
    naive_solver.
  - rewrite get_set_ne by done. naive_solver.
Qed.

Lemma closed_add_edge :
  closed edges → source ∈ Dict.keys edges → closed edges'.
Proof.
  intros Hclosed Hsource c p [Hp|[-> ->]]%parent_step_add_edge;
    apply keys_add_edge; left; [by eapply Hclosed|done].
Qed.

(** A walk in the new graph is a walk in the old one, or it goes to
    [target], takes the new edge, and goes on from [source]. *)
Lemma tc_add_edge x y :
  tc (parent_step edges') x y →
  tc (parent_step edges) x y ∨
  (rtc (parent_step edges) x target ∧ rtc (parent_step edges) source y).
Proof.
  induction 1 as [x y Hxy|x y z Hxy _ IH].
  - apply parent_step_add_edge in Hxy as [?|[-> ->]].
    + left. by apply tc_once.
    + by right.
  - apply parent_step_add_edge in Hxy as [Hxy|[-> ->]].
    + destruct IH as [?|[? ?]].
      * left. by apply tc_l with y.
      * right. split; [by apply rtc_l with y|done].
    + right. split; [done|]. destruct IH as [?%tc_rtc|[_ ?]]; done.
Qed.

Lemma acyclic_add_edge :
  acyclic edges →
  acyclic edges' ↔ ¬ rtc (parent_step edges) source target.
Proof.
  intros Hacyc. split.
  - intros Hacyc' Hwalk. apply (Hacyc' target).
    apply tc_rtc_r with source.
    + apply tc_once, parent_step_add_edge. by right.
    + eapply rtc_subrel; [|done]. intros a b ?.
      apply parent_step_add_edge. by left.
  - intros Hnot x [Hcyc|[Hxt Hsx]]%tc_add_edge; [by apply (Hacyc x)|].
    apply Hnot. by etrans.
Qed.
End add_edge_facts.

(** ** Concrete graphs *)

Lemma ranked_acyclic (edges : EdgeMap) (rank : string → nat) :
  Forall (fun item => Forall (fun p => rank p < rank item.1) item.2) edges →
  acyclic edges.
Proof.
  intros Hall. apply (acyclic_by_rank edges rank). intros c p.
  unfold parent_step, get_parents, Dict.get_or.
  destruct (Dict.get c edges) as [ps|] eqn:Hc; simpl;
    [|by intros ?%elem_of_nil].
  intros Hp. apply get_Some_elem in Hc.
  rewrite Forall_forall in Hall. specialize (Hall _ Hc). simpl in Hall.
  rewrite Forall_forall in Hall. by apply Hall.
Qed.

Lemma diamond_wf : Dict.wf diamond.
Proof. apply (bool_decide_unpack _). by vm_compute. Qed.

Lemma diamond_acyclic : acyclic diamond.
Proof.
  apply (ranked_acyclic _
    (fun s => if decide (s = "D") then 2 else if decide (s = "A") then 0
              else 1)).
  apply (bool_decide_unpack _). by vm_compute.
Qed.

Lemma diamond_closed : closed diamond.
Proof.
  intros c p. unfold parent_step, get_parents, Dict.get_or, diamond. simpl.
  repeat case_decide; simpl; set_solver.
Qed.

Lemma docstring_edges_acyclic : acyclic docstring_edges.
Proof.
  apply (ranked_acyclic _
    (fun s => if decide (s = "grandchild") then 2
              else if decide (s = "child") then 1 else 0)).
  apply (bool_decide_unpack _). by vm_compute.
Qed.

(** ** The consistency checker *)

Lemma violates_inconsistent node_ids before e after r :
  violates node_ids before e r →
  ¬ consistent node_ids (before ++ e :: after).
Proof.
  intros Hv (Hin & Hloop & Hnd).
  assert (e ∈ before ++ e :: after) as He
    by (apply elem_of_app; right; left).
  destruct r; simpl in Hv.
  - destruct (Hin e He). tauto.
  - by apply (Hloop e He).
  - apply NoDup_app in Hnd as (_ & Hdisj & _). apply (Hdisj e Hv). left.
Qed.

Lemma scan_edges_spec (node_ids : list string) : ∀ rest before,
  consistent node_ids before →
  (scan_edges (list_to_set node_ids) (list_to_set before) rest = Return true
   ∧ consistent node_ids (before ++ rest)) ∨
  (∃ mid e after r msg,
     rest = mid ++ e :: after ∧
     consistent node_ids (before ++ mid) ∧
     violates node_ids (before ++ mid) e r ∧
     reports r e msg ∧
     scan_edges (list_to_set node_ids) (list_to_set before) rest
       = Raise (ValueError msg)).
Proof.
  induction rest as [|[s t] rest IH]; intros before Hbefore; simpl.
  { left. by rewrite app_nil_r. }
  assert (Hstop : ∀ r msg,
            violates node_ids before (s, t) r → reports r (s, t) msg →
            ∃ mid e after r msg',
              (s, t) :: rest = mid ++ e :: after ∧
              consistent node_ids (before ++ mid) ∧
              violates node_ids (before ++ mid) e r ∧
              reports r e msg' ∧
              Raise (ValueError msg) = Raise (A:=bool) (ValueError msg')).
  { intros r msg Hv Hr. exists [], (s, t), rest, r, msg.
    rewrite app_nil_r. by split_and!. }
  case_decide as Hs.
  { right. apply (Hstop DanglingEdgeReference); simpl; [|by left].
    left. by rewrite elem_of_list_to_set in Hs. }
  case_decide as Ht.
  { right. apply (Hstop DanglingEdgeReference); simpl; [|by right].
    right. by rewrite elem_of_list_to_set in Ht. }
  case_decide as Hst.
  { right. by apply (Hstop SelfLoop). }
  case_decide as Hdup.
  { right. apply (Hstop DuplicateEdge); simpl; [|done].
    by rewrite elem_of_list_to_set in Hdup. }
  rewrite elem_of_list_to_set in Hs, Ht. rewrite elem_of_list_to_set in Hdup.
  assert (Hnext : consistent node_ids (before ++ [(s, t)])).
  { destruct Hbefore as (Hin & Hloop & Hnd). split_and!.
    - intros e [?| ->%list_elem_of_singleton]%elem_of_app; auto.
    - intros e [?| ->%list_elem_of_singleton]%elem_of_app; auto.
    - apply NoDup_app. split_and!; [done| |apply NoDup_singleton].
      by intros e ? ->%list_elem_of_singleton. }
  assert ({[(s, t)]} ∪ list_to_set before
          = (list_to_set (before ++ [(s, t)]) : gset (string * string)))
    as -> by set_solver.
  destruct (IH _ Hnext) as [[Hrun Hall]|(mid & e & after & r & msg & Hsplit)].
  - left. split; [done|]. by rewrite <-app_assoc in Hall.
  - right. destruct Hsplit as (-> & Hmid & Hv & Hr & Hrun).
    exists ((s, t) :: mid), e, after, r, msg.
    rewrite <-app_assoc in Hmid, Hv. by split_and!.
Qed.

(** ** Roots *)

Lemma filter_ext_in {A} (P Q : A → Prop)
    `{!∀ x, Decision (P x)} `{!∀ x, Decision (Q x)} (l : list A) :
  (∀ x, x ∈ l → (P x ↔ Q x)) → filter P l = filter Q l.
Proof.
  induction l as [|x l IH]; intros Hext; [done|].
  rewrite !filter_cons, IH by (intros y ?; apply Hext; by right).
  destruct (Hext x) as [HPQ HQP]; [left|].
  destruct (decide (P x)), (decide (Q x)); tauto.
Qed.

Lemma get_roots_filter_keys (edges : EdgeMap) :
  Dict.wf edges →
  get_roots edges
  = filter (fun n => get_parents edges n = []) (Dict.keys edges).
Proof.
  unfold get_roots, get_parents, Dict.get_or, Dict.wf, Dict.keys.
  induction edges as [|[k ps] es IH]; [done|].
  rewrite fmap_cons, NoDup_cons. simpl. intros [Hk Hnd].
  assert (filter (λ n, default [] (if decide (n = k) then Some ps
                                   else Dict.get n es) = []) es.*1
          = filter (λ n, default [] (Dict.get n es) = []) es.*1) as Hrest.
  { apply filter_ext_in. intros n Hn.
    rewrite decide_False; [done|]. by intros ->. }
  rewrite (filter_cons _ (k, ps)), (filter_cons _ k), Hrest, <-IH by done.
  simpl. rewrite (decide_True (P := k = k)) by done. simpl.
  by destruct (decide (ps = [])).
Qed.

(** * Properties of the specification *)

(** C1, as stated: on the diamond graph [get_ancestors] of [D] is not the
    list [B, C, A]. *)
Lemma diamond_ancestors_not_BCA :
  get_ancestors diamond "D" ≠ Some ["B"; "C"; "A"].
Proof. vm_compute. discriminate. Qed.

(** C1, amended: on the graph [{A: [], B: [A], C: [A], D: [B, C]}]
    [get_ancestors] of [D] returns exactly [B, A, C]: the first parent
    [B], then [B]'s own parent [A], then the next parent [C]. *)
Theorem get_ancestors_diamond :
  get_ancestors diamond "D" = Some ["B"; "A"; "C"].
Proof. vm_compute. reflexivity. Qed.

(** C2, at the pre-computed edges of the module docstring: the graph has
    no cycle, and [topological_sort] raises the cycle error, because the
    in-degree of [child] counts two parents that are never dequeued. *)
Theorem topological_sort_external_parent :
  acyclic docstring_edges ∧
  topological_sort docstring_edges = Some (Raise (ValueError cycle_message)).
Proof. split; [apply docstring_edges_acyclic|]. vm_compute. reflexivity. Qed.

(** C3, as stated: on a two-node cycle a node is in its own ancestor list
    and in its own descendant list. *)
Lemma ancestors_of_cycle_node :
  (∃ anc, get_ancestors two_cycle "A" = Some anc ∧ "A" ∈ anc) ∧
  (∃ desc, get_descendants two_cycle "A" = Some desc ∧ "A" ∈ desc).
Proof.
  split; exists ["B"; "A"]; (split; [vm_compute; reflexivity|]); set_solver.
Qed.

(** C3, amended: for every edge map and every node [n] that lies on no
    cycle, [n] is in neither [get_ancestors n] nor [get_descendants n]. *)
Theorem ancestors_irreflexive (edges : EdgeMap) (n : string) :
  Dict.wf edges →
  ¬ tc (parent_step edges) n n →
  ∃ anc desc,
    get_ancestors edges n = Some anc ∧
    get_descendants edges n = Some desc ∧
    (n ∉ anc) ∧ (n ∉ desc).
Proof.
  intros Hwf Hn. unfold get_ancestors, get_descendants.
  destruct (dfs_first_visit edges n) as (anc & Hanc & _).
  destruct (dfs_first_visit (_build_children_map edges) n)
    as (desc & Hdesc & _).
  exists anc, desc. split_and!; [done|done|..].
  - intros Hin. by apply (dfs_reach _ _ _ Hanc) in Hin.
  - intros Hin. apply (dfs_reach _ _ _ Hdesc) in Hin.
    by apply (tc_children_parents edges n n Hwf) in Hin.
Qed.

Lemma ancestors_irreflexive_witness :
  Dict.wf diamond ∧ ¬ tc (parent_step diamond) "D" "D" ∧
  ∃ anc desc,
    get_ancestors diamond "D" = Some anc ∧
    get_descendants diamond "D" = Some desc ∧
    ("D" ∉ anc) ∧ ("D" ∉ desc).
Proof.
  split; [apply diamond_wf|]. split; [apply diamond_acyclic|].
  apply (ancestors_irreflexive diamond "D");
    [apply diamond_wf|apply diamond_acyclic].
Defined.

(** C4, as stated: on a graph that has a cycle already, an edge between
    two other nodes is not reported by [would_create_cycle], and
    [topological_sort] fails after it is added. *)
Lemma would_create_cycle_old_cycle :
  would_create_cycle cycle_and_two "C" "D" = Some false ∧
  topological_sort (add_edge cycle_and_two "C" "D")
  = Some (Raise (ValueError cycle_message)).
Proof. split; vm_compute; reflexivity. Qed.

(** C4, amended: for every edge map that is closed (every parent is a
    key) and has no cycle, every key [a] and every identifier [b],
    [would_create_cycle a b] is true if and only if [topological_sort]
    fails with the cycle error after [a] is appended to the parent list of
    [b]. *)
Theorem would_create_cycle_iff_sort_fails (edges : EdgeMap) (a b : string) :
  Dict.wf edges → closed edges → acyclic edges → a ∈ Dict.keys edges →
  ∃ answer,
    would_create_cycle edges a b = Some answer ∧
    (answer = true ↔
     topological_sort (add_edge edges a b)
     = Some (Raise (ValueError cycle_message))).
Proof.
  intros Hwf Hclosed Hacyc Ha.
  destruct (would_create_cycle_spec edges a b Hwf)
    as (answer & Hrun & Hanswer).
  exists answer. split; [done|].
  pose proof (wf_add_edge edges a b Hwf) as Hwf'.
  pose proof (closed_add_edge edges a b Hclosed Ha) as Hclosed'.
  pose proof (acyclic_add_edge edges a b Hacyc) as Hacyc'.
  rewrite (topological_sort_fails _ Hwf'), Hanswer. split.
  - intros Hwalk [_ Hno]. by apply Hacyc' in Hno.
  - intros Hnot. destruct answer.
    + by apply Hanswer.
    + destruct Hnot. split; [done|]. apply Hacyc'. intros Hwalk.
      by apply Hanswer in Hwalk.
Qed.

Lemma would_create_cycle_iff_sort_fails_witness :
  ∃ answer,
    would_create_cycle diamond "D" "A" = Some answer ∧
    (answer = true ↔
     topological_sort (add_edge diamond "D" "A")
     = Some (Raise (ValueError cycle_message))).
Proof.
  apply (would_create_cycle_iff_sort_fails diamond "D" "A").
  - apply diamond_wf.
  - apply diamond_closed.
  - apply diamond_acyclic.
  - apply (bool_decide_unpack _). by vm_compute.
Defined.

(** C5: for every edge map and node [n], [get_ancestors n] lists each
    ancestor once, in the first-visit order of the pre-order depth-first
    expansion of [n]'s parent list, and [get_descendants n] does the same
    over the children index. *)
Theorem traversal_first_visit_order (edges : EdgeMap) (n : string) :
  (∃ anc,
     get_ancestors edges n = Some anc ∧
     first_visit (get_parents edges) ∅ (get_parents edges n) anc ∧
     NoDup anc ∧
     ∀ x, x ∈ anc ↔ tc (parent_step edges) n x) ∧
  (∃ desc,
     get_descendants edges n = Some desc ∧
     first_visit (get_children edges) ∅ (get_children edges n) desc ∧
     NoDup desc ∧
     ∀ x, x ∈ desc ↔ tc (child_step edges) n x).
Proof.
  unfold get_ancestors, get_descendants. split.
  - destruct (dfs_first_visit edges n) as (anc & Hanc & Hfv).
    exists anc. split_and!; [done|done|..];
      by apply (dfs_reach _ _ _ Hanc).
  - destruct (dfs_first_visit (_build_children_map edges) n)
      as (desc & Hdesc & Hfv).
    exists desc. split_and!; [done|done|..];
      by apply (dfs_reach _ _ _ Hdesc).
Qed.

(** C6: [quick_validate] returns [True] exactly when no edge is dangling,
    none is a self-loop and none occurs twice; otherwise it raises the
    message of a reason that holds for the first edge, in input order, for
    which some reason holds.  On nodes [P, Q] and the one edge [P → P] it
    reports the self-loop. *)
Theorem quick_validate_contract (g : CausewayJson) :
  (quick_validate g = Return true ↔ consistent (nodes g) (edges g)) ∧
  (consistent (nodes g) (edges g) ∨
   ∃ before e after r msg,
     edges g = before ++ e :: after ∧
     consistent (nodes g) before ∧
     violates (nodes g) before e r ∧
     reports r e msg ∧
     quick_validate g = Raise (ValueError msg)) ∧
  quick_validate self_loop_graph
  = Raise (ValueError (self_loop_message "P")).
Proof.
  assert (Hnil : consistent (nodes g) []).
  { split_and!; [by intros e ?%elem_of_nil..|constructor]. }
  unfold quick_validate.
  destruct (scan_edges_spec (nodes g) (edges g) [] Hnil)
    as [[Hrun Hall]|(mid & e & after & r & msg & Hsplit)]; simpl in *.
  - split_and!; [by rewrite Hrun|by left|done].
  - destruct Hsplit as (Hedges & Hmid & Hv & Hr & Hrun). split_and!.
    + rewrite Hrun, Hedges. split; [done|].
      intros Hall. by destruct (violates_inconsistent _ _ _ after _ Hv).
    + right. by exists mid, e, after, r, msg.
    + done.
Qed.

(** C7: the report of [compare_topologies] is valid exactly when the four
    difference sets are empty, that is, when both node sets and both edge
    sets are equal; the two count flags compare sizes only.  On
    [({1,2}, {(1,2)})] against [({1,2,3}, {(1,2)})] the report is not valid
    and the nodes missing in A are [{3}]. *)
Theorem compare_topologies_contract
    (nodes_a nodes_b : gset string) (edges_a edges_b : gset (string * string)) :
  let report := compare_topologies nodes_a edges_a nodes_b edges_b in
  (is_valid report = true ↔
   missing_nodes_in_a report = ∅ ∧ missing_nodes_in_b report = ∅ ∧
   missing_edges_in_a report = ∅ ∧ missing_edges_in_b report = ∅) ∧
  (is_valid report = true ↔ nodes_a = nodes_b ∧ edges_a = edges_b) ∧
  (node_count_match report = true ↔ size nodes_a = size nodes_b) ∧
  (edge_count_match report = true ↔ size edges_a = size edges_b) ∧
  missing_nodes_in_a report = nodes_b ∖ nodes_a ∧
  missing_nodes_in_b report = nodes_a ∖ nodes_b ∧
  missing_edges_in_a report = edges_b ∖ edges_a ∧
  missing_edges_in_b report = edges_a ∖ edges_b ∧
  is_valid (compare_topologies nodes_12 edges_12 nodes_123 edges_12) = false ∧
  missing_nodes_in_a (compare_topologies nodes_12 edges_12 nodes_123 edges_12)
  = {["3"]}.
Proof.
  assert (Hvalid : is_valid (compare_topologies nodes_a edges_a nodes_b edges_b)
                   = true ↔
                   nodes_b ∖ nodes_a = ∅ ∧ nodes_a ∖ nodes_b = ∅ ∧
                   edges_b ∖ edges_a = ∅ ∧ edges_a ∖ edges_b = ∅).
  { simpl. rewrite !andb_true_iff, !bool_decide_eq_true.
    rewrite !size_empty_iff. unfold_leibniz. tauto. }
  simpl. split_and!; try done.
  - simpl in Hvalid. rewrite Hvalid. split.
    + intros (Ha & Hb & Hc & Hd). split; apply set_eq; intros x.
      * destruct (decide (x ∈ nodes_a)), (decide (x ∈ nodes_b)); set_solver.
      * destruct (decide (x ∈ edges_a)), (decide (x ∈ edges_b)); set_solver.
    + intros [-> ->]. set_solver.
  - apply bool_decide_eq_true.
  - apply bool_decide_eq_true.
Qed.

Lemma with_degree_ranked {N} (nodes : Dict.t N) (adj : Dict.t (list string))
    (start : string) :
  ∃ discovery result,
    bfs (depth_bound adj) adj [] [(start, 0)] = Some discovery ∧
    with_degree nodes adj start = Some result ∧
    degree_ranked nodes (edge adj) start discovery result.
Proof.
  destruct (with_degree_spec nodes adj start)
    as (visited & Hrun & Hres & Hnd & Hsorted & Hdeg).
  eexists visited, _. split_and!; [done|done|]. split_and!; [done|..].
  - rewrite <-list_fmap_compose.
    by erewrite list_fmap_ext; [apply Hnd|].
  - rewrite <-list_fmap_compose.
    by erewrite list_fmap_ext; [apply Hsorted|].
  - intros x d. rewrite <-Hdeg. split.
    + intros (e & [[y k] [-> Hin]]%list_elem_of_fmap & <- & <-). done.
    + intros Hin. exists (MkNodeWithDegree (Dict.get x nodes) x d).
      split; [|done]. apply list_elem_of_fmap. by exists (x, d).
  - intros e k [[y d] [-> Hin]]%list_elem_of_fmap Hne Hwalk. simpl in *.
    apply Hdeg in Hin as (_ & _ & Hmin). apply Hmin; [|done].
    destruct k; [|lia]. by inversion Hwalk.
Qed.

(** C8, as stated: a node that is its own parent is recorded at degree 1,
    and its edge-distance from itself is 0. *)
Lemma degree_of_self_parent :
  ∃ result e,
    get_ancestors_with_degree (N:=unit) [] self_parent "A" = Some result ∧
    e ∈ result ∧
    nsteps (parent_step self_parent) 0 "A" (name e) ∧
    0 < degree e.
Proof.
  exists [MkNodeWithDegree None "A" 1], (MkNodeWithDegree None "A" 1).
  split_and!; [by vm_compute|left|constructor|simpl; lia].
Qed.

(** C8, amended: for every edge map and node [n],
    [get_ancestors_with_degree n] and [get_descendants_with_degree n]
    return the breadth-first discovery sequence itself: one record per
    node that a walk of at least one parent edge (child edge) from [n]
    reaches, at the least number of edges of such a walk, in ascending
    degree; for every node other than [n] that number is the edge-distance
    from [n]. *)
Theorem with_degree_contract {N} (nodes : Dict.t N) (edges : EdgeMap)
    (n : string) :
  (∃ discovery result,
     bfs (depth_bound edges) edges [] [(n, 0)] = Some discovery ∧
     get_ancestors_with_degree nodes edges n = Some result ∧
     degree_ranked nodes (parent_step edges) n discovery result) ∧
  (∃ discovery result,
     bfs (depth_bound (_build_children_map edges))
         (_build_children_map edges) [] [(n, 0)] = Some discovery ∧
     get_descendants_with_degree nodes edges n = Some result ∧
     degree_ranked nodes (child_step edges) n discovery result).
Proof.
  split.
  - apply (with_degree_ranked nodes edges n).
  - apply (with_degree_ranked nodes (_build_children_map edges) n).
Qed.

(** C9: for every edge map and every identifier that is not a key,
    [get_parents] returns the empty list and [get_children] returns the
    keys that list the identifier; neither function has an error
    outcome. *)
Theorem unknown_node_queries (edges : EdgeMap) (n : string) :
  n ∉ Dict.keys edges →
  get_parents edges n = [] ∧
  (∀ c, c ∈ get_children edges n ↔ ∃ ps, (c, ps) ∈ edges ∧ n ∈ ps) ∧
  ((∀ c ps, (c, ps) ∈ edges → n ∉ ps) → get_children edges n = []).
Proof.
  intros Hn.
  assert (Hchildren : ∀ c, c ∈ get_children edges n
                           ↔ ∃ ps, (c, ps) ∈ edges ∧ n ∈ ps).
  { intros c. by rewrite build_children_get, elem_of_children_of. }
  split_and!; [|done|].
  - unfold get_parents, Dict.get_or. by apply get_None in Hn as ->.
  - intros Hnone. destruct (get_children edges n) as [|c cs] eqn:Hc; [done|].
    assert (c ∈ c :: cs) as Hin by left.
    apply Hchildren in Hin as (ps & Hin & Hp).
    by destruct (Hnone c ps).
Qed.

Lemma unknown_node_queries_witness :
  ("Z" ∉ Dict.keys diamond) ∧
  get_parents diamond "Z" = [] ∧
  (∀ c, c ∈ get_children diamond "Z" ↔ ∃ ps, (c, ps) ∈ diamond ∧ "Z" ∈ ps) ∧
  ((∀ c ps, (c, ps) ∈ diamond → "Z" ∉ ps) → get_children diamond "Z" = []).
Proof.
  assert (Hz : "Z" ∉ Dict.keys diamond).
  { apply (bool_decide_unpack _). by vm_compute. }
  split; [exact Hz|]. apply (unknown_node_queries diamond "Z" Hz).
Defined.

(** C10: for every edge map, [get_roots] returns the keys whose parent
    list is empty, in key order, and no identifier that is not a key, even
    one that some parent list names. *)
Theorem get_roots_contract (edges : EdgeMap) :
  Dict.wf edges →
  get_roots edges
  = filter (fun n => get_parents edges n = []) (Dict.keys edges) ∧
  ∀ n, n ∉ Dict.keys edges → n ∉ get_roots edges.
Proof.
  intros Hwf. rewrite get_roots_filter_keys by done. split; [done|].
  intros n Hn [_ Hin]%list_elem_of_filter. done.
Qed.

Lemma get_roots_contract_witness :
  Dict.wf docstring_edges ∧
  get_roots docstring_edges
  = filter (fun n => get_parents docstring_edges n = [])
           (Dict.keys docstring_edges) ∧
  ∀ n, n ∉ Dict.keys docstring_edges → n ∉ get_roots docstring_edges.
Proof.
  assert (Hwf : Dict.wf docstring_edges).
  { apply (bool_decide_unpack _). by vm_compute. }
  split; [exact Hwf|]. apply (get_roots_contract docstring_edges Hwf).
Defined.

(** * Further properties of the code *)

(** ** The children index as a dictionary *)

Lemma keys_add_child c (d : Dict.t (list string)) q :
  Dict.keys (add_child c d q)
  = Dict.keys d ++ (if decide (q ∈ Dict.keys d) then [] else [q]).
Proof.
  unfold add_child. destruct (Dict.get q d) as [cs|] eqn:Hq.
  - rewrite keys_set_Some by (by rewrite Hq).
    rewrite decide_True, app_nil_r; [done|].
    apply dec_stable. by rewrite <-get_None, Hq.
  - rewrite (keys_set_None _ _ _ Hq). unfold Dict.keys.
    rewrite fmap_app. simpl. rewrite decide_False; [done|].
    by apply get_None.
Qed.

Lemma keys_add_children c ps : ∀ d : Dict.t (list string),
  ∃ ext,
    Dict.keys (foldl (add_child c) d ps) = Dict.keys d ++ ext ∧
    NoDup ext ∧
    ∀ x, x ∈ ext ↔ x ∈ ps ∧ x ∉ Dict.keys d.
Proof.
  induction ps as [|q ps IH]; intros d; simpl.
  - exists []. rewrite app_nil_r. split_and!; [done|constructor|].
    intros x. split; [by intros ?%elem_of_nil|by intros [?%elem_of_nil _]].
  - destruct (IH (add_child c d q)) as (ext & Hkeys & Hnd & Hext).
    rewrite keys_add_child in Hkeys, Hext.
    destruct (decide (q ∈ Dict.keys d)) as [Hq|Hq].
    + rewrite app_nil_r in Hkeys, Hext. exists ext.
      split_and!; [done|done|]. intros x. rewrite Hext, elem_of_cons.
      split; [by intros [? ?]; auto|]. intros [[->|?] ?]; done.
    + exists (q :: ext). rewrite Hkeys, <-app_assoc. simpl.
      split_and!; [done| |].
      * constructor; [|done]. rewrite Hext, elem_of_app, list_elem_of_singleton.
        intros [_ Hn]. apply Hn. by right.
      * intros x. rewrite !elem_of_cons, Hext, elem_of_app,
          list_elem_of_singleton. split.
        -- intros [->|[? Hn]]; [by auto|]. split; [by auto|]. tauto.
        -- intros [[->|?] ?]; [by left|].
           destruct (decide (x = q)); [by left|right]. split; [done|]. tauto.
Qed.

Lemma keys_build_fold (edges : EdgeMap) : ∀ d : Dict.t (list string),
  ∃ ext,
    Dict.keys
      (foldl (fun children '(child_name, parent_names) =>
                foldl (add_child child_name) children parent_names) d edges)
    = Dict.keys d ++ ext ∧
    NoDup ext ∧
    ∀ x, x ∈ ext ↔ (∃ c ps, (c, ps) ∈ edges ∧ x ∈ ps) ∧ x ∉ Dict.keys d.
Proof.
  induction edges as [|[c ps] es IH]; intros d; simpl.
  - exists []. rewrite app_nil_r. split_and!; [done|constructor|].
    intros x. split; [by intros ?%elem_of_nil|].
    by intros [(? & ? & ?%elem_of_nil & _) _].
  - destruct (keys_add_children c ps d) as (ext1 & Hk1 & Hnd1 & Hext1).
    destruct (IH (foldl (add_child c) d ps)) as (ext2 & Hk2 & Hnd2 & Hext2).
    rewrite Hk1 in Hk2, Hext2. exists (ext1 ++ ext2).
    rewrite Hk2, <-app_assoc. split_and!; [done| |].
    + apply NoDup_app. split_and!; [done| |done].
      intros x Hx1 [_ Hn]%Hext2. apply Hn, elem_of_app. by right.
    + intros x. rewrite elem_of_app, Hext1, Hext2, elem_of_app, Hext1.
      split.
      * intros [[Hx Hn]|[(c' & ps' & Hin & Hx) Hn]].
        -- split; [|done]. exists c, ps. split; [left|done].
        -- split; [|tauto]. exists c', ps'. split; [by right|done].
      * intros [(c' & ps' & [[= -> ->]|Hin]%elem_of_cons & Hx) Hn].
        -- by left.
        -- destruct (decide (x ∈ ps)) as [Hps|Hps]; [by left|right].
           split; [by exists c', ps'|]. tauto.
Qed.

Lemma children_map_keys (edges : EdgeMap) :
  ∃ ext,
    Dict.keys (_build_children_map edges) = Dict.keys edges ++ ext ∧
    NoDup ext ∧
    ∀ x, x ∈ ext ↔ (∃ c ps, (c, ps) ∈ edges ∧ x ∈ ps) ∧ x ∉ Dict.keys edges.
Proof.
  unfold _build_children_map.
  destruct (keys_build_fold edges
              ((fun name : string => (name, @nil string)) <$> Dict.keys edges))
    as (ext & Hkeys & Hnd & Hext).
  assert (Dict.keys ((fun name : string => (name, @nil string))
                       <$> Dict.keys edges) = Dict.keys edges) as Hinit.
  { unfold Dict.keys. rewrite <-list_fmap_compose. apply list_fmap_id. }
  rewrite Hinit in Hkeys, Hext. by exists ext.
Qed.

Lemma children_map_wf (edges : EdgeMap) :
  Dict.wf edges → Dict.wf (_build_children_map edges).
Proof.
  intros Hwf. destruct (children_map_keys edges) as (ext & Hkeys & Hnd & Hext).
  unfold Dict.wf. rewrite Hkeys. apply NoDup_app. split_and!; [done| |done].
  intros x Hx [_ Hn]%Hext. done.
Qed.

(** The entries of a dictionary with an empty list, read through its
    keys. *)
Lemma empty_entries_filter_keys (d : Dict.t (list string)) :
  Dict.wf d →
  (filter (fun item => item.2 = []) d).*1
  = filter (fun n => Dict.get_or n [] d = []) (Dict.keys d).
Proof. apply get_roots_filter_keys. Qed.

(** X1: for an edge map with unique keys, the children index has unique
    keys, which are the keys of the edge map, in their order, followed by
    the identifiers that only occur as parents; a node is listed under a
    parent as often as the parent occurs in the node's parent list, and
    only keys of the edge map are listed. *)
Theorem children_index_shape (edges : EdgeMap) :
  Dict.wf edges →
  Dict.wf (_build_children_map edges) ∧
  Dict.keys edges `prefix_of` Dict.keys (_build_children_map edges) ∧
  (∀ x, x ∈ Dict.keys (_build_children_map edges) ↔
        x ∈ Dict.keys edges ∨ ∃ c, parent_step edges c x) ∧
  (∀ p c, count c (get_children edges p) = count p (get_parents edges c)) ∧
  (∀ p c, c ∈ get_children edges p → c ∈ Dict.keys edges).
Proof.
  intros Hwf. destruct (children_map_keys edges) as (ext & Hkeys & Hnd & Hext).
  split_and!.
  - by apply children_map_wf.
  - rewrite Hkeys. by exists ext.
  - intros x. rewrite Hkeys, elem_of_app, Hext. split.
    + intros [?|[(c & ps & Hin & Hx) _]]; [by left|right].
      exists c. unfold parent_step, get_parents, Dict.get_or.
      by rewrite (elem_get_Some _ _ _ Hwf Hin).
    + intros [?|[c Hc]]; [by left|].
      destruct (decide (x ∈ Dict.keys edges)); [by left|right].
      split; [|done]. exists c, (get_parents edges c). split; [|done].
      unfold parent_step, get_parents, Dict.get_or in *.
      destruct (Dict.get c edges) eqn:Hget; [|by apply elem_of_nil in Hc].
      by apply get_Some_elem.
  - intros p c. rewrite build_children_get. by apply count_children.
  - intros p c. rewrite build_children_get. apply children_are_keys.
Qed.

Lemma children_index_shape_witness :
  Dict.wf docstring_edges ∧
  Dict.wf (_build_children_map docstring_edges) ∧
  Dict.keys docstring_edges
    `prefix_of` Dict.keys (_build_children_map docstring_edges) ∧
  (∀ x, x ∈ Dict.keys (_build_children_map docstring_edges) ↔
        x ∈ Dict.keys docstring_edges ∨ ∃ c, parent_step docstring_edges c x) ∧
  (∀ p c, count c (get_children docstring_edges p)
          = count p (get_parents docstring_edges c)) ∧
  (∀ p c, c ∈ get_children docstring_edges p → c ∈ Dict.keys docstring_edges).
Proof.
  assert (Hwf : Dict.wf docstring_edges).
  { apply (bool_decide_unpack _). by vm_compute. }
  split; [exact Hwf|]. apply (children_index_shape docstring_edges Hwf).
Defined.

Lemma get_leaves_filter_keys (edges : EdgeMap) :
  Dict.wf edges →
  get_leaves edges
  = filter (fun n => get_children edges n = []) (Dict.keys edges).
Proof.
  intros Hwf. unfold get_leaves.
  rewrite empty_entries_filter_keys by (by apply children_map_wf).
  destruct (children_map_keys edges) as (ext & -> & Hnd & Hext).
  rewrite filter_app.
  assert (filter (λ n, Dict.get_or n [] (_build_children_map edges) = [])
                 ext = []) as ->; [|by rewrite app_nil_r].
  destruct (filter _ ext) as [|x rest] eqn:Hf; [done|]. exfalso.
  assert (x ∈ x :: rest) as Hin by left. rewrite <-Hf in Hin.
  apply list_elem_of_filter in Hin as [Hnil [(c & ps & Hin & Hx) _]%Hext].
  assert (c ∈ get_children edges x) as Hc.
  { rewrite build_children_get. apply elem_of_children_of. eauto. }
  unfold get_children in Hc. rewrite Hnil in Hc. by apply elem_of_nil in Hc.
Qed.

(** X2: for an edge map with unique keys, [get_leaves] returns the keys
    that have no child, in key order; an identifier that only occurs as a
    parent has a child and is never returned. *)
Theorem get_leaves_contract (edges : EdgeMap) :
  Dict.wf edges →
  get_leaves edges
  = filter (fun n => get_children edges n = []) (Dict.keys edges) ∧
  ∀ n, n ∉ Dict.keys edges → n ∉ get_leaves edges.
Proof.
  intros Hwf. rewrite (get_leaves_filter_keys edges Hwf). split; [done|].
  intros n Hn [_ Hin]%list_elem_of_filter. done.
Qed.

Lemma get_leaves_contract_witness :
  Dict.wf docstring_edges ∧
  get_leaves docstring_edges
  = filter (fun n => get_children docstring_edges n = [])
           (Dict.keys docstring_edges) ∧
  ∀ n, n ∉ Dict.keys docstring_edges → n ∉ get_leaves docstring_edges.
Proof.
  assert (Hwf : Dict.wf docstring_edges).
  { apply (bool_decide_unpack _). by vm_compute. }
  split; [exact Hwf|]. apply (get_leaves_contract docstring_edges Hwf).
Defined.

(** ** Roots and leaves of graphs without cycles *)

Lemma listed_sink (nbrs : string → list string) :
  (∀ x, ¬ tc (listed nbrs) x x) →
  ∀ (n : nat) (among : gset string) (x : string),
    size among ≤ n → x ∈ among →
    ∃ s, s ∈ among ∧ rtc (listed nbrs) x s ∧
         ∀ y, listed nbrs s y → y ∉ among.
Proof.
  intros Hacyc. induction n as [|n IH]; intros among x Hsz Hx.
  { assert (size among ≠ 0); [|lia]. apply size_non_empty_iff. set_solver. }
  destruct (filter (.∈ among) (nbrs x)) as [|p ps] eqn:Hps.
  - exists x. split_and!; [done|done|]. intros p Hp Hin.
    assert (p ∈ filter (.∈ among) (nbrs x)) as Hf
      by (by apply list_elem_of_filter).
    rewrite Hps in Hf. by apply elem_of_nil in Hf.
  - assert (p ∈ filter (.∈ among) (nbrs x)) as
      [Hpn Hxp]%list_elem_of_filter by (rewrite Hps; left).
    assert (Hne : p ≠ x).
    { intros ->. apply (Hacyc x). by apply tc_once. }
    destruct (IH (among ∖ {[x]}) p) as (s & Hs & Hreach & Hsink).
    { assert (size among
              = size ({[x]} : gset string) + size (among ∖ {[x]})) as Heq.
      { rewrite <-size_union by set_solver. f_equal.
        apply set_eq. intros y. destruct (decide (y = x)); set_solver. }
      rewrite size_singleton in Heq. lia. }
    { set_solver. }
    exists s. split_and!; [set_solver|by apply rtc_l with p|].
    intros q Hq Hqn. destruct (decide (q = x)) as [->|Hqx].
    + apply (Hacyc x). apply tc_rtc_r with s; [|by apply rtc_once].
      by apply tc_rtc_r with p; [apply tc_once|].
    + apply (Hsink q Hq). set_solver.
Qed.

(** X3: in an edge map with unique keys and no cycle, following children
    from any key ends in a leaf that [get_leaves] returns; when every
    parent is a key, following parents from any key ends in a root that
    [get_roots] returns. *)
Theorem leaves_and_roots_reached (edges : EdgeMap) (x : string) :
  Dict.wf edges → acyclic edges → x ∈ Dict.keys edges →
  (∃ l, l ∈ get_leaves edges ∧ rtc (child_step edges) x l) ∧
  (closed edges → ∃ r, r ∈ get_roots edges ∧ rtc (parent_step edges) x r).
Proof.
  intros Hwf Hacyc Hx.
  set (keys := list_to_set (Dict.keys edges) : gset string).
  assert (Hkeys : ∀ y, y ∈ keys ↔ y ∈ Dict.keys edges)
    by (intros y; apply elem_of_list_to_set).
  split.
  - destruct (listed_sink (get_children edges)) with (n := size keys)
      (among := keys) (x := x) as (l & Hl & Hreach & Hsink);
      [|done|by apply Hkeys|].
    { intros y Hy. apply (Hacyc y). by apply tc_children_parents. }
    exists l. split; [|done].
    rewrite (get_leaves_filter_keys edges Hwf).
    apply list_elem_of_filter. split; [|by apply Hkeys].
    destruct (get_children edges l) as [|c cs] eqn:Hc; [done|]. exfalso.
    apply (Hsink c); [unfold listed; rewrite Hc; left|].
    apply Hkeys. apply (children_are_keys edges l).
    rewrite <-build_children_get, Hc. left.
  - intros Hclosed.
    destruct (listed_sink (get_parents edges)) with (n := size keys)
      (among := keys) (x := x) as (r & Hr & Hreach & Hsink);
      [done|done|by apply Hkeys|].
    exists r. split; [|done].
    rewrite get_roots_filter_keys by done.
    apply list_elem_of_filter. split; [|by apply Hkeys].
    destruct (get_parents edges r) as [|p ps] eqn:Hp; [done|]. exfalso.
    apply (Hsink p); [unfold listed; rewrite Hp; left|].
    apply Hkeys, (Hclosed r). unfold parent_step. rewrite Hp. left.
Qed.

Lemma leaves_and_roots_reached_witness :
  (∃ l, l ∈ get_leaves diamond ∧ rtc (child_step diamond) "B" l) ∧
  (∃ r, r ∈ get_roots diamond ∧ rtc (parent_step diamond) "B" r).
Proof.
  destruct (leaves_and_roots_reached diamond "B") as [Hleaf Hroot].
  - apply diamond_wf.
  - apply diamond_acyclic.
  - apply (bool_decide_unpack _). by vm_compute.
  - split; [exact Hleaf|]. apply Hroot, diamond_closed.
Defined.

(** ** Ancestor and descendant tests *)

Lemma get_ancestors_reach (edges : EdgeMap) (n : string) :
  ∃ anc, get_ancestors edges n = Some anc ∧ NoDup anc ∧
         ∀ x, x ∈ anc ↔ tc (parent_step edges) n x.
Proof.
  destruct (dfs_first_visit edges n) as (anc & Hanc & _).
  exists anc. split; [done|]. by apply (dfs_reach _ _ _ Hanc).
Qed.

Lemma get_descendants_reach (edges : EdgeMap) (n : string) :
  ∃ desc, get_descendants edges n = Some desc ∧ NoDup desc ∧
          ∀ x, x ∈ desc ↔ tc (child_step edges) n x.
Proof.
  destruct (dfs_first_visit (_build_children_map edges) n)
    as (desc & Hdesc & _).
  exists desc. split; [done|]. by apply (dfs_reach _ _ _ Hdesc).
Qed.

Lemma is_ancestor_reach (edges : EdgeMap) (a n : string) :
  ∃ answer, is_ancestor edges a n = Some answer ∧
            (answer = true ↔ a ≠ n ∧ tc (parent_step edges) n a).
Proof.
  unfold is_ancestor. destruct (decide (a = n)) as [->|Hne].
  - exists false. split; [done|]. split; [done|by intros [? _]].
  - destruct (get_ancestors_reach edges n) as (anc & -> & _ & Hanc).
    eexists. split; [done|]. simpl.
    rewrite bool_decide_eq_true, Hanc. tauto.
Qed.

Lemma is_descendant_reach (edges : EdgeMap) (d n : string) :
  ∃ answer, is_descendant edges d n = Some answer ∧
            (answer = true ↔ d ≠ n ∧ tc (child_step edges) n d).
Proof.
  unfold is_descendant. destruct (decide (d = n)) as [->|Hne].
  - exists false. split; [done|]. split; [done|by intros [? _]].
  - destruct (get_descendants_reach edges n) as (desc & -> & _ & Hdesc).
    eexists. split; [done|]. simpl.
    rewrite bool_decide_eq_true, Hdesc. tauto.
Qed.

(** X4: [is_ancestor a n] always answers, and answers [True] exactly
    when [a] differs from [n] and a walk of parent edges leads from [n] to
    [a]; a node on a cycle is in its own [get_ancestors] list and still
    not its own ancestor for [is_ancestor]. *)
Theorem is_ancestor_contract (edges : EdgeMap) (a n : string) :
  (∃ answer anc,
     is_ancestor edges a n = Some answer ∧
     get_ancestors edges n = Some anc ∧
     (answer = true ↔ a ≠ n ∧ a ∈ anc) ∧
     (answer = true ↔ a ≠ n ∧ tc (parent_step edges) n a)) ∧
  is_ancestor two_cycle "A" "A" = Some false ∧
  get_ancestors two_cycle "A" = Some ["B"; "A"].
Proof.
  split; [|by vm_compute].
  destruct (is_ancestor_reach edges a n) as (answer & Hrun & Hanswer).
  destruct (get_ancestors_reach edges n) as (anc & Hanc & _ & Hreach).
  exists answer, anc. split_and!; [done|done| |done].
  by rewrite Hanswer, Hreach.
Qed.

(** X5: on an edge map with unique keys, [a] is an ancestor of [b] for
    [is_ancestor] exactly when [b] is a descendant of [a] for
    [is_descendant], and [x] is in [get_ancestors n] exactly when [n] is
    in [get_descendants x]. *)
Theorem ancestor_descendant_duality (edges : EdgeMap) (a b : string) :
  Dict.wf edges →
  is_ancestor edges a b = is_descendant edges b a ∧
  ∃ anc desc,
    get_ancestors edges b = Some anc ∧
    get_descendants edges a = Some desc ∧
    (a ∈ anc ↔ b ∈ desc).
Proof.
  intros Hwf. split.
  - destruct (is_ancestor_reach edges a b) as (x & -> & Hx).
    destruct (is_descendant_reach edges b a) as (y & -> & Hy).
    f_equal. apply eq_true_iff_eq. rewrite Hx, Hy.
    rewrite (tc_children_parents edges a b Hwf). split; intros [? ?]; auto.
  - destruct (get_ancestors_reach edges b) as (anc & Hanc & _ & Hreach).
    destruct (get_descendants_reach edges a) as (desc & Hdesc & _ & Hreach').
    exists anc, desc. split_and!; [done|done|].
    by rewrite Hreach, Hreach', (tc_children_parents edges a b Hwf).
Qed.

Lemma ancestor_descendant_duality_witness :
  is_ancestor diamond "A" "D" = is_descendant diamond "D" "A" ∧
  ∃ anc desc,
    get_ancestors diamond "D" = Some anc ∧
    get_descendants diamond "A" = Some desc ∧
    ("A" ∈ anc ↔ "D" ∈ desc).
Proof. apply (ancestor_descendant_duality diamond "A" "D"), diamond_wf. Defined.

(** X6: on an edge map without cycles [is_ancestor] is a strict order:
    when [a] is an ancestor of [b] and [b] one of [c], then [a] is an
    ancestor of [c], and none of the three tests is true the other way
    round. *)
Theorem is_ancestor_strict_order (edges : EdgeMap) (a b c : string) :
  acyclic edges →
  is_ancestor edges a b = Some true →
  is_ancestor edges b c = Some true →
  is_ancestor edges a c = Some true ∧
  is_ancestor edges b a = Some false ∧
  is_ancestor edges c b = Some false ∧
  is_ancestor edges c a = Some false.
Proof.
  intros Hacyc Hab Hbc.
  assert (Hyes : ∀ x y, is_ancestor edges x y = Some true →
                        tc (parent_step edges) y x).
  { intros x y Hrun. destruct (is_ancestor_reach edges x y) as (r & Hr & Hrs).
    rewrite Hrun in Hr. injection Hr as <-. by apply Hrs. }
  assert (Hno : ∀ x y, tc (parent_step edges) x y →
                       is_ancestor edges x y = Some false).
  { intros x y Hxy. destruct (is_ancestor_reach edges x y) as (r & -> & Hrs).
    f_equal. destruct r; [|done]. destruct Hrs as [[_ Hyx] _]; [done|].
    destruct (Hacyc x). by etrans. }
  apply Hyes in Hab, Hbc.
  assert (tc (parent_step edges) c a) as Hca by (by etrans).
  split_and!; [|by apply Hno..].
  destruct (is_ancestor_reach edges a c) as (r & -> & Hrs). f_equal.
  apply Hrs. split; [|done]. intros ->. by apply (Hacyc c).
Qed.

Lemma is_ancestor_strict_order_witness :
  is_ancestor diamond "A" "B" = Some true ∧
  is_ancestor diamond "B" "D" = Some true ∧
  is_ancestor diamond "A" "D" = Some true ∧
  is_ancestor diamond "B" "A" = Some false ∧
  is_ancestor diamond "D" "B" = Some false ∧
  is_ancestor diamond "D" "A" = Some false.
Proof.
  assert (Hab : is_ancestor diamond "A" "B" = Some true) by (by vm_compute).
  assert (Hbd : is_ancestor diamond "B" "D" = Some true) by (by vm_compute).
  split; [exact Hab|]. split; [exact Hbd|].
  apply (is_ancestor_strict_order diamond "A" "B" "D" diamond_acyclic Hab Hbd).
Defined.

(** ** [get_relationship] *)

Lemma get_relationship_holds (edges : EdgeMap) (a b : string) :
  Dict.wf edges →
  ∃ r, get_relationship edges a b = Some r ∧
       ∀ r', relationship_holds edges a b r' ↔ r' = r.
Proof.
  intros Hwf. unfold get_relationship.
  destruct (is_ancestor_reach edges a b) as (x & Hx & Hxs).
  destruct (is_descendant_reach edges a b) as (y & Hy & Hys).
  rewrite (tc_children_parents edges b a Hwf) in Hys.
  fold (get_parents edges b) (get_parents edges a).
  fold (parent_step edges b a) (parent_step edges a b).
  pose proof (tc_once (parent_step edges) b a) as Hba.
  pose proof (tc_once (parent_step edges) a b) as Hab'.
  destruct (decide (a = b)) as [Hab|Hab].
  { eexists. split; [done|]. intros []; simpl; split; try done; tauto. }
  destruct (decide (parent_step edges b a)) as [Hp|Hp].
  { eexists. split; [done|]. intros []; simpl; split; try done; tauto. }
  destruct (decide (parent_step edges a b)) as [Hc|Hc].
  { eexists. split; [done|]. intros []; simpl; split; try done; tauto. }
  rewrite Hx. destruct x.
  { eexists. split; [done|]. intros []; simpl; split; try done; tauto. }
  assert (¬ tc (parent_step edges) b a) as Hnba.
  { intros Hwalk.
    by destruct Hxs as [_ Hfalse]; specialize (Hfalse (conj Hab Hwalk)). }
  rewrite Hy. destruct y.
  - eexists. split; [done|].
    intros []; simpl; split; try done; tauto.
  - eexists. split; [done|].
    assert (¬ tc (parent_step edges) a b) as Hnab.
    { intros Hwalk.
      by destruct Hys as [_ Hfalse]; specialize (Hfalse (conj Hab Hwalk)). }
    intros []; simpl; split; try done; tauto.
Qed.

(** X7: on an edge map with unique keys [get_relationship a b] always
    answers, with the first of self, parent, child, ancestor, descendant,
    unconnected that applies: the answer is the only one whose condition
    holds. *)
Theorem get_relationship_contract (edges : EdgeMap) (a b : string) :
  Dict.wf edges →
  ∃ r, get_relationship edges a b = Some r ∧
       ∀ r', relationship_holds edges a b r' ↔ r' = r.
Proof. apply get_relationship_holds. Qed.

Lemma get_relationship_contract_witness :
  ∃ r, get_relationship diamond "A" "D" = Some r ∧
       ∀ r', relationship_holds diamond "A" "D" r' ↔ r' = r.
Proof. apply (get_relationship_contract diamond "A" "D"), diamond_wf. Defined.

(** X8: on an edge map with unique keys and no cycle, swapping the two
    nodes turns the answer of [get_relationship] into its converse:
    parent and child change places, ancestor and descendant change
    places, self and unconnected stay. *)
Theorem get_relationship_converse (edges : EdgeMap) (a b : string) :
  Dict.wf edges → acyclic edges →
  get_relationship edges b a = converse <$> get_relationship edges a b.
Proof.
  intros Hwf Hacyc.
  destruct (get_relationship_holds edges a b Hwf) as (r & -> & Hr).
  destruct (get_relationship_holds edges b a Hwf) as (r' & -> & Hr').
  simpl. f_equal. symmetry. apply Hr'.
  assert (Hholds : relationship_holds edges a b r) by (by apply Hr).
  assert (Hno : ∀ x y, tc (parent_step edges) x y →
                       ¬ tc (parent_step edges) y x).
  { intros x y Hxy Hyx. apply (Hacyc x). by etrans. }
  pose proof (tc_once (parent_step edges) b a) as Hba.
  pose proof (tc_once (parent_step edges) a b) as Hab.
  pose proof (Hno a b) as Hno1. pose proof (Hno b a) as Hno2.
  clear Hr Hr'. destruct r; simpl in *; naive_solver.
Qed.

Lemma get_relationship_converse_witness :
  get_relationship diamond "D" "A"
  = converse <$> get_relationship diamond "A" "D".
Proof.
  apply (get_relationship_converse diamond "A" "D");
    [apply diamond_wf|apply diamond_acyclic].
Defined.

(** ** [would_create_cycle] and [is_ancestor] *)

(** X9: on an edge map with unique keys [would_create_cycle s t] always
    answers, and answers [True] exactly when [s] is [t] or [t] is an
    ancestor of [s] for [is_ancestor]. *)
Theorem would_create_cycle_is_ancestor (edges : EdgeMap) (s t : string) :
  Dict.wf edges →
  ∃ answer above,
    would_create_cycle edges s t = Some answer ∧
    is_ancestor edges t s = Some above ∧
    (answer = true ↔ s = t ∨ above = true).
Proof.
  intros Hwf.
  destruct (would_create_cycle_spec edges s t Hwf) as (answer & -> & Hanswer).
  destruct (is_ancestor_reach edges t s) as (above & -> & Habove).
  exists answer, above. split_and!; [done|done|].
  rewrite Hanswer, Habove, rtc_tc. split.
  - intros [->|Hwalk]; [by left|].
    destruct (decide (s = t)); [by left|right]. by split.
  - intros [->|[_ ?]]; [by left|by right].
Qed.

Lemma would_create_cycle_is_ancestor_witness :
  ∃ answer above,
    would_create_cycle diamond "D" "A" = Some answer ∧
    is_ancestor diamond "A" "D" = Some above ∧
    (answer = true ↔ "D" = "A" ∨ above = true).
Proof. apply (would_create_cycle_is_ancestor diamond "D" "A"), diamond_wf. Defined.

(** ** [topological_sort] *)

(** X10: on an edge map with unique keys in which every parent is a key
    and there is no cycle, [topological_sort] returns an order that holds
    every key once and in which the position of every parent is before its
    child's. *)
Theorem topological_sort_orders_dag (edges : EdgeMap) :
  Dict.wf edges → closed edges → acyclic edges →
  ∃ order,
    topological_sort edges = Some (Return order) ∧
    order ≡ₚ Dict.keys edges ∧
    NoDup order ∧
    parents_first edges order.
Proof.
  intros Hwf Hclosed Hacyc.
  destruct (topological_sort_complete edges Hwf Hclosed Hacyc)
    as (order & Hrun & Hperm & Hord).
  exists order. split_and!; [done|done| |done]. by rewrite Hperm.
Qed.

Lemma topological_sort_orders_dag_witness :
  ∃ order,
    topological_sort diamond = Some (Return order) ∧
    order ≡ₚ Dict.keys diamond ∧
    NoDup order ∧
    parents_first diamond order.
Proof.
  apply (topological_sort_orders_dag diamond);
    [apply diamond_wf|apply diamond_closed|apply diamond_acyclic].
Defined.

(** X11: on an edge map with unique keys [topological_sort] never raises
    [KeyError] and has two outcomes only: it returns an order exactly
    when every parent is a key and there is no cycle, and raises the
    [ValueError] of the cycle message otherwise. *)
Theorem topological_sort_outcomes (edges : EdgeMap) :
  Dict.wf edges →
  ((∃ order, topological_sort edges = Some (Return order)) ↔
   closed edges ∧ acyclic edges) ∧
  (topological_sort edges = Some (Raise (ValueError cycle_message)) ↔
   ¬ (closed edges ∧ acyclic edges)) ∧
  (∀ key, topological_sort edges ≠ Some (Raise (KeyError key))) ∧
  topological_sort edges ≠ None.
Proof.
  intros Hwf. split_and!.
  - split.
    + intros [order Hrun].
      by apply (topological_sort_sound edges Hwf) in Hrun as (_ & _ & ? & ?).
    + intros [Hclosed Hacyc].
      destruct (topological_sort_complete edges Hwf Hclosed Hacyc)
        as (order & Hrun & _).
      by exists order.
  - by apply topological_sort_fails.
  - intros key Hrun.
    destruct (topological_sort_outcome edges Hwf) as [[order Hok]|Herr];
      congruence.
  - intros Hrun.
    destruct (topological_sort_outcome edges Hwf) as [[order Hok]|Herr];
      congruence.
Qed.

Lemma topological_sort_outcomes_witness :
  ((∃ order, topological_sort two_cycle = Some (Return order)) ↔
   closed two_cycle ∧ acyclic two_cycle) ∧
  (topological_sort two_cycle = Some (Raise (ValueError cycle_message)) ↔
   ¬ (closed two_cycle ∧ acyclic two_cycle)) ∧
  (∀ key, topological_sort two_cycle ≠ Some (Raise (KeyError key))) ∧
  topological_sort two_cycle ≠ None.
Proof.
  apply (topological_sort_outcomes two_cycle).
  apply (bool_decide_unpack _). by vm_compute.
Defined.

Lemma kahn_visit_queue_prefix children : ∀ in_degree queue st,
  try_each kahn_visit children (in_degree, queue) = Return st →
  queue `prefix_of` st.2.
Proof.
  induction children as [|c children IH]; intros in_degree queue st; simpl.
  - by intros [= <-].
  - unfold kahn_visit at 1. simpl.
    destruct (Dict.get c in_degree) as [d|]; [|done].
    case_decide.
    + intros Hrun%IH. etrans; [|done]. by apply prefix_app_r.
    + apply IH.
Qed.

Lemma kahn_loop_prefix children_map fuel : ∀ in_degree queue result order,
  kahn_loop fuel children_map in_degree queue result = Some (Return order) →
  result ++ queue `prefix_of` order.
Proof.
  induction fuel as [|fuel IH]; intros in_degree queue result order;
    (destruct queue as [|node queue];
     [simpl; intros [= <-]; by rewrite app_nil_r|]); simpl; [done|].
  destruct (try_each kahn_visit _ _) as [[deg' queue']|] eqn:Hinner; [|done].
  apply kahn_visit_queue_prefix in Hinner. simpl in *.
  intros Hrun%IH. etrans; [|done].
  rewrite <-app_assoc. simpl. by apply prefix_app, prefix_cons.
Qed.

Lemma initial_queue_roots (edges : EdgeMap) :
  (filter (fun item : string * Z => item.2 = 0%Z)
     ((fun item : string * list string =>
         (item.1, Z.of_nat (length item.2))) <$> edges)).*1
  = get_roots edges.
Proof.
  unfold get_roots. induction edges as [|[k ps] es IH]; [done|].
  rewrite fmap_cons, !filter_cons. simpl.
  destruct ps as [|p ps]; simpl.
  - f_equal. apply IH.
  - apply IH.
Qed.

(** X12: whenever [topological_sort] returns an order, the order starts
    with the roots that [get_roots] returns, in key order. *)
Theorem topological_sort_starts_with_roots (edges : EdgeMap)
    (order : list string) :
  topological_sort edges = Some (Return order) →
  get_roots edges `prefix_of` order.
Proof.
  unfold topological_sort. cbv zeta.
  destruct (kahn_loop _ _ _ _ _) as [[order'|]|] eqn:Hloop; [|done..].
  case_decide; [done|]. intros [= <-].
  apply kahn_loop_prefix in Hloop. simpl in Hloop.
  by rewrite initial_queue_roots in Hloop.
Qed.

Lemma topological_sort_starts_with_roots_witness :
  get_roots diamond `prefix_of` ["A"; "B"; "C"; "D"].
Proof.
  apply (topological_sort_starts_with_roots diamond). by vm_compute.
Defined.

(** X13: whenever [topological_sort] returns an order for an edge map
    with unique keys, every member of [get_ancestors x] has its position
    in the order before the position of [x]. *)
Theorem topological_sort_ancestors_first (edges : EdgeMap)
    (order anc : list string) (x : string) :
  Dict.wf edges →
  topological_sort edges = Some (Return order) →
  get_ancestors edges x = Some anc →
  ∀ i a, order !! i = Some x → a ∈ anc →
         ∃ j, j < i ∧ order !! j = Some a.
Proof.
  intros Hwf Hrun Hanc i a Hi Ha.
  apply (topological_sort_sound edges Hwf) in Hrun as (Hperm & Hord & _ & _).
  assert (Hnd : NoDup order) by (by rewrite Hperm).
  destruct (get_ancestors_reach edges x) as (anc' & Hanc' & _ & Hreach).
  rewrite Hanc in Hanc'. injection Hanc' as <-. apply Hreach in Ha.
  clear Hanc Hreach. revert i Hi.
  induction Ha as [x a Hxa|x y a Hxy _ IH]; intros i Hi.
  - by apply (Hord i x a).
  - destruct (Hord i x y Hi Hxy) as (j & Hj & Hy).
    destruct (IH j Hy) as (k & Hk & Hka). exists k. split; [lia|done].
Qed.

Lemma topological_sort_ancestors_first_witness :
  ∃ j, j < 3 ∧ ["A"; "B"; "C"; "D"] !! j = Some "C".
Proof.
  apply (topological_sort_ancestors_first diamond
           ["A"; "B"; "C"; "D"] ["B"; "A"; "C"] "D").
  - apply diamond_wf.
  - by vm_compute.
  - by vm_compute.
  - reflexivity.
  - apply (bool_decide_unpack _). by vm_compute.
Defined.

(** ** Degree-ranked queries and plain traversals *)

Lemma bfs_visited_reach (adj : Dict.t (list string)) (start : string)
    (visited : Dict.t nat) :
  bfs (depth_bound adj) adj [] [(start, 0)] = Some visited →
  ∀ x, x ∈ visited.*1 ↔ tc (edge adj) start x.
Proof.
  intros Hrun x.
  destruct (bfs_loop adj start (depth_bound adj) [] [(start, 0)])
    as (final & Hrun' & Hinv); [apply bfs_inv_init| |].
  { simpl. unfold depth_bound. pose proof (size_universe adj).
    assert (universe adj ∖ ∅ ⊆ universe adj) as ?%subseteq_size
      by set_solver.
    lia. }
  rewrite Hrun in Hrun'. injection Hrun' as <-. split.
  - intros [[y d] [-> Hin]]%list_elem_of_fmap. simpl.
    destruct (bi_sound _ _ _ _ Hinv y d Hin) as [Hd Hwalk].
    apply tc_nsteps. exists d. split; [lia|done].
  - intros (k & Hk & Hwalk)%tc_nsteps.
    destruct (bfs_least adj start visited Hinv k x) as (d & Hget & _);
      [lia|done|].
    apply list_elem_of_fmap. exists (x, d). split; [done|].
    by apply get_Some_elem.
Qed.

Lemma with_degree_names {N} (nodes : Dict.t N) (adj : Dict.t (list string))
    (start : string) :
  ∃ result order,
    with_degree nodes adj start = Some result ∧
    dfs adj start = Some order ∧
    name <$> result ≡ₚ order.
Proof.
  destruct (with_degree_spec nodes adj start)
    as (visited & Hrun & -> & Hnd & _ & _).
  destruct (dfs_first_visit adj start) as (order & Horder & _).
  exists ((fun item => MkNodeWithDegree (Dict.get item.1 nodes)
                                        item.1 item.2) <$> visited), order.
  split_and!; [done|done|].
  assert (name <$> ((fun item : string * nat =>
                       MkNodeWithDegree (Dict.get item.1 nodes)
                                        item.1 item.2) <$> visited)
          = visited.*1) as ->.
  { rewrite <-list_fmap_compose. by apply list_fmap_ext. }
  apply NoDup_Permutation; [done|by apply (dfs_reach _ _ _ Horder)|].
  intros x. rewrite (bfs_visited_reach adj start visited Hrun).
  symmetry. by apply (dfs_reach _ _ _ Horder).
Qed.

(** X14: for every edge map and node, the names that
    [get_ancestors_with_degree] records are the members of
    [get_ancestors], each once, and likewise for the descendants; only
    the order of the two results differs. *)
Theorem with_degree_same_nodes {N} (nodes : Dict.t N) (edges : EdgeMap)
    (n : string) :
  (∃ result anc,
     get_ancestors_with_degree nodes edges n = Some result ∧
     get_ancestors edges n = Some anc ∧
     name <$> result ≡ₚ anc) ∧
  (∃ result desc,
     get_descendants_with_degree nodes edges n = Some result ∧
     get_descendants edges n = Some desc ∧
     name <$> result ≡ₚ desc).
Proof.
  split.
  - apply (with_degree_names nodes edges n).
  - apply (with_degree_names nodes (_build_children_map edges) n).
Qed.

(** X15: the records of degree 1 of [get_ancestors_with_degree n] are
    the direct parents of [n], and those of
    [get_descendants_with_degree n] its direct children. *)
Theorem degree_one_is_direct {N} (nodes : Dict.t N) (edges : EdgeMap)
    (n : string) :
  (∃ result,
     get_ancestors_with_degree nodes edges n = Some result ∧
     ∀ x, (∃ e, e ∈ result ∧ name e = x ∧ degree e = 1)
          ↔ x ∈ get_parents edges n) ∧
  (∃ result,
     get_descendants_with_degree nodes edges n = Some result ∧
     ∀ x, (∃ e, e ∈ result ∧ name e = x ∧ degree e = 1)
          ↔ x ∈ get_children edges n).
Proof.
  assert (Hone : ∀ (R : relation string) x,
            is_degree R n x 1 ↔ R n x).
  { intros R x. unfold is_degree. split.
    - intros (_ & Hwalk & _). by apply nsteps_once_inv.
    - intros Hstep. split_and!; [done|by apply nsteps_once|by intros]. }
  split.
  - destruct (with_degree_ranked nodes edges n)
      as (discovery & result & _ & Hrun & _ & _ & _ & Hdeg & _).
    exists result. split; [done|]. intros x. by rewrite Hdeg, Hone.
  - destruct (with_degree_ranked nodes (_build_children_map edges) n)
      as (discovery & result & _ & Hrun & _ & _ & _ & Hdeg & _).
    exists result. split; [done|]. intros x. by rewrite Hdeg, Hone.
Qed.

(** ** [get_path] *)

Lemma is_path_snoc (R : relation string) s p l node :
  is_path R s p l → R p node → is_path R s node (l ++ [node]).
Proof.
  induction 1 as [x|x y z l Hxy _ IH]; intros Hstep; simpl.
  - apply path_step with node; [done|constructor].
  - apply path_step with y; [done|by apply IH].
Qed.

Lemma climbs_path (R : relation string) source node back :
  climbs R source node back →
  is_path R source node (reverse (node :: back)).
Proof.
  induction 1 as [|node previous back Hstep _ IH].
  - constructor.
  - rewrite reverse_cons. by apply is_path_snoc with previous.
Qed.

Lemma is_path_rtc (R : relation string) x z l :
  is_path R x z l → rtc R x z.
Proof.
  induction 1 as [x|x y z l Hxy _ IH]; [done|]. by apply rtc_l with y.
Qed.

Lemma walk_back_None fuel (parent_map : Dict.t string) node path :
  Dict.get node parent_map = None →
  walk_back fuel parent_map node path = Some path.
Proof. intros Hget. destruct fuel; simpl; by rewrite Hget. Qed.

Lemma walk_back_Some fuel (parent_map : Dict.t string) node previous path :
  Dict.get node parent_map = Some previous →
  walk_back (S fuel) parent_map node path
  = walk_back fuel parent_map previous (path ++ [previous]).
Proof. intros Hget. simpl. by rewrite Hget. Qed.

Lemma walk_back_climbs (adj : Dict.t (list string)) (source : string)
    (parent_map : Dict.t string) :
  Dict.wf parent_map →
  source ∉ Dict.keys parent_map →
  (∀ pre c p post, parent_map = pre ++ (c, p) :: post →
                   edge adj p c ∧ (p = source ∨ p ∈ Dict.keys pre)) →
  ∀ pre post, parent_map = pre ++ post →
  ∀ node path fuel,
    node = source ∨ node ∈ Dict.keys pre → length pre ≤ fuel →
    ∃ back, walk_back fuel parent_map node path = Some (path ++ back) ∧
            climbs (edge adj) source node back.
Proof.
  intros Hwf Hsource Htree pre.
  induction pre as [|[c p] pre IH] using rev_ind;
    intros post Hsplit node path fuel Hnode Hfuel.
  - destruct Hnode as [->|Hin]; [|by apply elem_of_nil in Hin].
    exists []. rewrite app_nil_r. split; [|constructor].
    apply walk_back_None. by apply get_None.
  - rewrite <-app_assoc in Hsplit. simpl in Hsplit.
    rewrite length_app in Hfuel. simpl in Hfuel.
    assert (Hearlier : node = source ∨ node ∈ Dict.keys pre →
              ∃ back, walk_back fuel parent_map node path
                      = Some (path ++ back) ∧
                      climbs (edge adj) source node back).
    { intros Hn. apply (IH ((c, p) :: post)); [done|done|lia]. }
    destruct Hnode as [->|Hin]; [by apply Hearlier; left|].
    unfold Dict.keys in Hin. rewrite fmap_app, elem_of_app in Hin.
    destruct Hin as [Hin|Hin%list_elem_of_singleton];
      [by apply Hearlier; right|].
    simpl in Hin. subst node.
    destruct (Htree _ _ _ _ Hsplit) as [Hedge Hp].
    destruct fuel as [|fuel]; [lia|].
    rewrite (walk_back_Some _ _ c p).
    2:{ apply elem_get_Some; [done|]. rewrite Hsplit.
        apply elem_of_app. right. left. }
    destruct (IH ((c, p) :: post) Hsplit p (path ++ [p]) fuel Hp)
      as (back & Hrun & Hclimb); [lia|].
    exists (p :: back). split; [by rewrite Hrun, <-app_assoc|].
    by constructor.
Qed.

Lemma snoc_split {A} (l pre post : list A) (a b : A) :
  l ++ [a] = pre ++ b :: post →
  (post = [] ∧ pre = l ∧ b = a) ∨
  (∃ post', post = post' ++ [a] ∧ l = pre ++ b :: post').
Proof.
  destruct post as [|c post _] using rev_ind.
  - intros [-> ->]%app_inj_tail. by left.
  - rewrite app_comm_cons, app_assoc. intros [-> ->]%app_inj_tail.
    right. by exists post.
Qed.

Section path_search.
Context (adj : Dict.t (list string)) (source target : string).

Lemma path_inv_visit st current child :
  path_inv adj source target st →
  current ∈ path_visited st →
  child ∉ path_visited st →
  edge adj current child →
  Dict.set child current (path_parent_map st)
  = path_parent_map st ++ [(child, current)] ∧
  Dict.wf (path_parent_map st ++ [(child, current)]) ∧
  (source ∉ Dict.keys (path_parent_map st ++ [(child, current)])) ∧
  (∀ pre c p post,
     path_parent_map st ++ [(child, current)] = pre ++ (c, p) :: post →
     edge adj p c ∧ (p = source ∨ p ∈ Dict.keys pre)) ∧
  (∀ x, x ∈ {[child]} ∪ path_visited st ↔
        x = source ∨ x ∈ Dict.keys (path_parent_map st ++ [(child, current)])).
Proof.
  intros [Hwf Hvis Hsource Htree Hqueue Htarget] Hcurrent Hchild Hedge.
  assert (Hfresh : child ≠ source ∧ child ∉ Dict.keys (path_parent_map st)).
  { split; intros ?; apply Hchild, Hvis; [by left|by right]. }
  destruct Hfresh as [Hcs Hck].
  assert (Hkeys : Dict.keys (path_parent_map st ++ [(child, current)])
                  = Dict.keys (path_parent_map st) ++ [child]).
  { unfold Dict.keys. by rewrite fmap_app. }
  split_and!.
  - apply keys_set_None. by apply get_None.
  - unfold Dict.wf. rewrite Hkeys. apply NoDup_app.
    split_and!; [done| |apply NoDup_singleton].
    by intros x ? ->%list_elem_of_singleton.
  - rewrite Hkeys, elem_of_app, list_elem_of_singleton. intros [?|?]; auto.
  - intros pre c p post [(-> & -> & [= -> ->])|(post' & -> & Hpm)]%snoc_split.
    + split; [done|]. by apply Hvis.
    + by apply (Htree _ _ _ _ Hpm).
  - intros x. rewrite Hkeys, elem_of_union, elem_of_singleton, elem_of_app,
      list_elem_of_singleton, Hvis. tauto.
Qed.

Lemma scan_children_spec current : ∀ children st,
  path_inv adj source target st →
  current ∈ path_visited st →
  (∀ c, c ∈ children → edge adj current c) →
  match scan_children target current children st with
  | None => False
  | Some (inr path) => is_path (edge adj) source target path
  | Some (inl st') =>
      path_inv adj source target st' ∧
      ∃ new, path_queue st' = path_queue st ++ new ∧ NoDup new ∧
             (∀ x, x ∈ new ↔ x ∈ children ∧ x ∉ path_visited st) ∧
             (∀ x, x ∈ path_visited st' ↔ x ∈ path_visited st ∨ x ∈ new)
  end.
Proof.
  induction children as [|child rest IH]; intros st Hinv Hcurrent Hedges;
    simpl.
  { split; [done|]. exists []. rewrite app_nil_r.
    split_and!; [done|constructor| |].
    - intros x. split; [by intros ?%elem_of_nil|].
      by intros [?%elem_of_nil _].
    - intros x. split; [by left|]. by intros [?|?%elem_of_nil]. }
  assert (Hrest : ∀ c, c ∈ rest → edge adj current c)
    by (intros c ?; apply Hedges; by right).
  destruct (decide (child ∈ path_visited st)) as [Hseen|Hnew].
  { specialize (IH st Hinv Hcurrent Hrest).
    destruct (scan_children target current rest st) as [[st'|path]|];
      [|done..].
    destruct IH as (Hinv' & new & Hq & Hnd & Hmem & Hvis).
    split; [done|]. exists new. split_and!; [done|done| |done].
    intros x. rewrite Hmem, elem_of_cons. split; [by intros [? ?]; auto|].
    intros [[->|?] ?]; done. }
  destruct (path_inv_visit st current child Hinv Hcurrent Hnew)
    as (Hset & Hwf' & Hsource' & Htree' & Hvis'); [apply Hedges; left|].
  rewrite Hset.
  destruct (decide (child = target)) as [->|Hnt].
  { destruct (walk_back_climbs adj source _ Hwf' Hsource' Htree'
                (path_parent_map st ++ [(target, current)]) []
                (eq_sym (app_nil_r _)) target [target]
                (length (path_parent_map st ++ [(target, current)])))
      as (back & -> & Hclimb); [|done|].
    { right. unfold Dict.keys. rewrite fmap_app, elem_of_app. right. left. }
    simpl. by apply climbs_path. }
  set (st1 := PathState ({[child]} ∪ path_visited st)
                        (path_parent_map st ++ [(child, current)])
                        (path_queue st ++ [child])).
  assert (Hinv1 : path_inv adj source target st1).
  { split; simpl; try done.
    - intros x [?| ->%list_elem_of_singleton]%elem_of_app.
      + apply elem_of_union. right. by apply (pi_queue _ _ _ _ Hinv).
      + apply elem_of_union. left. by apply elem_of_singleton.
    - rewrite elem_of_union, elem_of_singleton.
      intros [?|?]; [done|]. by apply (pi_target _ _ _ _ Hinv). }
  assert (Hcurrent1 : current ∈ path_visited st1).
  { simpl. apply elem_of_union. by right. }
  specialize (IH st1 Hinv1 Hcurrent1 Hrest).
  destruct (scan_children target current rest st1) as [[st'|path]|];
    [|done..].
  destruct IH as (Hinv' & new & Hq & Hnd & Hmem & Hvis).
  split; [done|]. exists (child :: new). simpl in *.
  split_and!.
  - by rewrite Hq, <-app_assoc.
  - constructor; [|done]. rewrite Hmem. intros [_ Hn]. apply Hn.
    apply elem_of_union. left. by apply elem_of_singleton.
  - intros x. rewrite !elem_of_cons, Hmem, elem_of_union, elem_of_singleton.
    split.
    + intros [->|[? ?]]; [by auto|]. split; [by auto|]. tauto.
    + intros [[->|?] ?]; [by left|].
      destruct (decide (x = child)); [by left|right]. split; [done|]. tauto.
  - intros x. rewrite Hvis, elem_of_union, elem_of_singleton, elem_of_cons.
    tauto.
Qed.

Lemma closed_set_unreachable st :
  path_inv adj source target st →
  (∀ x, x ∈ path_visited st → ∀ y, edge adj x y → y ∈ path_visited st) →
  ¬ rtc (edge adj) source target.
Proof.
  intros Hinv Hclosed Hreach. apply (pi_target _ _ _ _ Hinv).
  assert (source ∈ path_visited st) as Hs
    by (apply (pi_visited _ _ _ _ Hinv); by left).
  clear Hinv. induction Hreach as [|x y z Hxy _ IH]; [done|].
  apply IH. by apply (Hclosed x).
Qed.

Lemma path_loop_spec fuel : ∀ st,
  path_inv adj source target st →
  (∀ x, x ∈ path_visited st → x ∉ path_queue st →
        ∀ y, edge adj x y → y ∈ path_visited st) →
  length (path_queue st) + size (universe adj ∖ path_visited st) ≤ fuel →
  match path_loop fuel adj target st with
  | None => False
  | Some (Some path) => is_path (edge adj) source target path
  | Some None => ¬ rtc (edge adj) source target
  end.
Proof.
  assert (Hempty : ∀ visited parent_map,
            path_inv adj source target (PathState visited parent_map []) →
            (∀ x, x ∈ visited → x ∉ @nil string →
                  ∀ y, edge adj x y → y ∈ visited) →
            ¬ rtc (edge adj) source target).
  { intros visited parent_map Hinv Hexp.
    apply (closed_set_unreachable _ Hinv). simpl.
    intros x Hx. apply Hexp; [done|apply not_elem_of_nil]. }
  induction fuel as [|fuel IH]; intros [visited parent_map queue] Hinv Hexp
    Hfuel; simpl in *;
    (destruct queue as [|current queue];
     [by apply (Hempty visited parent_map)|]);
    [simpl in Hfuel; lia|].
  assert (Hinv0 : path_inv adj source target
                    (PathState visited parent_map queue)).
  { destruct Hinv as [? ? ? ? Hq ?]. split; simpl in *; try done.
    intros x ?. apply Hq. by right. }
  assert (Hcurrent : current ∈ visited).
  { apply (pi_queue _ _ _ _ Hinv). left. }
  pose proof (scan_children_spec current (Dict.get_or current [] adj)
                (PathState visited parent_map queue) Hinv0 Hcurrent
                (fun c H => H)) as Hscan.
  destruct (scan_children target current _ _) as [[st'|path]|]; [|done..].
  destruct Hscan as (Hinv' & new & Hq & Hnd & Hmem & Hvis). simpl in *.
  apply IH; [done| |].
  - intros x Hx Hnq y Hxy. rewrite Hq in Hnq. apply Hvis.
    apply Hvis in Hx as [Hx|Hx];
      [|destruct Hnq; apply elem_of_app; by right].
    destruct (decide (x = current)) as [->|Hxc].
    + destruct (decide (y ∈ visited)); [by left|right]. by apply Hmem.
    + left. apply (Hexp x); [done| |done].
      intros [?|?]%elem_of_cons; [done|].
      apply Hnq, elem_of_app. by left.
  - rewrite Hq, length_app.
    assert (path_visited st' = visited ∪ list_to_set new) as ->.
    { apply set_eq. intros x.
      by rewrite Hvis, elem_of_union, elem_of_list_to_set. }
    assert (size (list_to_set new : gset string) = length new) as <-
      by (by apply size_list_to_set).
    assert (list_to_set new ## universe adj ∖ (visited ∪ list_to_set new))
      as Hdisj by set_solver.
    rewrite <-Nat.add_assoc, <-(size_union _ _ Hdisj).
    assert (list_to_set new ∪ universe adj ∖ (visited ∪ list_to_set new)
              ⊆ universe adj ∖ visited) as ?%subseteq_size; [|lia].
    intros x. rewrite elem_of_union, !elem_of_difference, elem_of_union,
      !elem_of_list_to_set.
    intros [[Hx Hn]%Hmem|[? ?]]; [|tauto].
    split; [by eapply nbrs_universe|done].
Qed.
End path_search.

Lemma get_path_answer (edges : EdgeMap) (source target : string) :
  ∃ answer,
    get_path edges source target = Some answer ∧
    match answer with
    | Some path => is_path (child_step edges) source target path
    | None => ¬ rtc (child_step edges) source target
    end.
Proof.
  unfold get_path. destruct (decide (source = target)) as [->|Hne].
  { exists (Some [target]). split; [done|constructor]. }
  cbv zeta.
  pose proof (path_loop_spec (_build_children_map edges) source target
                (depth_bound (_build_children_map edges))
                (PathState {[source]} [] [source])) as Hloop.
  assert (Hinv : path_inv (_build_children_map edges) source target
                   (PathState {[source]} [] [source])).
  { split; simpl.
    - constructor.
    - intros x. rewrite elem_of_singleton. split; [by left|].
      by intros [?|?%elem_of_nil].
    - apply not_elem_of_nil.
    - by intros [] ? ? ? ?.
    - intros x ->%list_elem_of_singleton. by apply elem_of_singleton.
    - rewrite elem_of_singleton. by intros ->. }
  specialize (Hloop Hinv).
  assert (Hexp : ∀ x, x ∈ ({[source]} : gset string) → x ∉ [source] →
            ∀ y, edge (_build_children_map edges) x y
                 → y ∈ ({[source]} : gset string)).
  { intros x ->%elem_of_singleton Hnq. destruct Hnq. left. }
  specialize (Hloop Hexp).
  assert (Hfuel : 1 + size (universe (_build_children_map edges) ∖ {[source]})
                  ≤ depth_bound (_build_children_map edges)).
  { unfold depth_bound.
    pose proof (size_universe (_build_children_map edges)).
    assert (universe (_build_children_map edges) ∖ {[source]}
              ⊆ universe (_build_children_map edges)) as ?%subseteq_size
      by set_solver.
    lia. }
  specialize (Hloop Hfuel).
  destruct (path_loop _ _ _ _) as [answer|]; [|done].
  exists answer. split; [done|]. by destruct answer.
Qed.

(** *** The path is a shortest one *)

Lemma is_path_nsteps (R : relation string) x z l :
  is_path R x z l → nsteps R (pred (length l)) x z.
Proof.
  induction 1 as [x|x y z l Hxy Hl IH]; simpl; [constructor|].
  assert (length l = S (pred (length l))) as -> by (destruct Hl; simpl; lia).
  by apply nsteps_l with y.
Qed.

Section path_levels.
Context (adj : Dict.t (list string)) (source target : string).

(** A node that a walk of [k] edges reaches is visited at a level of at
    most [k], unless [k] is beyond the level being scanned. *)
Lemma level_frontier lev st busy d :
  path_inv adj source target st →
  level_inv adj source lev st busy d →
  ∀ k z, nsteps (edge adj) k source z →
         (z ∈ path_visited st ∧ lev z ≤ k) ∨ d < k.
Proof.
  intros Hinv Hlev. induction k as [|k IH]; intros z Hwalk.
  - assert (z = source) as -> by (by inversion Hwalk). left.
    split; [apply (pi_visited _ _ _ _ Hinv); by left|].
    rewrite (lv_source _ _ _ _ _ _ Hlev). lia.
  - apply nsteps_inv_r in Hwalk as (y & Hwalk & Hyz).
    destruct (IH y Hwalk) as [[Hy Hle]|?]; [|right; lia].
    destruct (decide (y ∈ path_queue st)) as [Hq|Hq].
    { right. pose proof (lv_queue _ _ _ _ _ _ Hlev) as Hall.
      rewrite Forall_forall in Hall. specialize (Hall y Hq). simpl in *. lia. }
    destruct (decide (y ∈ busy)) as [Hb|Hb].
    { right. pose proof (lv_busy _ _ _ _ _ _ Hlev) as Hall.
      rewrite Forall_forall in Hall. specialize (Hall y Hb). simpl in *. lia. }
    left. destruct (lv_expanded _ _ _ _ _ _ Hlev y Hy Hq Hb z Hyz).
    split; [done|lia].
Qed.

Lemma walk_back_length lev (parent_map : Dict.t string) :
  lev source = 0 →
  (∀ c p, (c, p) ∈ parent_map → lev c = S (lev p)) →
  (∀ pre c p post, parent_map = pre ++ (c, p) :: post →
                   edge adj p c ∧ (p = source ∨ p ∈ Dict.keys pre)) →
  ∀ fuel node path result,
    node = source ∨ node ∈ Dict.keys parent_map →
    walk_back fuel parent_map node path = Some result →
    length result = length path + lev node.
Proof.
  intros Hsource Hparent Htree.
  assert (Hup : ∀ c p, (c, p) ∈ parent_map →
                       p = source ∨ p ∈ Dict.keys parent_map).
  { intros c p (pre & post & Hsplit)%list_elem_of_split.
    destruct (Htree _ _ _ _ Hsplit) as [_ [?|Hp]]; [by left|right].
    rewrite Hsplit. unfold Dict.keys in *. rewrite fmap_app, elem_of_app.
    by left. }
  induction fuel as [|fuel IH]; intros node path result Hnode; simpl.
  - destruct (Dict.get node parent_map) eqn:Hget; [done|].
    intros [= <-]. apply get_None in Hget.
    destruct Hnode as [->|?]; [|done]. rewrite Hsource. lia.
  - destruct (Dict.get node parent_map) as [p|] eqn:Hget.
    + apply get_Some_elem in Hget. intros Hrun.
      apply IH in Hrun; [|by apply (Hup node)].
      rewrite length_app in Hrun. simpl in Hrun.
      rewrite (Hparent node p Hget). lia.
    + intros [= <-]. apply get_None in Hget.
      destruct Hnode as [->|?]; [|done]. rewrite Hsource. lia.
Qed.

Lemma path_inv_after_visit st current child :
  path_inv adj source target st →
  current ∈ path_visited st →
  child ∉ path_visited st →
  edge adj current child →
  child ≠ target →
  path_inv adj source target
    (PathState ({[child]} ∪ path_visited st)
               (path_parent_map st ++ [(child, current)])
               (path_queue st ++ [child])).
Proof.
  intros Hinv Hcurrent Hchild Hedge Hnt.
  destruct (path_inv_visit adj source target st current child
              Hinv Hcurrent Hchild Hedge)
    as (_ & Hwf' & Hsource' & Htree' & Hvis').
  split; simpl; try done.
  - intros x [?| ->%list_elem_of_singleton]%elem_of_app.
    + apply elem_of_union. right. by apply (pi_queue _ _ _ _ Hinv).
    + apply elem_of_union. left. by apply elem_of_singleton.
  - rewrite elem_of_union, elem_of_singleton.
    intros [?|?]; [done|]. by apply (pi_target _ _ _ _ Hinv).
Qed.

Lemma level_inv_visit lev st current child d :
  path_inv adj source target st →
  level_inv adj source lev st [current] d →
  current ∈ path_visited st →
  child ∉ path_visited st →
  edge adj current child →
  level_inv adj source (fun x => if decide (x = child) then S d else lev x)
    (PathState ({[child]} ∪ path_visited st)
               (path_parent_map st ++ [(child, current)])
               (path_queue st ++ [child]))
    [current] d.
Proof.
  intros Hinv [Hsrc Hpar Hsorted Hqueue Hbusy Hvis Hexp] Hcurrent Hchild Hedge.
  assert (Hold : ∀ x, x ∈ path_visited st →
            (if decide (x = child) then S d else lev x) = lev x).
  { intros x Hx. rewrite decide_False; [done|]. by intros ->. }
  assert (Hd : lev current = d).
  { rewrite Forall_forall in Hbusy. apply Hbusy. left. }
  assert (Hmap : (fun x => if decide (x = child) then S d else lev x)
                   <$> path_queue st = lev <$> path_queue st).
  { apply list_fmap_ext. intros i x Hx. apply Hold.
    apply (pi_queue _ _ _ _ Hinv). by eapply list_elem_of_lookup_2. }
  split; simpl.
  - rewrite Hold; [done|]. apply (pi_visited _ _ _ _ Hinv). by left.
  - intros c p [Hin| [= -> ->]%list_elem_of_singleton]%elem_of_app.
    + assert (Hkey : c ∈ Dict.keys (path_parent_map st)).
      { apply list_elem_of_fmap. by exists (c, p). }
      apply list_elem_of_split in Hin as Hsplit.
      destruct Hsplit as (pre & post & Hsplit).
      destruct (pi_tree _ _ _ _ Hinv _ _ _ _ Hsplit) as [_ Hp].
      rewrite !Hold; [by apply Hpar| |].
      * apply (pi_visited _ _ _ _ Hinv). destruct Hp as [?|Hp]; [by left|].
        right. rewrite Hsplit. unfold Dict.keys in *.
        rewrite fmap_app, elem_of_app. by left.
      * apply (pi_visited _ _ _ _ Hinv). by right.
    + rewrite decide_True by done. by rewrite Hold, Hd.
  - rewrite fmap_app, Hmap. simpl. rewrite decide_True by done.
    apply (ascending_app_const _ (S d) [()]); [done|].
    apply Forall_fmap. eapply Forall_impl; [done|]. simpl. lia.
  - apply Forall_app. split.
    + rewrite Forall_forall in *. intros x Hx. rewrite Hold; [by apply Hqueue|].
      by apply (pi_queue _ _ _ _ Hinv).
    + constructor; [|constructor]. rewrite decide_True by done. lia.
  - constructor; [|constructor]. by rewrite Hold.
  - intros x [->%elem_of_singleton|Hx]%elem_of_union.
    + by rewrite decide_True.
    + rewrite Hold by done. by apply Hvis.
  - intros x Hx Hnq Hnb y Hxy.
    assert (x ≠ child) as Hxc.
    { intros ->. apply Hnq, elem_of_app. right. left. }
    assert (x ∈ path_visited st) as Hx' by set_solver.
    destruct (Hexp x Hx') with (y := y) as [Hy Hle]; [|done|done|].
    { intros ?. apply Hnq, elem_of_app. by left. }
    split; [set_solver|]. by rewrite !Hold.
Qed.

Lemma scan_children_levels current d : ∀ children st lev,
  path_inv adj source target st →
  level_inv adj source lev st [current] d →
  current ∈ path_visited st →
  (∀ c, c ∈ children → edge adj current c) →
  match scan_children target current children st with
  | None => True
  | Some (inr path) =>
      length path = S (S d) ∧
      ∀ k, nsteps (edge adj) k source target → S d ≤ k
  | Some (inl st') => ∃ lev', level_inv adj source lev' st' [current] d
  end.
Proof.
  induction children as [|child rest IH]; intros st lev Hinv Hlev Hcurrent
    Hedges; simpl; [by exists lev|].
  assert (Hrest : ∀ c, c ∈ rest → edge adj current c)
    by (intros c ?; apply Hedges; by right).
  destruct (decide (child ∈ path_visited st)) as [Hseen|Hnew];
    [by apply (IH st lev)|].
  assert (Hedge : edge adj current child) by (apply Hedges; left).
  destruct (path_inv_visit adj source target st current child
              Hinv Hcurrent Hnew Hedge)
    as (Hset & Hwf' & Hsource' & Htree' & Hvis').
  pose proof (level_inv_visit lev st current child d Hinv Hlev Hcurrent
                Hnew Hedge) as Hlev'.
  rewrite Hset.
  destruct (decide (child = target)) as [->|Hnt].
  - destruct (walk_back _ _ _ _) as [result|] eqn:Hback; [|done]. simpl.
    split.
    + rewrite length_reverse.
      assert (Hkey : target = source ∨
                target ∈ Dict.keys (path_parent_map st ++ [(target, current)])).
      { right. unfold Dict.keys. rewrite fmap_app, elem_of_app. right. left. }
      rewrite (walk_back_length
                 (fun x => if decide (x = target) then S d else lev x)
                 _ (lv_source _ _ _ _ _ _ Hlev') (lv_parent _ _ _ _ _ _ Hlev')
                 Htree' _ _ _ _ Hkey Hback).
      simpl. by rewrite decide_True.
    + intros k Hwalk.
      destruct (level_frontier lev st [current] d Hinv Hlev k target Hwalk)
        as [[Hin _]|?]; [done|lia].
  - apply (IH _ _ (path_inv_after_visit st current child Hinv Hcurrent Hnew
                     Hedge Hnt) Hlev'); [|done].
    simpl. apply elem_of_union. by right.
Qed.

Lemma path_loop_shortest fuel : ∀ st lev d path,
  path_inv adj source target st →
  level_inv adj source lev st [] d →
  path_loop fuel adj target st = Some (Some path) →
  ∀ k, nsteps (edge adj) k source target → length path ≤ S k.
Proof.
  induction fuel as [|fuel IH];
    intros [visited parent_map queue] lev d path Hinv Hlev; simpl;
    (destruct queue as [|current queue]; [done|]); [done|].
  assert (Hinv0 : path_inv adj source target
                    (PathState visited parent_map queue)).
  { destruct Hinv as [? ? ? ? Hq ?]. split; simpl in *; try done.
    intros x ?. apply Hq. by right. }
  assert (Hcurrent : current ∈ visited).
  { apply (pi_queue _ _ _ _ Hinv). left. }
  destruct Hlev as [Hsrc Hpar Hsorted Hqueue _ Hvis Hexp]. simpl in *.
  apply StronglySorted_inv in Hsorted as [Hsorted Hhd].
  apply Forall_cons in Hqueue as [Hd Hqueue].
  assert (Hlev0 : level_inv adj source lev
                    (PathState visited parent_map queue) [current]
                    (lev current)).
  { split; simpl; try done.
    - rewrite Forall_fmap in Hhd. rewrite Forall_forall in *.
      intros x Hx. specialize (Hhd x Hx). specialize (Hqueue x Hx).
      simpl in *. lia.
    - by constructor.
    - intros x Hx. specialize (Hvis x Hx). lia.
    - intros x Hx Hnq Hnb. apply Hexp; [done| |apply not_elem_of_nil].
      intros [->|?]%elem_of_cons; [|done]. apply Hnb. left. }
  pose proof (scan_children_spec adj source target current
                (Dict.get_or current [] adj)
                (PathState visited parent_map queue) Hinv0 Hcurrent
                (fun c H => H)) as Hscan.
  pose proof (scan_children_levels current (lev current)
                (Dict.get_or current [] adj)
                (PathState visited parent_map queue) lev Hinv0 Hlev0 Hcurrent
                (fun c H => H)) as Hlevels.
  destruct (scan_children target current _ _) as [[st'|found]|]; [| |done].
  - destruct Hscan as (Hinv' & new & Hq & Hnd & Hmem & Hvisited).
    destruct Hlevels as [lev' Hlev'].
    apply (IH st' lev' (lev current) path Hinv').
    destruct Hlev' as [? ? ? ? Hbusy Hvis' Hexp']. split; try done.
    intros x Hx Hnq _ y Hxy.
    destruct (decide (x = current)) as [->|Hxc].
    + assert (Hy : y ∈ path_visited st').
      { apply Hvisited. simpl.
        destruct (decide (y ∈ visited)); [by left|right]. by apply Hmem. }
      split; [done|]. apply Forall_inv in Hbusy. rewrite Hbusy.
      by apply Hvis'.
    + apply (Hexp' x); [done|done| |done].
      by intros ->%list_elem_of_singleton.
  - intros [= <-] k Hwalk. destruct Hlevels as [-> Hmin].
    specialize (Hmin k Hwalk). lia.
Qed.
End path_levels.

Lemma get_path_shortest (edges : EdgeMap) (source target : string) :
  ∃ answer,
    get_path edges source target = Some answer ∧
    match answer with
    | Some path =>
        is_path (child_step edges) source target path ∧
        ∀ k, nsteps (child_step edges) k source target → length path ≤ S k
    | None => ¬ rtc (child_step edges) source target
    end.
Proof.
  destruct (get_path_answer edges source target) as (answer & Hrun & Hanswer).
  exists answer. split; [done|]. destruct answer as [path|]; [|done].
  split; [done|]. revert Hrun. unfold get_path.
  destruct (decide (source = target)) as [->|Hne].
  { intros [= <-] k _. simpl. lia. }
  cbv zeta.
  apply (path_loop_shortest (_build_children_map edges) source target
           _ _ (fun _ => 0) 0).
  - split; simpl.
    + constructor.
    + intros x. rewrite elem_of_singleton. split; [by left|].
      by intros [?|?%elem_of_nil].
    + apply not_elem_of_nil.
    + by intros [] ? ? ? ?.
    + intros x ->%list_elem_of_singleton. by apply elem_of_singleton.
    + rewrite elem_of_singleton. by intros ->.
  - split; simpl.
    + done.
    + by intros c p ?%elem_of_nil.
    + repeat constructor.
    + repeat constructor.
    + constructor.
    + intros; lia.
    + intros x ->%elem_of_singleton Hnq. destruct Hnq. left.
Qed.

(** X16: [get_path] always answers.  A returned path is a walk along
    child edges from the source to the target, both included, and no walk
    between them has fewer edges; [None] is returned exactly when no such
    walk exists. *)
Theorem get_path_contract (edges : EdgeMap) (source target : string) :
  ∃ answer,
    get_path edges source target = Some answer ∧
    match answer with
    | Some path =>
        is_path (child_step edges) source target path ∧
        ∀ k, nsteps (child_step edges) k source target → length path ≤ S k
    | None => ¬ rtc (child_step edges) source target
    end.
Proof. apply get_path_shortest. Qed.

(** ** [get_path] and [would_create_cycle] *)

(** X17: on an edge map without a repeated key, [would_create_cycle]
    answers [True] for a new edge from [source] to [target] exactly when
    [get_path] finds a path from [target] back to [source]. *)
Theorem would_create_cycle_iff_path (edges : EdgeMap)
    (source target : string) :
  Dict.wf edges →
  ∃ answer path,
    would_create_cycle edges source target = Some answer ∧
    get_path edges target source = Some path ∧
    (answer = true ↔ is_Some path).
Proof.
  intros Hwf.
  destruct (would_create_cycle_spec edges source target Hwf)
    as (answer & Hrun & Hanswer).
  destruct (get_path_answer edges target source) as (path & Hpath & Hmeans).
  exists answer, path. split_and!; [done|done|].
  rewrite Hanswer, <-(rtc_children_parents edges target source Hwf).
  destruct path as [path|].
  - split; [by eexists|]. intros _. by apply is_path_rtc in Hmeans.
  - split; [done|]. by intros [? [=]].
Qed.

Lemma would_create_cycle_iff_path_witness :
  ∃ answer path,
    would_create_cycle diamond "D" "A" = Some answer ∧
    get_path diamond "A" "D" = Some path ∧
    (answer = true ↔ is_Some path).
Proof. apply (would_create_cycle_iff_path diamond "D" "A"), diamond_wf. Defined.

(** ** Common ancestors and descendants *)

(** X18: [get_common_ancestors] always answers, lists no node twice, and
    lists exactly the nodes reached from both [node_a] and [node_b] along
    one or more parent edges; exchanging the two nodes gives the same
    nodes. *)
Theorem get_common_ancestors_contract (edges : EdgeMap)
    (node_a node_b : string) :
  ∃ common swapped,
    get_common_ancestors edges node_a node_b = Some common ∧
    get_common_ancestors edges node_b node_a = Some swapped ∧
    NoDup common ∧
    (∀ x, x ∈ common ↔
          tc (parent_step edges) node_a x ∧ tc (parent_step edges) node_b x) ∧
    (∀ x, x ∈ common ↔ x ∈ swapped).
Proof.
  unfold get_common_ancestors.
  destruct (get_ancestors_reach edges node_a) as (anc_a & -> & _ & Ha).
  destruct (get_ancestors_reach edges node_b) as (anc_b & -> & _ & Hb).
  eexists _, _. split_and!; [done|done|apply NoDup_elements|..].
  - intros x. by rewrite elem_of_elements, elem_of_intersection,
      !elem_of_list_to_set, Ha, Hb.
  - intros x. rewrite !elem_of_elements. set_solver.
Qed.

(** X19: [get_common_descendants] always answers, lists no node twice,
    and lists exactly the nodes reached from both [node_a] and [node_b]
    along one or more child edges; exchanging the two nodes gives the same
    nodes. *)
Theorem get_common_descendants_contract (edges : EdgeMap)
    (node_a node_b : string) :
  ∃ common swapped,
    get_common_descendants edges node_a node_b = Some common ∧
    get_common_descendants edges node_b node_a = Some swapped ∧
    NoDup common ∧
    (∀ x, x ∈ common ↔
          tc (child_step edges) node_a x ∧ tc (child_step edges) node_b x) ∧
    (∀ x, x ∈ common ↔ x ∈ swapped).
Proof.
  unfold get_common_descendants.
  destruct (get_descendants_reach edges node_a) as (desc_a & -> & _ & Ha).
  destruct (get_descendants_reach edges node_b) as (desc_b & -> & _ & Hb).
  eexists _, _. split_and!; [done|done|apply NoDup_elements|..].
  - intros x. by rewrite elem_of_elements, elem_of_intersection,
      !elem_of_list_to_set, Ha, Hb.
  - intros x. rewrite !elem_of_elements. set_solver.
Qed.

(** ** The validation wrappers *)

Lemma compare_topologies_valid
    (nodes_a nodes_b : gset string) (edges_a edges_b : gset (string * string)) :
  is_valid (compare_topologies nodes_a edges_a nodes_b edges_b) = true ↔
  nodes_a = nodes_b ∧ edges_a = edges_b.
Proof.
  simpl. rewrite !andb_true_iff, !bool_decide_eq_true, !size_empty_iff.
  unfold_leibniz. split.
  - intros (((Ha & Hb) & Hc) & Hd). split; intros x.
    + destruct (decide (x ∈ nodes_a)), (decide (x ∈ nodes_b)); set_solver.
    + destruct (decide (x ∈ edges_a)), (decide (x ∈ edges_b)); set_solver.
  - intros [Hn He]. set_solver.
Qed.

Lemma list_to_set_same `{Countable A} (l k : list A) :
  (list_to_set l : gset A) = list_to_set k ↔ ∀ x, x ∈ l ↔ x ∈ k.
Proof. rewrite set_eq. by setoid_rewrite elem_of_list_to_set. Qed.

Lemma compare_topologies_counts
    (nodes_a nodes_b : gset string) (edges_a edges_b : gset (string * string)) :
  let report := compare_topologies nodes_a edges_a nodes_b edges_b in
  is_valid report = true →
  node_count_match report = true ∧ edge_count_match report = true.
Proof.
  intros report [-> ->]%compare_topologies_valid. simpl.
  by rewrite !bool_decide_eq_true.
Qed.

Lemma report_or_raise_cases (report : TopologyReport) (flag : bool) :
  (flag = true ∧ is_valid report = false →
   report_or_raise report flag = TopologyMismatch report) ∧
  (flag = false ∨ is_valid report = true →
   report_or_raise report flag = Report report).
Proof.
  unfold report_or_raise. split.
  - by intros [-> ->].
  - intros [->| ->]; [by rewrite andb_false_r|done].
Qed.

Lemma parsed_edge_tuples_inner (target : string) (parents : list string) :
  ∀ (tuples : gset (string * string)) e,
    e ∈ foldl (fun tuples parent => {[(parent, target)]} ∪ tuples)
              tuples parents
    ↔ e ∈ tuples ∨ ∃ parent, parent ∈ parents ∧ e = (parent, target).
Proof.
  induction parents as [|parent parents IH]; intros tuples e; simpl.
  { split; [by left|]. by intros [?|(? & ?%elem_of_nil & _)]. }
  rewrite IH, elem_of_union, elem_of_singleton. split.
  - intros [[->|?]|(q & ? & ->)]; [right|by left|right].
    + exists parent. split; [left|done].
    + exists q. split; [by right|done].
  - intros [?|(q & [->|?]%elem_of_cons & ->)];
      [left; by right|left; by left|right; by exists q].
Qed.

Lemma parsed_edge_tuples_fold (parsed_edges : EdgeMap) :
  ∀ (tuples : gset (string * string)) e,
    e ∈ foldl (fun tuples '(target, parents) =>
                 foldl (fun tuples parent => {[(parent, target)]} ∪ tuples)
                       tuples parents)
              tuples parsed_edges
    ↔ e ∈ tuples ∨
      ∃ target parents parent,
        (target, parents) ∈ parsed_edges ∧ parent ∈ parents ∧
        e = (parent, target).
Proof.
  induction parsed_edges as [|[target parents] rest IH]; intros tuples e;
    simpl.
  { split; [by left|]. by intros [?|(? & ? & ? & ?%elem_of_nil & _)]. }
  rewrite IH, parsed_edge_tuples_inner. split.
  - intros [[?|(q & ? & ->)]|(t & ps & q & ? & ? & ->)]; [by left|right..].
    + exists target, parents, q. split_and!; [left|done|done].
    + exists t, ps, q. split_and!; [by right|done|done].
  - intros [?|(t & ps & q & [[= -> ->]|?]%elem_of_cons & ? & ->)].
    + left. by left.
    + left. right. by exists q.
    + right. by exists t, ps, q.
Qed.

Lemma elem_of_parsed_edge_tuples (parsed_edges : EdgeMap) parent child :
  Dict.wf parsed_edges →
  (parent, child) ∈ parsed_edge_tuples parsed_edges
  ↔ parent_step parsed_edges child parent.
Proof.
  intros Hwf. unfold parsed_edge_tuples, parent_step, get_parents, Dict.get_or.
  rewrite parsed_edge_tuples_fold. split.
  - intros [?%elem_of_empty|(t & ps & q & Hin & Hq & [= -> ->])]; [done|].
    by rewrite (elem_get_Some _ _ _ Hwf Hin).
  - intros Hin. right.
    destruct (Dict.get child parsed_edges) as [ps|] eqn:Hget;
      [|by apply elem_of_nil in Hin].
    exists child, ps, parent. split_and!; [|done|done].
    by apply get_Some_elem.
Qed.

(** X20: on an edge map without a repeated key, the report of
    [validate_parsed_edges] is valid exactly when the keys are the node
    ids of the JSON value and the listed (parent, node) pairs are its
    (source, target) pairs, whatever the order and repetition of the JSON
    entries.  The edges missing in B are the listed pairs absent from the
    JSON value, those missing in A the JSON edges that are not listed.
    The call raises [TopologyMismatch] exactly when the report is not
    valid and [raise_on_mismatch] is set; otherwise it returns the
    report. *)
Theorem validate_parsed_edges_contract (parsed_edges : EdgeMap)
    (causeway_json : CausewayJson) (raise_on_mismatch : bool) :
  Dict.wf parsed_edges →
  ∃ report,
    (is_valid report = true ↔
     (∀ x, x ∈ Dict.keys parsed_edges ↔ x ∈ nodes causeway_json) ∧
     (∀ p c, parent_step parsed_edges c p ↔ (p, c) ∈ edges causeway_json)) ∧
    (∀ p c, (p, c) ∈ missing_edges_in_b report ↔
            parent_step parsed_edges c p ∧ (p, c) ∉ edges causeway_json) ∧
    (∀ p c, (p, c) ∈ missing_edges_in_a report ↔
            (p, c) ∈ edges causeway_json ∧ ¬ parent_step parsed_edges c p) ∧
    (raise_on_mismatch = true ∧ is_valid report = false →
     validate_parsed_edges parsed_edges causeway_json raise_on_mismatch
     = TopologyMismatch report) ∧
    (raise_on_mismatch = false ∨ is_valid report = true →
     validate_parsed_edges parsed_edges causeway_json raise_on_mismatch
     = Report report).
Proof.
  intros Hwf. unfold validate_parsed_edges, extract_edges_from_causeway_json.
  eexists. split_and!; [| | |apply report_or_raise_cases..].
  - rewrite compare_topologies_valid, list_to_set_same.
    apply and_iff_compat_l. rewrite set_eq. split.
    + intros He p c. by rewrite <-elem_of_parsed_edge_tuples, (He (p, c)),
        elem_of_list_to_set.
    + intros He [p c].
      by rewrite elem_of_list_to_set, elem_of_parsed_edge_tuples, He.
  - intros p c. simpl.
    by rewrite elem_of_difference, elem_of_list_to_set,
      elem_of_parsed_edge_tuples.
  - intros p c. simpl.
    by rewrite elem_of_difference, elem_of_list_to_set,
      elem_of_parsed_edge_tuples.
Qed.

Lemma validate_parsed_edges_contract_witness :
  ∃ report,
    (is_valid report = true ↔
     (∀ x, x ∈ Dict.keys diamond ↔ x ∈ nodes self_loop_graph) ∧
     (∀ p c, parent_step diamond c p ↔ (p, c) ∈ edges self_loop_graph)) ∧
    (∀ p c, (p, c) ∈ missing_edges_in_b report ↔
            parent_step diamond c p ∧ (p, c) ∉ edges self_loop_graph) ∧
    (∀ p c, (p, c) ∈ missing_edges_in_a report ↔
            (p, c) ∈ edges self_loop_graph ∧ ¬ parent_step diamond c p) ∧
    (true = true ∧ is_valid report = false →
     validate_parsed_edges diamond self_loop_graph true
     = TopologyMismatch report) ∧
    (true = false ∨ is_valid report = true →
     validate_parsed_edges diamond self_loop_graph true = Report report).
Proof.
  apply (validate_parsed_edges_contract diamond self_loop_graph true),
    diamond_wf.
Defined.

(** X21: [validate_topology_from_files] looks at the two JSON values as
    sets: its report is valid exactly when both list the same node ids and
    the same (source, target) pairs, whatever their order and however
    often an entry is repeated, and then both count flags are set.  The
    call raises [TopologyMismatch] exactly when the report is not valid
    and [raise_on_mismatch] is set; otherwise it returns the report. *)
Theorem validate_topology_from_files_contract (json_a json_b : CausewayJson)
    (raise_on_mismatch : bool) :
  ∃ report,
    (is_valid report = true ↔
     (∀ x, x ∈ nodes json_a ↔ x ∈ nodes json_b) ∧
     (∀ e, e ∈ edges json_a ↔ e ∈ edges json_b)) ∧
    (is_valid report = true →
     node_count_match report = true ∧ edge_count_match report = true) ∧
    (raise_on_mismatch = true ∧ is_valid report = false →
     validate_topology_from_files json_a json_b raise_on_mismatch
     = TopologyMismatch report) ∧
    (raise_on_mismatch = false ∨ is_valid report = true →
     validate_topology_from_files json_a json_b raise_on_mismatch
     = Report report).
Proof.
  unfold validate_topology_from_files, extract_edges_from_causeway_json.
  eexists. split_and!;
    [|apply compare_topologies_counts|apply report_or_raise_cases..].
  by rewrite compare_topologies_valid, !list_to_set_same.
Qed.

(** ** The export of the parsed nodes *)

Lemma quick_validate_cases (g : CausewayJson) :
  (quick_validate g = Return true ∧ consistent (nodes g) (edges g)) ∨
  (∃ msg, quick_validate g = Raise (ValueError msg) ∧
          ¬ consistent (nodes g) (edges g)).
Proof.
  assert (Hnil : consistent (nodes g) []).
  { split_and!; [by intros e ?%elem_of_nil..|constructor]. }
  unfold quick_validate.
  destruct (scan_edges_spec (nodes g) (edges g) [] Hnil)
    as [[Hrun Hall]|(mid & e & after & r & msg & Hsplit)]; simpl in *.
  - by left.
  - destruct Hsplit as (Hedges & Hmid & Hv & Hr & Hrun). right.
    exists msg. split; [done|]. rewrite Hedges.
    by apply (violates_inconsistent _ _ _ after _ Hv).
Qed.

Lemma export_edges_fold (node : parse_rde_model.NodeInfo)
    (parents : list string) : ∀ causeway_edges,
  foldl (fun causeway_edges parent_name =>
           causeway_edges ++ [parse_rde_model.edge_entry node parent_name])
        causeway_edges parents
  = causeway_edges ++ (parse_rde_model.edge_entry node <$> parents).
Proof.
  induction parents as [|p parents IH]; intros causeway_edges; simpl.
  - by rewrite app_nil_r.
  - by rewrite IH, <-app_assoc.
Qed.

Lemma export_fold (nodes : list parse_rde_model.NodeInfo) :
  ∀ causeway_nodes causeway_edges,
    foldl (fun '(causeway_nodes, causeway_edges) node =>
             (causeway_nodes ++ [parse_rde_model.node_entry node],
              foldl (fun causeway_edges parent_name =>
                       causeway_edges
                       ++ [parse_rde_model.edge_entry node parent_name])
                    causeway_edges (parse_rde_model.parents node)))
          (causeway_nodes, causeway_edges) nodes
    = (causeway_nodes ++ (parse_rde_model.node_entry <$> nodes),
       causeway_edges ++
       (node ← nodes;
        parse_rde_model.edge_entry node <$> parse_rde_model.parents node)).
Proof.
  induction nodes as [|node nodes IH]; intros causeway_nodes causeway_edges;
    simpl.
  - by rewrite !app_nil_r.
  - by rewrite IH, export_edges_fold, <-!app_assoc.
Qed.

Lemma read_to_causeway_json (nodes : list parse_rde_model.NodeInfo)
    (context : string) :
  parse_rde_model.read (parse_rde_model.to_causeway_json nodes context)
  = MkCausewayJson (parse_rde_model.name <$> nodes) (listed_edges nodes).
Proof.
  unfold parse_rde_model.to_causeway_json. rewrite export_fold.
  unfold parse_rde_model.read, listed_edges. simpl. f_equal.
  - rewrite <-list_fmap_compose. by apply list_fmap_ext.
  - induction nodes as [|node nodes IH]; [done|].
    rewrite !bind_cons, fmap_app, IH. f_equal.
    rewrite <-list_fmap_compose. by apply list_fmap_ext.
Qed.

Lemma elem_of_listed_edges (nodes : list parse_rde_model.NodeInfo) e :
  e ∈ listed_edges nodes ↔
  ∃ node, node ∈ nodes ∧ e.1 ∈ parse_rde_model.parents node ∧
          e.2 = parse_rde_model.name node.
Proof.
  unfold listed_edges. rewrite list_elem_of_bind. split.
  - intros (node & (p & -> & Hp)%list_elem_of_fmap & Hnode). by exists node.
  - intros (node & Hnode & Hp & Hname). exists node. split; [|done].
    apply list_elem_of_fmap. exists e.1. split; [|done].
    rewrite <-Hname. by destruct e.
Qed.

Lemma NoDup_listed_edges (nodes : list parse_rde_model.NodeInfo) :
  NoDup (parse_rde_model.name <$> nodes) →
  NoDup (listed_edges nodes) ↔
  ∀ node, node ∈ nodes → NoDup (parse_rde_model.parents node).
Proof.
  induction nodes as [|node nodes IH]; intros Hnames.
  { split; [by intros _ ? ?%elem_of_nil|constructor]. }
  rewrite fmap_cons in Hnames. apply NoDup_cons in Hnames as [Hfresh Hnames].
  unfold listed_edges in *. rewrite bind_cons, NoDup_app, (IH Hnames).
  assert (Hinj : Inj eq eq
            (fun parent_name : string =>
               (parent_name, parse_rde_model.name node))).
  { by intros p q [= ->]. }
  rewrite (NoDup_fmap _). split.
  - intros (Hnode & _ & Hrest) n [->|?]%elem_of_cons; auto.
  - intros Hall. split_and!.
    + apply Hall. left.
    + intros e (p & -> & _)%list_elem_of_fmap
        (n & Hn & _ & Hname)%elem_of_listed_edges.
      apply Hfresh, list_elem_of_fmap. by exists n.
    + intros n Hn. apply Hall. by right.
Qed.

Lemma parsed_nodes_distinct : NoDup (parse_rde_model.name <$> parsed_nodes).
Proof. apply (bool_decide_unpack _). by vm_compute. Qed.

(** X22: for parsed nodes with distinct names, the graph written by
    [to_causeway_json] passes [quick_validate] exactly when every listed
    parent is the name of a parsed node, no node lists itself and no node
    lists a parent twice; otherwise [quick_validate] raises a
    [ValueError]. *)
Theorem exported_graph_consistent (nodes : list parse_rde_model.NodeInfo)
    (context : string) :
  NoDup (parse_rde_model.name <$> nodes) →
  let json :=
    parse_rde_model.read (parse_rde_model.to_causeway_json nodes context) in
  (quick_validate json = Return true ↔
   ∀ node, node ∈ nodes →
     NoDup (parse_rde_model.parents node) ∧
     ∀ p, p ∈ parse_rde_model.parents node →
          p ≠ parse_rde_model.name node ∧
          ∃ other, other ∈ nodes ∧ parse_rde_model.name other = p) ∧
  (quick_validate json = Return true ∨
   ∃ msg, quick_validate json = Raise (ValueError msg)).
Proof.
  intros Hnames json. subst json. rewrite read_to_causeway_json.
  set (json := MkCausewayJson _ _).
  assert (Hmeans : consistent (parse_rde_model.name <$> nodes)
                              (listed_edges nodes) ↔
            ∀ node, node ∈ nodes →
              NoDup (parse_rde_model.parents node) ∧
              ∀ p, p ∈ parse_rde_model.parents node →
                   p ≠ parse_rde_model.name node ∧
                   ∃ other, other ∈ nodes ∧ parse_rde_model.name other = p).
  { unfold consistent. rewrite (NoDup_listed_edges nodes Hnames).
    split.
    - intros (Hin & Hloop & Hnd) node Hnode. split; [by apply Hnd|].
      intros p Hp.
      assert (He : (p, parse_rde_model.name node) ∈ listed_edges nodes).
      { apply elem_of_listed_edges. by exists node. }
      split; [apply (Hloop _ He)|].
      destruct (Hin _ He) as [(other & ? & ?)%list_elem_of_fmap _].
      by exists other.
    - intros Hall. split_and!.
      + intros e (node & Hnode & Hp & Hname)%elem_of_listed_edges. split.
        * destruct (Hall node Hnode) as [_ Hparents].
          destruct (Hparents _ Hp) as [_ (other & ? & ?)].
          apply list_elem_of_fmap. by exists other.
        * apply list_elem_of_fmap. by exists node.
      + intros e (node & Hnode & Hp & Hname)%elem_of_listed_edges.
        destruct (Hall node Hnode) as [_ Hparents].
        rewrite Hname. by apply Hparents.
      + intros node Hnode. by apply Hall. }
  destruct (quick_validate_cases json) as [[Hrun Hok]|(msg & Hrun & Hbad)].
  - split; [|by left]. by rewrite <-Hmeans.
  - split; [|right; by exists msg]. rewrite <-Hmeans, Hrun. by split.
Qed.

Lemma exported_graph_consistent_witness :
  let json :=
    parse_rde_model.read (parse_rde_model.to_causeway_json parsed_nodes "") in
  (quick_validate json = Return true ↔
   ∀ node, node ∈ parsed_nodes →
     NoDup (parse_rde_model.parents node) ∧
     ∀ p, p ∈ parse_rde_model.parents node →
          p ≠ parse_rde_model.name node ∧
          ∃ other, other ∈ parsed_nodes ∧ parse_rde_model.name other = p) ∧
  (quick_validate json = Return true ∨
   ∃ msg, quick_validate json = Raise (ValueError msg)).
Proof.
  apply (exported_graph_consistent parsed_nodes ""), parsed_nodes_distinct.
Defined.

Lemma edge_map_of_keys (nodes : list parse_rde_model.NodeInfo) :
  Dict.keys (edge_map_of nodes) = parse_rde_model.name <$> nodes.
Proof.
  unfold Dict.keys, edge_map_of. rewrite <-list_fmap_compose.
  by apply list_fmap_ext.
Qed.

(** X23: for parsed nodes with distinct names, the graph written by
    [to_causeway_json] has the topology of the parsed nodes:
    [validate_parsed_edges], given the edge map that lists every node's
    parents under its name, returns a valid report with both count flags
    set and never raises. *)
Theorem export_keeps_topology (nodes : list parse_rde_model.NodeInfo)
    (context : string) (raise_on_mismatch : bool) :
  NoDup (parse_rde_model.name <$> nodes) →
  ∃ report,
    validate_parsed_edges (edge_map_of nodes)
      (parse_rde_model.read (parse_rde_model.to_causeway_json nodes context))
      raise_on_mismatch
    = Report report ∧
    is_valid report = true ∧
    node_count_match report = true ∧ edge_count_match report = true.
Proof.
  intros Hnames. rewrite read_to_causeway_json.
  assert (Hwf : Dict.wf (edge_map_of nodes)).
  { unfold Dict.wf. by rewrite edge_map_of_keys. }
  unfold validate_parsed_edges, extract_edges_from_causeway_json. simpl.
  set (report := compare_topologies _ _ _ _).
  assert (Hvalid : is_valid report = true).
  { apply compare_topologies_valid. split.
    - by rewrite edge_map_of_keys.
    - apply set_eq. intros [p c].
      rewrite elem_of_list_to_set, (elem_of_parsed_edge_tuples _ _ _ Hwf).
      rewrite elem_of_listed_edges. simpl.
      unfold parent_step, get_parents, Dict.get_or. split.
      + intros Hp.
        destruct (Dict.get c (edge_map_of nodes)) as [ps|] eqn:Hget;
          [|by apply elem_of_nil in Hp].
        apply get_Some_elem, list_elem_of_fmap in Hget
          as (node & [= -> ->] & Hnode).
        by exists node.
      + intros (node & Hnode & Hp & ->).
        rewrite (elem_get_Some (edge_map_of nodes) _
                   (parse_rde_model.parents node) Hwf); [done|].
        apply list_elem_of_fmap. by exists node. }
  exists report. split_and!; [|done|by apply compare_topologies_counts..].
  apply report_or_raise_cases. by right.
Qed.

Lemma export_keeps_topology_witness :
  ∃ report,
    validate_parsed_edges (edge_map_of parsed_nodes)
      (parse_rde_model.read (parse_rde_model.to_causeway_json parsed_nodes ""))
      true
    = Report report ∧
    is_valid report = true ∧
    node_count_match report = true ∧ edge_count_match report = true.
Proof.
  apply (export_keeps_topology parsed_nodes "" true), parsed_nodes_distinct.
Defined.

(** ** Path lengths and degrees *)

(** X24: for two different nodes, the path [get_path] returns from
    [source] to [target] has one node more than the degree that
    [get_descendants_with_degree] gives [target] among the descendants of
    [source]; [get_path] returns [None] exactly when [target] is not among
    these descendants. *)
Theorem get_path_length_is_degree {N} (nodes : Dict.t N) (edges : EdgeMap)
    (source target : string) :
  source ≠ target →
  ∃ result answer,
    get_descendants_with_degree nodes edges source = Some result ∧
    get_path edges source target = Some answer ∧
    match answer with
    | Some path =>
        ∃ e, e ∈ result ∧ name e = target ∧ length path = S (degree e)
    | None => target ∉ name <$> result
    end.
Proof.
  intros Hne. unfold get_descendants_with_degree.
  destruct (with_degree_ranked nodes (_build_children_map edges) source)
    as (discovery & result & _ & -> & _ & _ & _ & Hdeg & _).
  destruct (get_path_shortest edges source target)
    as (answer & -> & Hanswer).
  exists result, answer. split_and!; [done|done|].
  destruct answer as [path|].
  - destruct Hanswer as [Hpath Hmin].
    pose proof (is_path_nsteps _ _ _ _ Hpath) as Hwalk.
    assert (Hlen : 2 ≤ length path).
    { destruct Hpath as [|x y z l _ Hl]; [done|]. destruct Hl; simpl; lia. }
    destruct (proj2 (Hdeg target (pred (length path))))
      as (e & He & Hname & Hdegree).
    { split_and!; [lia|done|]. intros k _ Hk. specialize (Hmin k Hk). lia. }
    exists e. split_and!; [done|done|lia].
  - intros (e & Hname & He)%list_elem_of_fmap.
    destruct (proj1 (Hdeg target (degree e))) as (_ & Hwalk & _).
    { by exists e. }
    apply Hanswer. by apply (rtc_nsteps_2 (degree e)).
Qed.

Lemma get_path_length_is_degree_witness :
  ∃ result answer,
    get_descendants_with_degree diamond diamond "A" = Some result ∧
    get_path diamond "A" "D" = Some answer ∧
    match answer with
    | Some path =>
        ∃ e, e ∈ result ∧ name e = "D" ∧ length path = S (degree e)
    | None => "D" ∉ name <$> result
    end.
Proof. by apply (get_path_length_is_degree diamond diamond "A" "D"). Defined.
